(** * family-tree-vue: the family-graph store and the layout engine

    A shallow embedding of
      - [lib/FamilyTree.ts]   (class [FamilyTree], the node registry),
      - [utils/treeUtility.ts] ([cloneTreeWithoutCycles],
        [traverseAndAnnotateTree]),
      - [utils/layoutUtils.ts] (blocks, root placement, overlap sweep),
      - [components/Tree.vue]  ([calculateLinks], the drag handler, the
        root selection and the layout watcher),
      - [components/ZoomContainer.vue] (zoom and pan).

    JavaScript objects are mutable and shared, so every module keeps an
    explicit object heap: a list of records addressed by position, with
    references as indices.  A JavaScript [number] is idealised as a
    rational ([Q]): the arithmetic is exact, and [NaN] and the infinities
    are left out. *)

From Stdlib Require Import QArith Qminmax Qround Lqa Ascii.
From stdpp Require Import gmap strings list sorting.

Local Open Scope string_scope.
Local Open Scope list_scope.
Local Open Scope nat_scope.

(** * Part I: the model *)

(** ** Insertion-ordered maps

    A JavaScript [Map] iterates in insertion order, and [set] on a key
    already present keeps the key's place. *)
Module JsMap.
Section JsMap.
Context {V : Type}.

Fixpoint get (k : string) (m : list (string * V)) : option V :=
  match m with
  | [] => None
  | (k', v) :: m' => if decide (k' = k) then Some v else get k m'
  end.

Fixpoint set (k : string) (v : V) (m : list (string * V)) : list (string * V) :=
  match m with
  | [] => [(k, v)]
  | (k', v') :: m' =>
      if decide (k' = k) then (k', v) :: m' else (k', v') :: set k v m'
  end.

Definition values (m : list (string * V)) : list V := m.*2.

(** [Map.prototype.delete]: keys are unique, so at most one entry goes. *)
Fixpoint delete (k : string) (m : list (string * V)) : list (string * V) :=
  match m with
  | [] => []
  | (k', v) :: m' => if decide (k' = k) then m' else (k', v) :: delete k m'
  end.

End JsMap.
End JsMap.

(** ** The family-graph store: class [FamilyTree] *)
Module Store.

Abbreviation ref := nat.

(** [interface TreeNode].  [parent] is an object or [null]/[undefined];
    [partners] and [children] are optional arrays. *)
Record TreeNode := mkTreeNode {
  id : string;
  label : string;
  parent : option ref;
  partners : option (list ref);
  children : option (list ref);
  coParentId : option string;
  image : option string;
}.

(** The store: the objects it has created or been handed ([objs]) and
    the registry [this.nodes : Map<string, TreeNode>]. *)
Record FamilyTree := mkFamilyTree {
  objs : list TreeNode;
  nodes : list (string * ref);
}.

(** The argument of [addNode]. *)
Record NodeData := mkNodeData {
  d_id : string;
  d_label : string;
  d_coParentId : option string;
  d_image : option string;
  d_parent : option ref;
  d_partners : option (list ref);
  d_children : option (list ref);
}.

(** [FamilyTreeNodeInput]: a [TreeNode] without its three relations. *)
Record NodeInput := mkNodeInput {
  i_id : string;
  i_label : string;
  i_coParentId : option string;
  i_image : option string;
}.

(** [{ ...parentData }] *)
Definition spread (d : NodeInput) : NodeData :=
  {| d_id := i_id d; d_label := i_label d; d_coParentId := i_coParentId d;
     d_image := i_image d; d_parent := None; d_partners := None;
     d_children := None |}.

(** [o.id] of an object reference; the empty string stands for a
    reference that names no object, which JavaScript cannot build. *)
Definition id_of (h : list TreeNode) (r : ref) : string :=
  from_option id "" (h !! r).

(** A non-empty string is truthy. *)
Definition truthy_str (s : string) : bool := negb (String.eqb s "").

Definition set_parent (p : option ref) (n : TreeNode) : TreeNode :=
  mkTreeNode (id n) (label n) p (partners n) (children n) (coParentId n) (image n).
Definition set_coParentId (c : option string) (n : TreeNode) : TreeNode :=
  mkTreeNode (id n) (label n) (parent n) (partners n) (children n) c (image n).
(** [n.children?.push(c)] *)
Definition push_child (c : ref) (n : TreeNode) : TreeNode :=
  mkTreeNode (id n) (label n) (parent n) (partners n)
             ((λ l, l ++ [c]) <$> children n) (coParentId n) (image n).
(** [n.partners?.push(c)] *)
Definition push_partner (c : ref) (n : TreeNode) : TreeNode :=
  mkTreeNode (id n) (label n) (parent n) ((λ l, l ++ [c]) <$> partners n)
             (children n) (coParentId n) (image n).

(** In-place update of the object at [r]. *)
Definition upd (f : TreeNode → TreeNode) (r : ref) (h : list TreeNode) : list TreeNode :=
  alter f r h.

(** [n.partners?.some(p => p.id === i)]; [None] is [undefined]. *)
Definition partners_some_id (h : list TreeNode) (i : string) (r : ref) : option bool :=
  match h !! r with
  | Some n => (λ l, existsb (λ p, bool_decide (id_of h p = i)) l) <$> partners n
  | None => None
  end.

(** [!x] for [x] a boolean or [undefined]. *)
Definition js_not (o : option bool) : bool :=
  match o with Some b => negb b | None => true end.

Definition addNode (d : NodeData) (s : FamilyTree) : ref * FamilyTree :=
  let r := length (objs s) in
  let newNode := {| id := d_id d; label := d_label d; parent := d_parent d;
                    partners := Some []; children := Some [];
                    coParentId := d_coParentId d; image := d_image d |} in
  let h0 := objs s ++ [newNode] in
  let reg := JsMap.set (d_id d) r (nodes s) in
  (* parent *)
  let h1 :=
    match d_parent d with
    | Some p =>
        if truthy_str (id_of h0 p) then
          match JsMap.get (id_of h0 p) reg with
          | Some pn => upd (set_parent (Some pn)) r (upd (push_child r) pn h0)
          | None => h0
          end
        else h0
    | None => h0
    end in
  (* partners, both directions *)
  let h2 :=
    foldl (λ h partner,
             match JsMap.get (id_of h partner) reg with
             | Some pn =>
                 let h' := upd (push_partner pn) r h in
                 if js_not (partners_some_id h' (d_id d) pn)
                 then upd (push_partner r) pn h' else h'
             | None => h
             end) h1 (default [] (d_partners d)) in
  (* children *)
  let h3 :=
    foldl (λ h child,
             match JsMap.get (id_of h child) reg with
             | Some cn => upd (set_parent (Some r)) cn (upd (push_child cn) r h)
             | None => h
             end) h2 (default [] (d_children d)) in
  (r, {| objs := h3; nodes := reg |}).

(** [p.partners?.some(q => q.id === other.id)] negated, then the push. *)
Definition link_partner (a b : ref) (h : list TreeNode) : list TreeNode :=
  if js_not (partners_some_id h (id_of h b) a) then upd (push_partner b) a h else h.

Definition addParent (childId : string) (parentData : NodeInput)
    (coParentData : option NodeInput) (s : FamilyTree) : bool * FamilyTree :=
  match JsMap.get childId (nodes s) with
  | None => (false, s)
  | Some child =>
      let '(parent_, s1) :=
        match JsMap.get (i_id parentData) (nodes s) with
        | Some p => (p, s)
        | None => addNode (spread parentData) s
        end in
      match parent <$> objs s1 !! child with
      | Some (Some _) => (false, s1)       (* the child already has a parent *)
      | _ =>
          let h1 := upd (push_child child) parent_
                      (upd (set_parent (Some parent_)) child (objs s1)) in
          let s2 := {| objs := h1; nodes := nodes s1 |} in
          match coParentData with
          | None => (true, s2)
          | Some cd =>
              let '(coParent, s3) :=
                match JsMap.get (i_id cd) (nodes s2) with
                | Some c => (c, s2)
                | None => addNode (spread cd) s2
                end in
              let h2 := link_partner parent_ coParent (objs s3) in
              let h3 := link_partner coParent parent_ h2 in
              let h4 := upd (set_coParentId (Some (id_of h3 coParent))) child h3 in
              (true, {| objs := h4; nodes := nodes s3 |})
          end
      end
  end.

(** [getNode(id)] *)
Definition getNode (i : string) (s : FamilyTree) : option ref := JsMap.get i (nodes s).

(** [!node.parent?.id]: no parent, or a parent whose id is empty. *)
Definition no_parent_id (h : list TreeNode) (n : TreeNode) : bool :=
  match parent n with
  | None => true
  | Some p => negb (truthy_str (id_of h p))
  end.

(** [getRootNodes()]: the registry's values, in insertion order, kept
    when [!node.parent?.id]. *)
Definition getRootNodes (s : FamilyTree) : list ref :=
  List.filter (λ r, from_option (no_parent_id (objs s)) true (objs s !! r))
              (JsMap.values (nodes s)).

(** Two heaps hold the same objects as far as [proj] can tell. *)
Definition keeps {A} (proj : TreeNode → A) (h h' : list TreeNode) : Prop :=
  ∀ r, proj <$> h' !! r = proj <$> h !! r.

(** What a node is, apart from its relations. *)
Definition data (n : TreeNode) : string * string * option string * option string :=
  (id n, label n, coParentId n, image n).

(** [a.partners] holds the object [b]; [a.partners] holds an object
    of id [i]. *)
Definition lists_partner (h : list TreeNode) (a b : ref) : Prop :=
  ∃ n l, h !! a = Some n ∧ partners n = Some l ∧ b ∈ l.
Definition lists_partner_id (h : list TreeNode) (a : ref) (i : string) : Prop :=
  ∃ n l q, h !! a = Some n ∧ partners n = Some l ∧ q ∈ l ∧ id_of h q = i.

(** From [h] to [h'] ids are kept and [partners] arrays only gain
    elements. *)
Definition partners_grow (h h' : list TreeNode) : Prop :=
  keeps id h h'
  ∧ ∀ r n l, h !! r = Some n → partners n = Some l →
      ∃ n' l', h' !! r = Some n' ∧ partners n' = Some (l ++ l').

(** *** Removal *)

(** [n.children = n.children?.filter(child => child?.id !== i)] and the
    same for [partners]; the ids are read in the heap [h]. *)
Definition remove_child_id (h : list TreeNode) (i : string) (n : TreeNode) : TreeNode :=
  mkTreeNode (id n) (label n) (parent n) (partners n)
             (List.filter (λ c, negb (String.eqb (id_of h c) i)) <$> children n)
             (coParentId n) (image n).
Definition remove_partner_id (h : list TreeNode) (i : string) (n : TreeNode) : TreeNode :=
  mkTreeNode (id n) (label n) (parent n)
             (List.filter (λ c, negb (String.eqb (id_of h c) i)) <$> partners n)
             (children n) (coParentId n) (image n).

(** The three passes of [removeNode] over the objects. *)
Definition unlink_from_parent (reg : list (string * ref)) (i : string) (node : ref)
    (h : list TreeNode) : list TreeNode :=
  match h !! node ≫= parent with
  | Some p =>
      if truthy_str (id_of h p) then
        match JsMap.get (id_of h p) reg with
        | Some parent_ => upd (remove_child_id h i) parent_ h
        | None => h
        end
      else h
  | None => h
  end.

Definition unlink_from_partners (reg : list (string * ref)) (i : string) (node : ref)
    (h : list TreeNode) : list TreeNode :=
  foldl (λ h' partner,
           match JsMap.get (id_of h' partner) reg with
           | Some partnerNode => upd (remove_partner_id h' i) partnerNode h'
           | None => h'
           end) h (default [] (h !! node ≫= partners)).

Definition orphan_children (reg : list (string * ref)) (node : ref)
    (h : list TreeNode) : list TreeNode :=
  foldl (λ h' child,
           match JsMap.get (id_of h' child) reg with
           | Some childNode => upd (set_parent None) childNode h'
           | None => h'
           end) h (default [] (h !! node ≫= children)).

Definition removeNode (i : string) (s : FamilyTree) : bool * FamilyTree :=
  match JsMap.get i (nodes s) with
  | None => (false, s)
  | Some node =>
      let h1 := unlink_from_parent (nodes s) i node (objs s) in
      let h2 := unlink_from_partners (nodes s) i node h1 in
      let h3 := orphan_children (nodes s) node h2 in
      (true, {| objs := h3; nodes := JsMap.delete i (nodes s) |})
  end.

(** *** [updateNode] *)

(** [Partial<Omit<TreeNode, "id" | "children">>].  For [parent] and
    [partners], [None] is an absent, [undefined] or [null] key, which the
    function does not tell apart; for the other fields [None] is an
    absent key, and a present key carries a value of the field's type.
    The array given as [partners] is the caller's own: it is not the
    [partners] array of a node of the store. *)
Record NodeUpdates := mkNodeUpdates {
  u_parent : option ref;
  u_partners : option (list ref);
  u_label : option string;
  u_coParentId : option (option string);
  u_image : option (option string);
}.

Definition set_partners (ps : option (list ref)) (n : TreeNode) : TreeNode :=
  mkTreeNode (id n) (label n) (parent n) ps (children n) (coParentId n) (image n).

(** [Object.assign(node, otherUpdates)] *)
Definition assign_other (u : NodeUpdates) (n : TreeNode) : TreeNode :=
  mkTreeNode (id n) (default (label n) (u_label u)) (parent n) (partners n)
             (children n) (default (coParentId n) (u_coParentId u))
             (default (image n) (u_image u)).

(** The parent change: the node leaves the children of the registered
    node of its old parent's id, joins those of the registered node of
    the new parent's id, and refers to the object it was given. *)
Definition change_parent (reg : list (string * ref)) (i : string) (node : ref)
    (up : ref) (h : list TreeNode) : list TreeNode :=
  if bool_decide (Some (id_of h up) ≠ (id_of h <$> (h !! node ≫= parent))) then
    let ha := unlink_from_parent reg i node h in
    let hb := if truthy_str (id_of ha up) then
                match JsMap.get (id_of ha up) reg with
                | Some newParent => upd (push_child node) newParent ha
                | None => ha
                end
              else ha in
    upd (set_parent (Some up)) node hb
  else h.

(** The partners update: the node leaves the partners of its old
    partners, joins those of the new ones unless they list its id, and
    takes the array it was given. *)
Definition change_partners (reg : list (string * ref)) (i : string) (node : ref)
    (ps : list ref) (h : list TreeNode) : list TreeNode :=
  let hc := unlink_from_partners reg i node h in
  let hd := foldl (λ h' partner,
                     match JsMap.get (id_of h' partner) reg with
                     | Some partnerNode =>
                         if js_not (partners_some_id h' i partnerNode)
                         then upd (push_partner node) partnerNode h' else h'
                     | None => h'
                     end) hc ps in
  upd (set_partners (Some ps)) node hd.

Definition updateNode (i : string) (u : NodeUpdates) (s : FamilyTree) :
    bool * FamilyTree :=
  match JsMap.get i (nodes s) with
  | None => (false, s)
  | Some node =>
      let h1 := match u_parent u with
                | Some up => change_parent (nodes s) i node up (objs s)
                | None => objs s
                end in
      let h2 := match u_partners u with
                | Some ps => change_partners (nodes s) i node ps h1
                | None => h1
                end in
      (true, {| objs := upd (assign_other u) node h2; nodes := nodes s |})
  end.

(** *** Queries *)

(** [getNodes()] *)
Definition getNodes (s : FamilyTree) : list ref := JsMap.values (nodes s).

(** [getParents(nodeId)]: the registered node that carries the id of
    the node's [parent], if any. *)
Definition getParents (nodeId : string) (s : FamilyTree) : list ref :=
  match JsMap.get nodeId (nodes s) with
  | None => []
  | Some node =>
      match objs s !! node ≫= parent with
      | Some np =>
          if truthy_str (id_of (objs s) np) then
            match JsMap.get (id_of (objs s) np) (nodes s) with
            | Some parent_ => [parent_]
            | None => []
            end
          else []
      | None => []
      end
  end.

(** [getChildren(nodeId)]: the registered nodes that carry the ids of
    the node's children. *)
Definition getChildren (nodeId : string) (s : FamilyTree) : list ref :=
  match JsMap.get nodeId (nodes s) with
  | None => []
  | Some node =>
      omap (λ child, JsMap.get (id_of (objs s) child) (nodes s))
           (default [] (objs s !! node ≫= children))
  end.

(** [getSiblings(nodeId)] *)
Definition getSiblings (nodeId : string) (s : FamilyTree) : list ref :=
  match getParents nodeId s with
  | parent_ :: _ =>
      List.filter (λ child, negb (String.eqb (id_of (objs s) child) nodeId))
        (omap (λ child, JsMap.get (id_of (objs s) child) (nodes s))
              (default [] (objs s !! parent_ ≫= children)))
  | [] => []
  end.

(** [getPartners(nodeId)] *)
Definition getPartners (nodeId : string) (s : FamilyTree) : list ref :=
  match JsMap.get nodeId (nodes s) with
  | None => []
  | Some node =>
      omap (λ partner, JsMap.get (id_of (objs s) partner) (nodes s))
           (default [] (objs s !! node ≫= partners))
  end.

(** The options of [getAncestors] and [getDescendants]: [maxDepth] is a
    number or [undefined], [filterFn] a side-effect free predicate on
    node objects or [undefined]. *)
Definition exceeds (maxDepth : option Q) (depth : nat) : bool :=
  match maxDepth with
  | Some m => if Qlt_le_dec m (inject_Z (Z.of_nat depth)) then true else false
  | None => false
  end.

Definition passes (filterFn : option (ref → bool)) (r : ref) : bool :=
  match filterFn with Some f => f r | None => true end.

(** The variables of the loop of [getAncestors]. *)
Record AState := mkAState {
  ancestors : list ref;
  a_visited : gset string;
  currentId : string;
  a_depth : nat;
}.

(** One turn of the [while] loop: the next state, or the array the
    function returns when the loop is left. *)
Definition getAncestors_turn (s : FamilyTree) (maxDepth : option Q)
    (filterFn : option (ref → bool)) (st : AState) : AState + list ref :=
  if truthy_str (currentId st) then
    match JsMap.get (currentId st) (nodes s) with
    | None => inr (ancestors st)
    | Some node =>
        match objs s !! node ≫= parent with
        | None => inr (ancestors st)
        | Some np =>
            if truthy_str (id_of (objs s) np) then
              match JsMap.get (id_of (objs s) np) (nodes s) with
              | None => inr (ancestors st)
              | Some parent_ =>
                  if decide (id_of (objs s) parent_ ∈ a_visited st)
                  then inr (ancestors st)
                  else
                    let depth := S (a_depth st) in
                    if exceeds maxDepth depth then inr (ancestors st)
                    else inl {| ancestors :=
                                  ancestors st
                                  ++ (if passes filterFn parent_ then [parent_] else []);
                                a_visited := {[ id_of (objs s) parent_ ]} ∪ a_visited st;
                                currentId := id_of (objs s) parent_;
                                a_depth := depth |}
              end
            else inr (ancestors st)
        end
    end
  else inr (ancestors st).

Fixpoint getAncestors_loop (fuel : nat) (s : FamilyTree) (maxDepth : option Q)
    (filterFn : option (ref → bool)) (st : AState) : option (list ref) :=
  match fuel with
  | 0 => None
  | S fuel' =>
      match getAncestors_turn s maxDepth filterFn st with
      | inr result => Some result
      | inl st' => getAncestors_loop fuel' s maxDepth filterFn st'
      end
  end.

(** [getAncestors(nodeId, { maxDepth, filterFn })].  Every turn but the
    last marks the id of one more registered node, so one turn per
    registry entry and one more are enough. *)
Definition getAncestors (nodeId : string) (maxDepth : option Q)
    (filterFn : option (ref → bool)) (s : FamilyTree) : option (list ref) :=
  getAncestors_loop (S (length (nodes s))) s maxDepth filterFn
    {| ancestors := []; a_visited := ∅; currentId := nodeId; a_depth := 0 |}.

(** A chain of registered parents from the id [start]: each node is
    what [getParents] gives for the id before it. *)
Fixpoint parent_chain (s : FamilyTree) (start : string) (chain : list ref) : Prop :=
  match chain with
  | [] => True
  | r :: chain' => getParents start s = [r] ∧ parent_chain s (id_of (objs s) r) chain'
  end.

(** The id a chain ends with. *)
Definition chain_end (s : FamilyTree) (start : string) (chain : list ref) : string :=
  from_option (id_of (objs s)) start (last chain).

(** The variables of the loop of [getDescendants]; the stack has its
    top first. *)
Record DState := mkDState {
  descendants : list ref;
  d_visited : gset string;
  stack : list (string * nat);
}.

(** The body of the [for] loop over the children of the popped node. *)
Definition getDescendants_child (s : FamilyTree) (maxDepth : option Q)
    (filterFn : option (ref → bool)) (depth : nat) (st : DState) (child : ref) : DState :=
  if negb (truthy_str (id_of (objs s) child)) then st
  else if decide (id_of (objs s) child ∈ d_visited st) then st
  else if exceeds maxDepth (depth + 1) then st
  else {| descendants := descendants st ++ (if passes filterFn child then [child] else []);
          d_visited := {[ id_of (objs s) child ]} ∪ d_visited st;
          stack := (id_of (objs s) child, depth + 1) :: stack st |}.

Definition getDescendants_turn (s : FamilyTree) (maxDepth : option Q)
    (filterFn : option (ref → bool)) (st : DState) : DState + list ref :=
  match stack st with
  | [] => inr (descendants st)
  | (current, depth) :: rest =>
      let st0 := {| descendants := descendants st; d_visited := d_visited st;
                    stack := rest |} in
      match JsMap.get current (nodes s) with
      | None => inl st0
      | Some node =>
          inl (foldl (getDescendants_child s maxDepth filterFn depth) st0
                     (default [] (objs s !! node ≫= children)))
      end
  end.

Fixpoint getDescendants_loop (fuel : nat) (s : FamilyTree) (maxDepth : option Q)
    (filterFn : option (ref → bool)) (st : DState) : option (list ref) :=
  match fuel with
  | 0 => None
  | S fuel' =>
      match getDescendants_turn s maxDepth filterFn st with
      | inr result => Some result
      | inl st' => getDescendants_loop fuel' s maxDepth filterFn st'
      end
  end.

(** [getDescendants(nodeId, { maxDepth, filterFn })].  Every turn pops
    one entry, and an entry is pushed for an id only once, so one turn
    per object and two more are enough. *)
Definition getDescendants (nodeId : string) (maxDepth : option Q)
    (filterFn : option (ref → bool)) (s : FamilyTree) : option (list ref) :=
  getDescendants_loop (S (S (length (objs s)))) s maxDepth filterFn
    {| descendants := []; d_visited := {[ nodeId ]}; stack := [(nodeId, 0)] |}.

(** The ids reachable from [start] along [children] arrays of
    registered nodes. *)
Inductive reaches (s : FamilyTree) (start : string) : string → Prop :=
  | reaches_start : reaches s start start
  | reaches_child i node n child :
      reaches s start i →
      JsMap.get i (nodes s) = Some node →
      objs s !! node = Some n →
      child ∈ default [] (children n) →
      id_of (objs s) child ≠ "" →
      reaches s start (id_of (objs s) child).

(** An id is closed in [visited] when the children of the node
    registered under it all have their ids in [visited]. *)
Definition closed (s : FamilyTree) (visited : gset string) (i : string) : Prop :=
  ∀ node n child,
    JsMap.get i (nodes s) = Some node →
    objs s !! node = Some n →
    child ∈ default [] (children n) →
    id_of (objs s) child ≠ "" →
    id_of (objs s) child ∈ visited.

(** What holds of the variables of [getDescendants] between two turns
    ([open] empty) and inside the [for] loop ([open] the popped id). *)
Record descendants_inv (s : FamilyTree) (nodeId : string) (maxDepth : option Q)
    (filterFn : option (ref → bool)) (open : gset string) (st : DState) : Prop :=
  mkDescendantsInv {
    d_nodup : NoDup (id_of (objs s) <$> descendants st);
    d_marked : ∀ r, r ∈ descendants st →
      id_of (objs s) r ∈ d_visited st ∧ passes filterFn r = true
      ∧ id_of (objs s) r ≠ nodeId;
    d_start : nodeId ∈ d_visited st;
    d_reach : ∀ i, i ∈ d_visited st → reaches s nodeId i;
    d_stack : ∀ e, e ∈ stack st → e.1 ∈ d_visited st;
    d_closed : maxDepth = None → ∀ i, i ∈ d_visited st →
      i ∈ (stack st).*1 ∨ i ∈ open ∨ closed s (d_visited st) i;
    d_listed : filterFn = None → ∀ i, i ∈ d_visited st →
      i = nodeId ∨ i ∈ id_of (objs s) <$> descendants st;
  }.

(** A store with a parent ["p"] and its child ["c"], built by the
    store's own operations. *)
Definition sample_store : FamilyTree :=
  let s0 := {| objs := []; nodes := [] |} in
  let '(p, s1) := addNode (mkNodeData "p" "P" None None None None None) s0 in
  (addNode (mkNodeData "c" "C" None None (Some p) None None) s1).2.

(** The same store with a second child ["e"] of ["p"]. *)
Definition sample_store_two_children : FamilyTree :=
  (addNode (mkNodeData "e" "E" None None (Some 0) None None) sample_store).2.

(** The sample store with one more parentless node ["q"]. *)
Definition sample_store_two_roots : FamilyTree :=
  (addNode (mkNodeData "q" "Q" None None None None None) sample_store).2.

(** What [getRootNodes()] is said to return: nodes lacking a parent. *)
Definition roots_lack_parent (s : FamilyTree) : Prop :=
  ∀ r n, r ∈ getRootNodes s → objs s !! r = Some n → parent n = None.

(** A node with the empty id, and a node ["c"] added with that node as
    its [parent]: [addNode] keeps the reference but, the id being empty,
    links nothing. *)
Definition sample_unnamed_parent : FamilyTree :=
  let s0 := {| objs := []; nodes := [] |} in
  let '(p, s1) := addNode (mkNodeData "" "anonymous" None None None None None) s0 in
  (addNode (mkNodeData "c" "C" None None (Some p) None None) s1).2.

End Store.

(** ** [treeUtility.ts]: [cloneTreeWithoutCycles]

    The function is generic: it copies any graph of arrays and plain
    objects.  It reads the source graph and writes only the copies it
    creates, so the model keeps the source objects ([src]) apart from
    the copies ([out]); a reference in a copy points into [out]. *)
Module Clone.

Abbreviation loc := nat.

(** Values that are not objects ([typeof item !== 'object'], or [null]). *)
Inductive prim :=
  | PUndefined
  | PNull
  | PBool (b : bool)
  | PNumber (q : Q)
  | PString (s : string).

Inductive value :=
  | Prim (p : prim)
  | Ref (l : loc).

(** An array, or an object with its own enumerable keys in
    [Object.keys] order. *)
Inductive object :=
  | Arr (vs : list value)
  | Obj (kvs : list (string * value)).

(** The closure's state: the [WeakMap] [seen], from source objects to
    their copies, and the copies made so far. *)
Record CState := mkCState {
  seen : gmap loc loc;
  out : list object;
}.

(** [arr.push(v)] on the copy at [l]. *)
Definition push (l : loc) (v : value) (o : list object) : list object :=
  alter (λ ob, match ob with Arr vs => Arr (vs ++ [v]) | Obj _ => ob end) l o.

(** [result[key] = v] on the copy at [l]. *)
Definition set_key (l : loc) (k : string) (v : value) (o : list object) : list object :=
  alter (λ ob, match ob with Obj kvs => Obj (JsMap.set k v kvs) | Arr _ => ob end) l o.

Section Clone.
Variable src : list object.
Variable skipKeys : list string.

(** The inner function [clone].  [fuel] bounds the nesting of calls
    that open a new object; a reference outside [src] names no object
    and is copied as [undefined]. *)
Fixpoint clone (fuel : nat) (item : value) (st : CState) : option (value * CState) :=
  match item with
  | Prim _ => Some (item, st)
  | Ref l =>
      match seen st !! l with
      | Some l' => Some (Ref l', st)
      | None =>
          match src !! l with
          | None => Some (Prim PUndefined, st)
          | Some ob =>
              match fuel with
              | O => None
              | S fuel' =>
                  let l' := length (out st) in
                  match ob with
                  | Arr vs =>
                      let st0 := mkCState (<[l := l']> (seen st)) (out st ++ [Arr []]) in
                      st' ← foldl (λ acc v,
                                     st1 ← acc;
                                     '(v', st2) ← clone fuel' v st1;
                                     Some (mkCState (seen st2) (push l' v' (out st2))))
                                  (Some st0) vs;
                      Some (Ref l', st')
                  | Obj kvs =>
                      let st0 := mkCState (<[l := l']> (seen st)) (out st ++ [Obj []]) in
                      st' ← foldl (λ acc '(key, v),
                                     st1 ← acc;
                                     if bool_decide (key ∈ skipKeys) then Some st1
                                     else
                                       '(v', st2) ← clone fuel' v st1;
                                       Some (mkCState (seen st2) (set_key l' key v' (out st2))))
                                  (Some st0) kvs;
                      Some (Ref l', st')
                  end
              end
          end
      end
  end.

(** Every call that opens an object marks it in [seen] first, so calls
    nest at most [length src] deep. *)
Definition cloneTreeWithoutCycles (obj : value) : option (value * CState) :=
  clone (length src) obj (mkCState ∅ []).

End Clone.

(** Source objects that have no copy yet. *)
Definition unseen (src : list object) (s : gmap loc loc) : gset loc :=
  list_to_set (seq 0 (length src)) ∖ dom s.

Section CloneSpec.
Variable src : list object.
Variable skipKeys : list string.

(** The copies are in one-to-one correspondence with the source
    objects met so far, and no copy has a skipped key. *)
Record clone_inv (st : CState) : Prop := mkCloneInv {
  ci_seen : ∀ l l', seen st !! l = Some l' →
    is_Some (src !! l) ∧ l' < length (out st);
  ci_inj : ∀ l1 l2 l', seen st !! l1 = Some l' → seen st !! l2 = Some l' → l1 = l2;
  ci_cover : ∀ l', l' < length (out st) → ∃ l, seen st !! l = Some l';
  ci_keys : ∀ l' kvs k, out st !! l' = Some (Obj kvs) → k ∈ kvs.*1 → k ∉ skipKeys;
}.

(** What a call returns for [item]: a primitive as it is, an object's
    one copy. *)
Definition returned (item v : value) (st' : CState) : Prop :=
  match item with
  | Prim _ => v = item
  | Ref l =>
      match src !! l with
      | Some _ => ∃ l', v = Ref l' ∧ seen st' !! l = Some l'
      | None => v = Prim PUndefined
      end
  end.

(** The copy of a value under a [seen] map. *)
Definition copy_value (s : gmap loc loc) (v : value) : value :=
  match v with
  | Prim _ => v
  | Ref l =>
      match s !! l with
      | Some l' => Ref l'
      | None => Prim PUndefined
      end
  end.

(** The copy of an object's fields: the skipped keys are left out. *)
Definition copy_fields (s : gmap loc loc) (kvs : list (string * value)) :
    list (string * value) :=
  foldl (λ acc '(key, v),
           if bool_decide (key ∈ skipKeys) then acc
           else JsMap.set key (copy_value s v) acc)
        [] kvs.

Definition copy_object (s : gmap loc loc) (ob : object) : object :=
  match ob with
  | Arr vs => Arr (copy_value s <$> vs)
  | Obj kvs => Obj (copy_fields s kvs)
  end.

(** The values [clone] follows from an object: all the elements of an
    array, and the values under the keys that are not skipped. *)
Definition followed (ob : object) : list value :=
  match ob with
  | Arr vs => vs
  | Obj kvs => (filter (λ kv, kv.1 ∉ skipKeys) kvs).*2
  end.

(** The object a value refers to, if any, has a copy. *)
Definition has_copy (s : gmap loc loc) (v : value) : Prop :=
  match v with
  | Prim _ => True
  | Ref l => is_Some (src !! l) → is_Some (s !! l)
  end.

(** The copy of the source object [l] is complete: it is the image of
    [l] under [s], and everything [l] refers to has a copy. *)
Definition copied (s : gmap loc loc) (o : list object) (l : loc) : Prop :=
  ∀ ob l', src !! l = Some ob → s !! l = Some l' →
    o !! l' = Some (copy_object s ob) ∧ Forall (has_copy s) (followed ob).

(** Every object met so far is copied completely, but for the objects
    of [open], which the calls in progress are still filling. *)
Definition all_copied (open : gset loc) (st : CState) : Prop :=
  ∀ l, is_Some (seen st !! l) → l ∉ open → copied (seen st) (out st) l.

(** A call of [cl] returns whenever at most [bound] source objects are
    without a copy; it leaves the copies that existed alone, returns the
    copy of its argument and completes every copy it starts. *)
Definition call_ok (cl : value → CState → option (value * CState)) (bound : nat) : Prop :=
  ∀ item st open, clone_inv st → size (unseen src (seen st)) ≤ bound →
    all_copied open st →
    ∃ v st', cl item st = Some (v, st')
             ∧ clone_inv st'
             ∧ seen st ⊆ seen st'
             ∧ length (out st) ≤ length (out st')
             ∧ (∀ x, x < length (out st) → out st' !! x = out st !! x)
             ∧ v = copy_value (seen st') item
             ∧ has_copy (seen st') item
             ∧ all_copied open st'.

End CloneSpec.

(** Two nodes [a] and [b]: [b] is a child of [a], has [a] as [parent],
    and lists [a] among its own children.  Objects: [0] is the children
    array of [a], [1] is [a], [2] is the children array of [b], [3] is
    [b]. *)
Definition sample_cycle : list object :=
  [ Arr [Ref 3];
    Obj [("id", Prim (PString "a")); ("children", Ref 0); ("parent", Prim PNull)];
    Arr [Ref 1];
    Obj [("id", Prim (PString "b")); ("parent", Ref 1); ("children", Ref 2)] ].

End Clone.

(** ** The layout engine: [treeUtility.ts], [layoutUtils.ts], [Tree.vue] *)
Module Engine.

Abbreviation ref := nat.

(** [interface PositionedTreeNode].  The elements of [partners] and
    [children] are objects, as the declared type [T[]] says, so the
    source's guards [child && ...] and [partner && ...] always pass; the
    arrays themselves may be [undefined] ([None]). *)
Record PositionedTreeNode := mkNode {
  id : string;
  label : string;
  x : Q;
  y : Q;
  depth : option nat;
  parent : option ref;
  partners : option (list ref);
  children : option (list ref);
  coParentId : option string;
}.

Abbreviation heap := (list PositionedTreeNode).

Definition set_x (v : Q) (n : PositionedTreeNode) : PositionedTreeNode :=
  mkNode (id n) (label n) v (y n) (depth n) (parent n) (partners n) (children n)
         (coParentId n).
Definition set_xy (vx vy : Q) (n : PositionedTreeNode) : PositionedTreeNode :=
  mkNode (id n) (label n) vx vy (depth n) (parent n) (partners n) (children n)
         (coParentId n).
Definition annotate (d : nat) (p : option ref) (n : PositionedTreeNode) :
    PositionedTreeNode :=
  mkNode (id n) (label n) (x n) (y n) (Some d) p (partners n) (children n)
         (coParentId n).

(** An array that may be [undefined], read as a list. *)
Definition elems (o : option (list ref)) : list ref := default [] o.

(** Field reads through a reference.  A reference that names no object
    cannot be built in JavaScript; the defaults below only make the
    reads total. *)
Definition id_of (h : heap) (r : ref) : string := from_option id "" (h !! r).
Definition x_of (h : heap) (r : ref) : Q := from_option x 0%Q (h !! r).
Definition y_of (h : heap) (r : ref) : Q := from_option y 0%Q (h !! r).
Definition depth_of (h : heap) (r : ref) : option nat := h !! r ≫= depth.
Definition parent_of (h : heap) (r : ref) : option ref := h !! r ≫= parent.
Definition children_of (h : heap) (r : ref) : list ref :=
  from_option (λ n, elems (children n)) [] (h !! r).
Definition partners_of (h : heap) (r : ref) : list ref :=
  from_option (λ n, elems (partners n)) [] (h !! r).
Definition coParentId_of (h : heap) (r : ref) : option string :=
  h !! r ≫= coParentId.

(** *** [traverseAndAnnotateTree] *)

Record QEntry := mkQEntry {
  q_node : ref;
  q_depth : nat;
  q_parent : option ref;
}.

(** The locals of the traversal, with the heap it writes [depth] and
    [parent] into. *)
Record TState := mkTState {
  t_heap : heap;
  nodes : list ref;
  nodesByDepth : gmap nat (list ref);
  visited : gset string;
  queue : list QEntry;
}.

(** Entries pushed for an array of neighbours: those whose id is not
    yet in [visited]. *)
Definition enqueue (h : heap) (vis : gset string) (d : nat) (p : option ref)
    (l : list ref) : list QEntry :=
  (λ c, mkQEntry c d p) <$> List.filter (λ c, bool_decide (id_of h c ∉ vis)) l.

(** One turn of the [while] loop on a non-empty queue. *)
Definition step (st : TState) : TState :=
  match queue st with
  | [] => st
  | e :: q =>
      let r := q_node e in
      match t_heap st !! r with
      | None => mkTState (t_heap st) (nodes st) (nodesByDepth st) (visited st) q
      | Some n =>
          if decide (id n ∈ visited st) then
            mkTState (t_heap st) (nodes st) (nodesByDepth st) (visited st) q
          else
            let vis := {[id n]} ∪ visited st in
            let byd := <[q_depth e := default [] (nodesByDepth st !! q_depth e) ++ [r]]>
                         (nodesByDepth st) in
            let h := <[r := annotate (q_depth e) (q_parent e) n]> (t_heap st) in
            mkTState h (nodes st ++ [r]) byd vis
              (q ++ enqueue h vis (S (q_depth e)) (Some r) (elems (children n))
                 ++ enqueue h vis (q_depth e) None (elems (partners n)))
      end
  end.

Fixpoint loop (fuel : nat) (st : TState) : option TState :=
  match queue st with
  | [] => Some st
  | _ :: _ =>
      match fuel with
      | O => None
      | S fuel' => loop fuel' (step st)
      end
  end.

(** Number of neighbour slots of a node: the queue entries it can push. *)
Definition weight (n : PositionedTreeNode) : nat :=
  length (elems (children n)) + length (elems (partners n)).

(** Slots of the nodes whose id is not in [vis]. *)
Definition pending (vis : gset string) (h : heap) : nat :=
  sum_list ((λ n, if decide (id n ∈ vis) then 0 else weight n) <$> h).

Definition init (h : heap) (root : ref) : TState :=
  mkTState h [] ∅ ∅ [mkQEntry root 0 None].

(** The loop leaves only through [queue.length === 0]; [None] would be a
    run of more than [1 + pending ∅ h] turns, which never happens
    (see [traverse_returns]). *)
Definition traverseAndAnnotateTree (h : heap) (root : ref) : option TState :=
  loop (S (pending ∅ h)) (init h root).

(** Turns the loop can still take: the queue, and the slots of the
    nodes not visited yet. *)
Definition turns_left (st : TState) : nat :=
  length (queue st) + pending (visited st) (t_heap st).

(** What a queue entry records: an entry with a parent was pushed for a
    child of that parent, one level below it; an entry without one is
    the root's, at depth 0, or was pushed for a partner of a node of the
    same depth. *)
Definition entry_ok (root : ref) (st : TState) (e : QEntry) : Prop :=
  match q_parent e with
  | Some p =>
      p ∈ nodes st ∧ q_node e ∈ children_of (t_heap st) p
      ∧ ∃ d, depth_of (t_heap st) p = Some d ∧ q_depth e = S d
  | None =>
      (q_node e = root ∧ q_depth e = 0)
      ∨ ∃ q, q ∈ nodes st ∧ q_node e ∈ partners_of (t_heap st) q
             ∧ depth_of (t_heap st) q = Some (q_depth e)
  end.

(** The loop invariant of the traversal. *)
Record traversal_inv (root : ref) (st : TState) : Prop := mkInv {
  inv_ids : NoDup (id_of (t_heap st) <$> nodes st);
  inv_visited : ∀ r, r ∈ nodes st → id_of (t_heap st) r ∈ visited st;
  inv_valid : ∀ r, r ∈ nodes st → is_Some (t_heap st !! r);
  inv_depth : ∀ r, r ∈ nodes st →
    ∃ d, depth_of (t_heap st) r = Some d ∧ is_Some (nodesByDepth st !! d);
  inv_bucket : ∀ d l, nodesByDepth st !! d = Some l →
    l = filter (λ r, depth_of (t_heap st) r = Some d) (nodes st);
  inv_parent : ∀ r p, r ∈ nodes st → parent_of (t_heap st) r = Some p →
    p ∈ nodes st ∧ r ∈ children_of (t_heap st) p
    ∧ ∃ d, depth_of (t_heap st) p = Some d ∧ depth_of (t_heap st) r = Some (S d);
  inv_partner : ∀ r, r ∈ nodes st → parent_of (t_heap st) r = None →
    (r = root ∧ depth_of (t_heap st) r = Some 0)
    ∨ ∃ q, q ∈ nodes st ∧ r ∈ partners_of (t_heap st) q
           ∧ depth_of (t_heap st) q = depth_of (t_heap st) r;
  inv_queue : ∀ e, e ∈ queue st → entry_ok root st e;
}.

(** What the traversal leaves alone in a node: all but [depth] and
    [parent]. *)
Definition unannotated (n : PositionedTreeNode) :
    string * string * Q * Q * option (list ref) * option (list ref) * option string :=
  (id n, label n, x n, y n, partners n, children n, coParentId n).

(** A second loop invariant, relative to the heap [h0] the traversal
    starts from: what is written, which ids are marked, where the root
    is, and that no neighbour of a listed node is forgotten. *)
Record traversal_closed (h0 : heap) (root : ref) (st : TState) : Prop := mkClosed {
  tc_same : ∀ r, unannotated <$> t_heap st !! r = unannotated <$> h0 !! r;
  tc_frame : ∀ r, r ∉ nodes st → t_heap st !! r = h0 !! r;
  tc_vis : ∀ i, i ∈ visited st ↔ ∃ r, r ∈ nodes st ∧ id_of (t_heap st) r = i;
  tc_root : is_Some (h0 !! root) →
    (nodes st = [] ∧ queue st = [mkQEntry root 0 None])
    ∨ (head (nodes st) = Some root ∧ depth_of (t_heap st) root = Some 0);
  tc_near : ∀ r c, r ∈ nodes st →
    c ∈ children_of (t_heap st) r ++ partners_of (t_heap st) r →
    is_Some (h0 !! c) →
    id_of (t_heap st) c ∈ visited st ∨ ∃ e, e ∈ queue st ∧ q_node e = c;
}.

(** A root with a child [c] and a partner [p]; [c] lists the root among
    its own children, a cycle through [children] alone. *)
Definition sample_tree : heap :=
  [ mkNode "r" "R" 0 0 None None (Some [2]) (Some [1]) None;
    mkNode "c" "C" 0 0 None None (Some []) (Some [0]) None;
    mkNode "p" "P" 0 0 None None (Some [0]) (Some []) None ].

(** *** [layoutUtils.ts] *)

(** [buildLayoutBlocks]: the inner [forEach] over a child's partners. *)
Definition add_partners (h : heap) (ps : list ref) (acc : list ref * gset string) :
    list ref * gset string :=
  foldl (λ '(block, used) partner,
           if decide (id_of h partner ∈ used) then (block, used)
           else (block ++ [partner], {[id_of h partner]} ∪ used))
        acc ps.

Definition buildLayoutBlocks_step (h : heap)
    (acc : list (list ref) * gset string) (child : ref) :
    list (list ref) * gset string :=
  let '(layoutBlocks, used) := acc in
  if decide (id_of h child ∈ used) then acc
  else
    let '(block, used') :=
      add_partners h (partners_of h child) ([child], {[id_of h child]} ∪ used) in
    (layoutBlocks ++ [block], used').

Definition buildLayoutBlocks (h : heap) (siblings : list ref) : list (list ref) :=
  (foldl (buildLayoutBlocks_step h) ([], ∅) siblings).1.

(** The block building the layout watcher of [Tree.vue] runs instead:
    [block = [child, ...partners]], and only [child.id] goes into
    [seen]. *)
Definition watcher_blocks_step (h : heap)
    (acc : list (list ref) * gset string) (child : ref) :
    list (list ref) * gset string :=
  let '(layoutBlocks, seen) := acc in
  if decide (id_of h child ∈ seen) then acc
  else (layoutBlocks ++ [child :: partners_of h child], {[id_of h child]} ∪ seen).

Definition watcher_blocks (h : heap) (siblings : list ref) : list (list ref) :=
  (foldl (watcher_blocks_step h) ([], ∅) siblings).1.

(** A JavaScript count as a [number]. *)
Definition Qnat (n : nat) : Q := inject_Z (Z.of_nat n).

Definition calculateTotalBlocksWidth (layoutBlocks : list (list ref))
    (NODE_WIDTH X_SPACING : Q) : Q :=
  foldl (λ sum '(i, block),
           sum + Qnat (length block) * NODE_WIDTH
               + (Qnat (length block) - 1) * X_SPACING
               + (if decide (0 < i)%nat then X_SPACING else 0))%Q
        0%Q (imap (λ i b, (i, b)) layoutBlocks).

(** [level.filter(node => !node.parent)] *)
Definition parentless (h : heap) (level : list ref) : list ref :=
  List.filter (λ r, bool_decide (parent_of h r = None)) level.

Definition positionRootNodes (h : heap) (level : list ref)
    (totalWidth NODE_WIDTH y : Q) : heap :=
  let numNodesInLevel := length level in
  foldl (λ h' '(index, r),
           alter (set_xy ((totalWidth / (Qnat numNodesInLevel + 1)) * (Qnat index + 1)
                            - NODE_WIDTH / 2)%Q y) r h')
        h (imap (λ i r, (i, r)) (parentless h level)).

(** [level.sort((a, b) => a.x - b.x)]: the stable ascending order by
    [x], which is what [Array.prototype.sort] yields for this
    comparator on finite coordinates. *)
Fixpoint insert_by_x (h : heap) (a : ref) (l : list ref) : list ref :=
  match l with
  | [] => [a]
  | b :: l' =>
      if Qlt_le_dec (x_of h b) (x_of h a) then b :: insert_by_x h a l'
      else a :: b :: l'
  end.

Definition sort_by_x (h : heap) (l : list ref) : list ref :=
  foldr (insert_by_x h) [] l.

(** The [for] loop of [preventOverlap], from [i] to the end, with
    [prev = level[i - 1]]. *)
Fixpoint sweep (NODE_WIDTH X_SPACING : Q) (h : heap) (prev : ref) (rest : list ref) :
    heap :=
  match rest with
  | [] => h
  | curr :: rest' =>
      let bound := (x_of h prev + NODE_WIDTH + X_SPACING)%Q in
      let h' := if Qlt_le_dec (x_of h curr) bound
                then alter (set_x bound) curr h else h in
      sweep NODE_WIDTH X_SPACING h' curr rest'
  end.

(** [preventOverlap] sorts [level] in place and then moves nodes: it
    returns the heap and the array as they are left. *)
Definition preventOverlap (h : heap) (level : list ref) (NODE_WIDTH X_SPACING : Q) :
    heap * list ref :=
  let level' := sort_by_x h level in
  match level' with
  | [] => (h, level')
  | first :: rest => (sweep NODE_WIDTH X_SPACING h first rest, level')
  end.

(** What the placement is said to do for a level's parentless nodes:
    node [i] of [n], with [n] the number of parentless nodes of the
    level. *)
Definition root_spread_claimed (h : heap) (level : list ref)
    (totalWidth NODE_WIDTH y : Q) : Prop :=
  ∀ i r, parentless h level !! i = Some r →
    (x_of (positionRootNodes h level totalWidth NODE_WIDTH y) r
       == (totalWidth / (Qnat (length (parentless h level)) + 1)) * (Qnat i + 1)
          - NODE_WIDTH / 2)%Q
    ∧ (y_of (positionRootNodes h level totalWidth NODE_WIDTH y) r == y)%Q.

(** Every node id is placed in at most one block, at most once. *)
Definition placed_once (h : heap) (blocks : list (list ref)) : Prop :=
  NoDup (id_of h <$> concat blocks).

(** A node with its arrays present and no depth yet. *)
Definition node (i : string) (vx vy : Q) (p : option ref) (ps cs : list ref)
    (cp : option string) : PositionedTreeNode :=
  mkNode i i vx vy None p (Some ps) (Some cs) cp.

(** Three nodes of one level, out of order and too close. *)
Definition sample_level : heap :=
  [ node "a" 300 200 None [] [] None;
    node "b" 0 200 None [] [] None;
    node "c" 100 200 None [] [] None ].

Definition sample_level_refs : list ref := [0; 1; 2].

(** A parent [P], its child [C] and the child's partner [X]: the level
    of [C] holds one node with a parent and one without. *)
Definition sample_mixed_level : heap :=
  [ node "P" 0 0 None [] [1] None;
    node "C" 0 0 (Some 0) [2] [] None;
    node "X" 0 0 None [1] [] None ].

(** A parent [P] with children [A] and [B], and [X], partner of both. *)
Definition sample_shared_partner : heap :=
  [ node "P" 0 0 None [] [1; 2] None;
    node "A" 0 0 (Some 0) [3] [] None;
    node "B" 0 0 (Some 0) [3] [] None;
    node "X" 0 0 None [1; 2] [] None ].

Definition sample_siblings : list ref := [1; 2].

(** The order of [x] coordinates, and the gap the sweep enforces. *)
Definition x_le (h : heap) (a b : ref) : Prop := (x_of h a <= x_of h b)%Q.
Definition gap_ok (NODE_WIDTH X_SPACING : Q) (h : heap) (a b : ref) : Prop :=
  (x_of h a + NODE_WIDTH + X_SPACING <= x_of h b)%Q.

(** *** [Tree.vue]: link synthesis and the drag handler *)

Module TreeLink.
Record t := mk {
  id : string;
  x1 : Q;
  y1 : Q;
  x2 : Q;
  y2 : Q;
  hasArrow : option bool;
}.
End TreeLink.

Module PositionedTreeData.
Record t := mk {
  nodes : list ref;
  links : list TreeLink.t;
  width : Q;
  height : Q;
}.
End PositionedTreeData.

(** [interface NodePositionUpdate] *)
Record NodePositionUpdate := mkUpdate {
  u_id : string;
  dx : Q;
  dy : Q;
  isDragEnd : option bool;
}.

(** [s.split('_')] *)
Fixpoint split_underscore (s : string) : list string :=
  match s with
  | EmptyString => [""]
  | String c s' =>
      if Ascii.eqb c "_"%char then "" :: split_underscore s'
      else match split_underscore s' with
           | w :: ws => String c w :: ws
           | [] => [String c ""]
           end
  end.

(** [[p1, p2].sort().join('_')]: the default sort orders strings by
    their code units.  An id is a string of code units below 256 here,
    one character each, which [String.ltb] orders the same way. *)
Definition sorted_join (p1 p2 : string) : string :=
  if String.ltb p2 p1 then p2 +:+ "_" +:+ p1 else p1 +:+ "_" +:+ p2.

(** [new Map(nodes.map(n => [n.id, n]))] *)
Definition nodeMap (h : heap) (nodes : list ref) : list (string * ref) :=
  foldl (λ m n, JsMap.set (id_of h n) n m) [] nodes.

Definition Y_SPACING_BUS : Q := 100.

Section TreeVue.
Variables NODE_WIDTH NODE_HEIGHT : Q.

Definition point : Type := Q * Q.

(** Top, bottom, left and right mid-points of a node's box. *)
Definition anchors (h : heap) (n : ref) : list point :=
  [ (x_of h n + NODE_WIDTH / 2, y_of h n);
    (x_of h n + NODE_WIDTH / 2, y_of h n + NODE_HEIGHT);
    (x_of h n, y_of h n + NODE_HEIGHT / 2);
    (x_of h n + NODE_WIDTH, y_of h n + NODE_HEIGHT / 2) ]%Q.

(** The square of [distance].  [Math.sqrt] is strictly increasing, so
    [distance < minDistance] holds exactly when the squares compare so. *)
Definition distance2 (pA pB : point) : Q :=
  ((pA.1 - pB.1) * (pA.1 - pB.1) + (pA.2 - pB.2) * (pA.2 - pB.2))%Q.

(** [getOptimalConnectionPoints]; [None] is the initial [Infinity] of
    [minDistance]. *)
Definition getOptimalConnectionPoints (h : heap) (nodeA nodeB : ref) : point * point :=
  let pointsA := anchors h nodeA in
  let pointsB := anchors h nodeB in
  let first := ((x_of h nodeA + NODE_WIDTH / 2, y_of h nodeA),
                (x_of h nodeB + NODE_WIDTH / 2, y_of h nodeB))%Q in
  (foldl (λ '(minDistance, optimalPoints) '(pA, pB),
            let distance := distance2 pA pB in
            match minDistance with
            | None => (Some distance, (pA, pB))
            | Some m =>
                if Qlt_le_dec distance m then (Some distance, (pA, pB))
                else (minDistance, optimalPoints)
            end)
         (None, first) (list_prod pointsA pointsB)).2.

(** Step 1: partner links, one per ordered pair with [node.id < partner.id]. *)
Definition partner_links (h : heap) (nodes : list ref) : list TreeLink.t :=
  flat_map (λ node,
    flat_map (λ partner,
      if String.ltb (id_of h node) (id_of h partner) then
        let '((x1, y1), (x2, y2)) := getOptimalConnectionPoints h node partner in
        [TreeLink.mk ("p_" +:+ id_of h node +:+ "_" +:+ id_of h partner)
                     x1 y1 x2 y2 None]
      else []) (partners_of h node)) nodes.

(** [node.parent && node.parent.children &&
     node.parent.children.some(child => child.id === node.id)] *)
Definition listed_by_parent (h : heap) (node : ref) : bool :=
  match parent_of h node with
  | Some p =>
      match h !! p ≫= children with
      | Some cs => existsb (λ c, bool_decide (id_of h c = id_of h node)) cs
      | None => false
      end
  | None => false
  end.

Definition familyId_of (h : heap) (node : ref) : string :=
  let p1 := from_option (id_of h) "" (parent_of h node) in
  match coParentId_of h node with
  | Some p2 => if String.eqb p2 "" then p1 else sorted_join p1 p2
  | None => p1
  end.

(** Step 2: the [families] map, in insertion order. *)
Definition families (h : heap) (nodes : list ref) : list (string * list ref) :=
  foldl (λ fam node,
           if listed_by_parent h node then
             let familyId := familyId_of h node in
             JsMap.set familyId (default [] (JsMap.get familyId fam) ++ [node]) fam
           else fam)
        [] nodes.

(** The bus of a family: the main vertical, the horizontal and one
    arrowed drop per child.  [children] is a family's array, which holds
    at least one node. *)
Definition bus_links (h : heap) (familyId : string) (parentMidX parentMidY : Q)
    (children : list ref) : list TreeLink.t :=
  let busY := (parentMidY + Y_SPACING_BUS)%Q in
  let sorted := sort_by_x h children in
  match head sorted, last sorted with
  | Some first, Some last_ =>
      let minChildX := (x_of h first + NODE_WIDTH / 2)%Q in
      let maxChildX := (x_of h last_ + NODE_WIDTH / 2)%Q in
      [ TreeLink.mk ("bus_v_main_" +:+ familyId) parentMidX parentMidY parentMidX busY None;
        TreeLink.mk ("bus_h_" +:+ familyId) (Qmin parentMidX minChildX) busY
                    (Qmax parentMidX maxChildX) busY None ]
      ++ ((λ child,
             let childMidX := (x_of h child + NODE_WIDTH / 2)%Q in
             TreeLink.mk ("bus_v_child_" +:+ id_of h child) childMidX busY childMidX
                         (y_of h child) (Some true)) <$> sorted)
  | _, _ => []
  end.

(** The links one turn of the loop over [families.entries()] pushes,
    given the links pushed so far. *)
Definition family_links (h : heap) (nodes : list ref) (newLinks : list TreeLink.t)
    (family : string * list ref) : list TreeLink.t :=
  let '(familyId, children) := family in
  if String.eqb familyId "super-root" then []
  else
    let parentIds := split_underscore familyId in
    let parent1 := head parentIds ≫= λ i, JsMap.get i (nodeMap h nodes) in
    match parentIds, parent1 with
    | [_], Some parent1 =>
        match children with
        | [child] =>
            [TreeLink.mk ("pc_" +:+ id_of h parent1 +:+ "_" +:+ id_of h child)
                         (x_of h parent1 + NODE_WIDTH / 2) (y_of h parent1 + NODE_HEIGHT)
                         (x_of h child + NODE_WIDTH / 2) (y_of h child) (Some true)]%Q
        | _ =>
            bus_links h familyId (x_of h parent1 + NODE_WIDTH / 2)%Q
                      (y_of h parent1 + NODE_HEIGHT)%Q children
        end
    | [i0; i1], Some parent1 =>
        match JsMap.get i1 (nodeMap h nodes) with
        | None => []
        | Some parent2 =>
            let partnerLinkId := "p_" +:+ i0 +:+ "_" +:+ i1 in
            let found := List.find (λ l, String.eqb (TreeLink.id l) partnerLinkId) newLinks in
            let partnerLink :=
              match found with
              | Some l => l
              | None =>
                  let '((x1, y1), (x2, y2)) :=
                    getOptimalConnectionPoints h parent1 parent2 in
                  TreeLink.mk partnerLinkId x1 y1 x2 y2 None
              end in
            let pushed := match found with Some _ => [] | None => [partnerLink] end in
            let parentMidX := ((TreeLink.x1 partnerLink + TreeLink.x2 partnerLink) / 2)%Q in
            let parentMidY := ((TreeLink.y1 partnerLink + TreeLink.y2 partnerLink) / 2)%Q in
            pushed ++
            match children with
            | [child] =>
                [TreeLink.mk ("fam_" +:+ familyId +:+ "-" +:+ id_of h child)
                             parentMidX parentMidY
                             (x_of h child + NODE_WIDTH / 2) (y_of h child) (Some true)]%Q
            | _ => bus_links h familyId parentMidX parentMidY children
            end
        end
    | _, _ => []
    end.

Definition calculateLinks (h : heap) (nodes : list ref) : list TreeLink.t :=
  foldl (λ newLinks family, newLinks ++ family_links h nodes newLinks family)
        (partner_links h nodes) (families h nodes).

(** The component state: the node objects and [positionedData.value]. *)
Definition view : Type := heap * PositionedTreeData.t.

Definition handleNodePositionUpdate (v : view) (u : NodePositionUpdate) : view :=
  let '(h, pd) := v in
  match List.find (λ n, bool_decide (id_of h n = u_id u)) (PositionedTreeData.nodes pd) with
  | None => v
  | Some node =>
      let h' := alter (λ n, set_xy (x n + dx u) (y n + dy u) n) node h in
      (h', PositionedTreeData.mk (PositionedTreeData.nodes pd)
             (calculateLinks h' (PositionedTreeData.nodes pd))
             (PositionedTreeData.width pd) (PositionedTreeData.height pd))
  end.

(** The links pushed before the loop reaches the [k]-th family. *)
Definition links_before (h : heap) (nodes : list ref) (k : nat) : list TreeLink.t :=
  foldl (λ newLinks family, newLinks ++ family_links h nodes newLinks family)
        (partner_links h nodes) (take k (families h nodes)).

(** The parent centre of a family, and the partner link the loop pushes
    on its way to it: a single parent's bottom-mid, or the middle of the
    partner link of a pair, which is pushed first when no link of that
    id was there. *)
Inductive family_center (h : heap) (nodes : list ref) (newLinks : list TreeLink.t)
    (familyId : string) : list TreeLink.t → Q → Q → Prop :=
  | center_single i0 parent1 :
      split_underscore familyId = [i0] →
      JsMap.get i0 (nodeMap h nodes) = Some parent1 →
      family_center h nodes newLinks familyId []
        (x_of h parent1 + NODE_WIDTH / 2)%Q (y_of h parent1 + NODE_HEIGHT)%Q
  | center_pair_linked i0 i1 parent1 parent2 l :
      split_underscore familyId = [i0; i1] →
      JsMap.get i0 (nodeMap h nodes) = Some parent1 →
      JsMap.get i1 (nodeMap h nodes) = Some parent2 →
      List.find (λ l, String.eqb (TreeLink.id l) ("p_" +:+ i0 +:+ "_" +:+ i1)) newLinks
        = Some l →
      family_center h nodes newLinks familyId []
        ((TreeLink.x1 l + TreeLink.x2 l) / 2)%Q ((TreeLink.y1 l + TreeLink.y2 l) / 2)%Q
  | center_pair_unlinked i0 i1 parent1 parent2 l :
      split_underscore familyId = [i0; i1] →
      JsMap.get i0 (nodeMap h nodes) = Some parent1 →
      JsMap.get i1 (nodeMap h nodes) = Some parent2 →
      List.find (λ l, String.eqb (TreeLink.id l) ("p_" +:+ i0 +:+ "_" +:+ i1)) newLinks
        = None →
      l = (let '((x1, y1), (x2, y2)) := getOptimalConnectionPoints h parent1 parent2 in
           TreeLink.mk ("p_" +:+ i0 +:+ "_" +:+ i1) x1 y1 x2 y2 None) →
      family_center h nodes newLinks familyId [l]
        ((TreeLink.x1 l + TreeLink.x2 l) / 2)%Q ((TreeLink.y1 l + TreeLink.y2 l) / 2)%Q.

(** What the horizontal trunk of a family is said to span: from the
    leftmost child's centre to the rightmost child's centre. *)
Definition bus_h_spans_children (h : heap) (nodes : list ref) (familyId : string)
    (children : list ref) : Prop :=
  ∀ l first last_,
    l ∈ calculateLinks h nodes →
    TreeLink.id l = "bus_h_" +:+ familyId →
    head (sort_by_x h children) = Some first →
    last (sort_by_x h children) = Some last_ →
    (TreeLink.x1 l == x_of h first + NODE_WIDTH / 2)%Q
    ∧ (TreeLink.x2 l == x_of h last_ + NODE_WIDTH / 2)%Q.

End TreeVue.

(** Two partnered parents and their three children, each naming the
    second parent as co-parent. *)
Definition sample_family : heap :=
  [ node "P1" 100 0 None [1] [2; 3; 4] None;
    node "P2" 260 0 None [0] [] None;
    node "C1" 20 200 (Some 0) [] [] (Some "P2");
    node "C2" 180 200 (Some 0) [] [] (Some "P2");
    node "C3" 340 200 (Some 0) [] [] (Some "P2") ].

Definition sample_family_nodes : list ref := [0; 1; 2; 3; 4].
Definition sample_family_children : list ref := [2; 3; 4].

(** The partner link of the two parents: right-mid of [P1] to left-mid
    of [P2]. *)
Definition sample_family_partner_link : TreeLink.t :=
  TreeLink.mk "p_P1_P2" 220 (120 # 2) 260 (120 # 2) None.

(** A single parent dragged far to the right of its two children. *)
Definition sample_far_parent : heap :=
  [ node "P" 1000 0 None [] [1; 2] None;
    node "A" 0 200 (Some 0) [] [] None;
    node "B" 160 200 (Some 0) [] [] None ].

Definition sample_far_parent_nodes : list ref := [0; 1; 2].
Definition sample_far_parent_children : list ref := [1; 2].

(** Numbers on which the arithmetic of [getOptimalConnectionPoints] is
    exact in double precision: integers of at most [2^20] in size for
    the coordinates, and even integers from [0] to [2^20] for the node
    sizes, so that the mid-points are integers too.  Squares and sums
    then stay below [2^53], and square roots of distinct sums differ. *)
Definition small_int (v : Q) : Prop :=
  ∃ z : Z, v = inject_Z z ∧ (Z.abs z <= 2 ^ 20)%Z.
Definition small_even_size (v : Q) : Prop :=
  ∃ z : Z, v = inject_Z (2 * z) ∧ (0 <= z <= 2 ^ 19)%Z.

(** A single parent whose id holds the separator of family ids, with
    two children. *)
Definition sample_underscore_parent : heap :=
  [ node "john_smith" 0 0 None [] [1; 2] None;
    node "A" 0 200 (Some 0) [] [] None;
    node "B" 160 200 (Some 0) [] [] None ].

(** *** [layoutUtils.ts] and [Tree.vue]: the rest of the placement *)

(** [groupSiblingsByParent]: the nodes of a level that have a parent,
    under their parent's id. *)
Definition groupSiblingsByParent (h : heap) (level : list ref) :
    list (string * list ref) :=
  foldl (λ siblingsByParent node,
           match parent_of h node with
           | Some p =>
               let parentId := id_of h p in
               JsMap.set parentId
                 (default [] (JsMap.get parentId siblingsByParent) ++ [node])
                 siblingsByParent
           | None => siblingsByParent
           end)
        [] level.

(** [sortParentsByX]: the keys that name a node of [nodeMap], by [x]. *)
Definition sortParentsByX (h : heap) (siblingsByParent : list (string * list ref))
    (nodeMap : list (string * ref)) : list ref :=
  sort_by_x h (omap (λ i, JsMap.get i nodeMap) siblingsByParent.*1).


Definition max_of (first : Q) (rest : list Q) : Q := foldl Qmax first rest.

(** The nodes other than the ['super-root'] pseudo node. *)
Definition real_nodes (h : heap) (nodes : list ref) : list ref :=
  List.filter (λ n, negb (String.eqb (id_of h n) "super-root")) nodes.


(** [finalWidth] and [finalHeight] of the watcher. *)
Definition finalWidth (h : heap) (nodes : list ref) (NODE_WIDTH X_SPACING : Q) : Q :=
  match x_of h <$> real_nodes h nodes with
  | [] => 0
  | first :: rest => max_of first rest + NODE_WIDTH + X_SPACING
  end.

Definition finalHeight (h : heap) (nodes : list ref) (NODE_HEIGHT : Q) : Q :=
  match y_of h <$> real_nodes h nodes with
  | [] => 0
  | first :: rest => max_of first rest + NODE_HEIGHT
  end.

(** A row of two blocks, [[1; 2]] and [[3]]. *)
Definition sample_row : heap :=
  [ node "P" 200 0 None [] [1; 3] None;
    node "A" 0 0 (Some 0) [2] [] None;
    node "X" 0 0 None [1] [] None;
    node "B" 0 0 (Some 0) [] [] None ].


(** Two partnered parents [A] and [B]; [C] is a child of [A] with
    co-parent [B], and [D] a child of [B] with co-parent [A]. *)
Definition sample_two_trees : heap :=
  [ node "A" 0 0 None [1] [2] None;
    node "B" 160 0 None [0] [3] None;
    node "C" 0 200 (Some 0) [] [] (Some "B");
    node "D" 160 200 (Some 1) [] [] (Some "A") ].

(** A layout with one node at [(100, 200)]. *)
Definition sample_view : view :=
  ([ node "n" 100 200 None [] [] None; node "m" 300 200 None [] [] None ],
   PositionedTreeData.mk [0; 1] [] 460 320).

End Engine.

(** ** [Tree.vue]: the choice of the traversal root *)
Module Watcher.

(** [root.children?.length ?? 0 > 0] parses as
    [root.children?.length ?? (0 > 0)]: [false] without a [children]
    array, else the length, which is truthy when it is not zero. *)
Definition has_children (n : Store.TreeNode) : bool :=
  match Store.children n with
  | None => false
  | Some l => negb (length l =? 0)%nat
  end.

Definition getRootNode (s : Store.FamilyTree) : option Store.ref :=
  let roots := Store.getRootNodes s in
  match roots with
  | [] => None
  | first :: _ =>
      match List.find (λ r, from_option has_children false (Store.objs s !! r)) roots with
      | Some r => Some r
      | None => Some first
      end
  end.

(** The children list of the node at [r] is not empty. *)
Definition nonempty_children (s : Store.FamilyTree) (r : Store.ref) : Prop :=
  ∃ n c cs, Store.objs s !! r = Some n ∧ Store.children n = Some (c :: cs).

Definition empty_layout : Engine.PositionedTreeData.t :=
  Engine.PositionedTreeData.mk [] [] 0 0.

Section Watch.
(** The rest of the watcher, run on a root that exists: clone,
    traversal, placement and link synthesis. *)
Variable relayout : Store.FamilyTree → Store.ref → Engine.view.

(** The [watch] callback: the new value of the node objects and of
    [positionedData.value]. *)
Definition watch (s : Store.FamilyTree) : Engine.view :=
  match getRootNode s with
  | None => ([], empty_layout)
  | Some newTree => relayout s newTree
  end.
End Watch.

End Watcher.

(** ** [ZoomContainer.vue]: zoom and pan

    The component state is three numbers and the panning flag; what the
    handlers read from the DOM (element sizes and offsets, the event's
    coordinates) is an argument. *)
Module Zoom.

Definition MIN_SCALE : Q := 1 # 10.
Definition MAX_SCALE : Q := 3.

Record ZoomState := mkZoom {
  scale : Q;
  translateX : Q;
  translateY : Q;
  isPanning : bool;
  lastX : Q;
  lastY : Q;
}.

(** [Math.max(MIN_SCALE, Math.min(MAX_SCALE, v))] *)
Definition clamp (v : Q) : Q := Qmax MIN_SCALE (Qmin MAX_SCALE v).

(** The sizes [zoomToFit] reads. *)
Record Sizes := mkSizes {
  containerWidth : Q;
  containerHeight : Q;
  contentWidth : Q;
  contentHeight : Q;
}.

(** [zoomToFit]; [None] stands for a missing element. *)
Definition zoomToFit (dom : option Sizes) (st : ZoomState) : ZoomState :=
  match dom with
  | None => st
  | Some d =>
      if Qeq_dec (contentWidth d) 0 then st
      else if Qeq_dec (contentHeight d) 0 then st
      else
        let scaleX := (containerWidth d / contentWidth d)%Q in
        let scaleY := (containerHeight d / contentHeight d)%Q in
        let newScale := (Qmin scaleX scaleY * (9 # 10))%Q in
        let scale' := clamp newScale in
        let verticalOffset := 80%Q in
        mkZoom scale'
               ((containerWidth d - contentWidth d * scale') / 2)%Q
               ((containerHeight d - contentHeight d * scale') / 2 - verticalOffset)%Q
               (isPanning st) (lastX st) (lastY st)
  end.

(** What [handleWheel] reads of the event and of the container;
    [offsetLeft] and [offsetTop] are [None] without a container. *)
Record Wheel := mkWheel {
  deltaY : Q;
  clientX : Q;
  clientY : Q;
  offsetLeft : option Q;
  offsetTop : option Q;
}.

Definition handleWheel (event : Wheel) (st : ZoomState) : ZoomState :=
  let scaleAmount := (1 # 10)%Q in
  let oldScale := scale st in
  let newScale := if Qlt_le_dec (deltaY event) 0 then (scale st + scaleAmount)%Q
                  else (scale st - scaleAmount)%Q in
  let scale' := clamp newScale in
  let mouseX := (clientX event - default 0 (offsetLeft event))%Q in
  let mouseY := (clientY event - default 0 (offsetTop event))%Q in
  mkZoom scale'
         (mouseX - ((mouseX - translateX st) * scale') / oldScale)%Q
         (mouseY - ((mouseY - translateY st) * scale') / oldScale)%Q
         (isPanning st) (lastX st) (lastY st).

(** [handleMouseDown], [handleMouseMove] and [handleMouseUp], with the
    event's [clientX] and [clientY]. *)
Definition handleMouseDown (cx cy : Q) (st : ZoomState) : ZoomState :=
  mkZoom (scale st) (translateX st) (translateY st) true cx cy.

Definition handleMouseMove (cx cy : Q) (st : ZoomState) : ZoomState :=
  if isPanning st then
    mkZoom (scale st) (translateX st + (cx - lastX st))%Q
           (translateY st + (cy - lastY st))%Q true cx cy
  else st.

Definition handleMouseUp (st : ZoomState) : ZoomState :=
  mkZoom (scale st) (translateX st) (translateY st) false (lastX st) (lastY st).

(** [resetZoom] *)
Definition resetZoom (dom : option Sizes) (st : ZoomState) : ZoomState :=
  match dom with
  | None => st
  | Some d =>
      if Qeq_dec (contentWidth d) 0 then st
      else if Qeq_dec (contentHeight d) 0 then st
      else mkZoom 1 ((containerWidth d - contentWidth d) / 2)%Q
                  ((containerHeight d - contentHeight d) / 2)%Q
                  (isPanning st) (lastX st) (lastY st)
  end.

Definition zoomStep : Q := 1 # 10.

(** [+v.toFixed(2)]: the sign is set aside, a number from [10^21] on
    is printed in full and read back as it is, and any other becomes
    [n / 100] for the integer [n] that brings [n / 100] nearest to it,
    the larger of two such. *)
Definition toFixed2 (v : Q) : Q :=
  let nearest (x : Q) := (inject_Z (Qfloor (x * 100 + (1 # 2))) / 100)%Q in
  if Qlt_le_dec v 0 then
    if Qlt_le_dec (- v) (inject_Z (10 ^ 21)) then (- nearest (- v))%Q else v
  else
    if Qlt_le_dec v (inject_Z (10 ^ 21)) then nearest v else v.

(** [zoomIn] and [zoomOut] *)
Definition zoomIn (st : ZoomState) : ZoomState :=
  mkZoom (Qmin MAX_SCALE (toFixed2 (scale st + zoomStep)))
         (translateX st) (translateY st) (isPanning st) (lastX st) (lastY st).

Definition zoomOut (st : ZoomState) : ZoomState :=
  mkZoom (Qmax MIN_SCALE (toFixed2 (scale st - zoomStep)))
         (translateX st) (translateY st) (isPanning st) (lastX st) (lastY st).

(** The state the component starts in. *)
Definition initial : ZoomState := mkZoom 1 0 0 false 0 0.

(** What the template and [defineExpose] let happen to the component,
    and what each does to the state. *)
Inductive Event :=
  | EWheel (event : Wheel)
  | EZoomIn
  | EZoomOut
  | EZoomToFit (dom : option Sizes)
  | EResetZoom (dom : option Sizes)
  | EMouseDown (cx cy : Q)
  | EMouseMove (cx cy : Q)
  | EMouseUp.

Definition handle (e : Event) (st : ZoomState) : ZoomState :=
  match e with
  | EWheel event => handleWheel event st
  | EZoomIn => zoomIn st
  | EZoomOut => zoomOut st
  | EZoomToFit dom => zoomToFit dom st
  | EResetZoom dom => resetZoom dom st
  | EMouseDown cx cy => handleMouseDown cx cy st
  | EMouseMove cx cy => handleMouseMove cx cy st
  | EMouseUp => handleMouseUp st
  end.


End Zoom.

(** * Part II: properties *)

(** ** Lists *)
Module ListFacts.

(** A boolean [Array.prototype.filter] is stdpp's [filter]. *)
Lemma filter_bool {A} (f : A → bool) (l : list A) :
  List.filter f l = filter (λ a, f a = true) l.
Proof.
  induction l as [|a l IH]; simpl; [done|].
  rewrite filter_cons. destruct (f a) eqn:Ha.
  - rewrite decide_True by done. by rewrite IH.
  - rewrite decide_False by congruence. done.
Qed.

Lemma elem_of_filter_bool {A} (f : A → bool) (l : list A) (a : A) :
  a ∈ List.filter f l ↔ f a = true ∧ a ∈ l.
Proof. rewrite filter_bool. by rewrite list_elem_of_filter. Qed.

Lemma NoDup_filter_bool {A} (f : A → bool) (l : list A) :
  NoDup l → NoDup (List.filter f l).
Proof. rewrite filter_bool. apply NoDup_filter. Qed.

End ListFacts.

(** ** Insertion-ordered maps *)
Module JsMapFacts.
Import JsMap.

Lemma get_set_eq {V} (k : string) (v : V) (m : list (string * V)) :
  get k (set k v m) = Some v.
Proof.
  induction m as [|[k' v'] m IH]; simpl.
  - by rewrite decide_True.
  - destruct (decide (k' = k)) as [->|Hne]; simpl.
    + by rewrite decide_True.
    + by rewrite decide_False.
Qed.

Lemma get_set_ne {V} (k k' : string) (v : V) (m : list (string * V)) :
  k ≠ k' → get k' (set k v m) = get k' m.
Proof.
  intros Hne. induction m as [|[k0 v0] m IH]; simpl.
  - by rewrite decide_False.
  - destruct (decide (k0 = k)) as [->|Hne0]; simpl.
    + by rewrite !decide_False.
    + destruct (decide (k0 = k')); [done|apply IH].
Qed.

Lemma set_fresh {V} (k : string) (v : V) (m : list (string * V)) :
  get k m = None → set k v m = m ++ [(k, v)].
Proof.
  induction m as [|[k0 v0] m IH]; simpl; [done|].
  destruct (decide (k0 = k)); [done|]. intros H. by rewrite IH.
Qed.

Lemma get_Some_elem {V} (k : string) (v : V) (m : list (string * V)) :
  get k m = Some v → (k, v) ∈ m.
Proof.
  induction m as [|[k0 v0] m IH]; simpl; [done|].
  destruct (decide (k0 = k)) as [->|].
  - intros [= ->]. left.
  - intros H. right. by apply IH.
Qed.

End JsMapFacts.

(** ** The store *)
Module StoreFacts.
Import Store JsMapFacts.

(** [addNode] on a spread [FamilyTreeNodeInput] only allocates the new
    node and registers it: the input names no relation. *)
Lemma addNode_spread (d : NodeInput) (s : FamilyTree) :
  addNode (spread d) s =
    (length (objs s),
     {| objs := objs s ++ [ {| id := i_id d; label := i_label d; parent := None;
                               partners := Some []; children := Some [];
                               coParentId := i_coParentId d; image := i_image d |} ];
        nodes := JsMap.set (i_id d) (length (objs s)) (nodes s) |}).
Proof. reflexivity. Qed.

(** The outcome of [addParent] on a child that has a parent. *)
Lemma addParent_has_parent (s : FamilyTree) (childId : string) (pd : NodeInput)
    (cpd : option NodeInput) (child : ref) (cn : TreeNode) (p : ref) :
  getNode childId s = Some child →
  objs s !! child = Some cn →
  parent cn = Some p →
  addParent childId pd cpd s =
    (false, match getNode (i_id pd) s with
            | Some _ => s
            | None => (addNode (spread pd) s).2
            end).
Proof.
  unfold getNode, addParent. intros -> Hc Hp.
  destruct (JsMap.get (i_id pd) (nodes s)) as [p0|] eqn:Hpd.
  - rewrite Hc. simpl. by rewrite Hp.
  - rewrite addNode_spread. cbn [objs].
    rewrite lookup_app_l by (by eapply lookup_lt_Some).
    rewrite Hc. simpl. by rewrite Hp.
Qed.

(** C8.  When the child exists and already has a parent, [addParent]
    returns [false]; the child object, its [parent] edge included, and
    every other object that existed are as before, and the node the call
    designates as the new parent does not gain the child: it is either an
    object that existed, unchanged, or a fresh node with no children. *)
Theorem addParent_rejects_second_parent (s : FamilyTree) (childId : string)
    (pd : NodeInput) (cpd : option NodeInput) (child : ref) (cn : TreeNode) (p : ref) :
  getNode childId s = Some child →
  objs s !! child = Some cn →
  parent cn = Some p →
  (addParent childId pd cpd s).1 = false
  ∧ getNode childId (addParent childId pd cpd s).2 = Some child
  ∧ parent <$> objs (addParent childId pd cpd s).2 !! child = Some (Some p)
  ∧ (∀ r n, objs s !! r = Some n → objs (addParent childId pd cpd s).2 !! r = Some n)
  ∧ (∀ pr pn, getNode (i_id pd) (addParent childId pd cpd s).2 = Some pr →
              objs (addParent childId pd cpd s).2 !! pr = Some pn →
              objs s !! pr = Some pn ∨ (objs s !! pr = None ∧ children pn = Some [])).
Proof.
  intros Hget Hc Hp.
  rewrite (addParent_has_parent s childId pd cpd child cn p Hget Hc Hp).
  cbn [fst snd]. split; [done|].
  unfold getNode in *.
  destruct (JsMap.get (i_id pd) (nodes s)) as [p0|] eqn:Hpd.
  - rewrite Hc. simpl. rewrite Hp. repeat split; try done.
    intros pr pn _ Hpr. by left.
  - rewrite addNode_spread. cbn [snd objs nodes].
    assert (Hne : i_id pd ≠ childId) by (intros Heq; congruence).
    rewrite get_set_ne by done.
    rewrite lookup_app_l by (by eapply lookup_lt_Some).
    rewrite Hc. simpl. rewrite Hp. repeat split; try done.
    + intros r n Hr. rewrite lookup_app_l; [done|by eapply lookup_lt_Some].
    + intros pr pn. rewrite get_set_eq. intros [= <-].
      rewrite lookup_app_r by done. rewrite Nat.sub_diag. simpl.
      intros [= <-]. right. split; [|done].
      by apply lookup_ge_None.
Qed.

(** C10.  A rejected [addParent] whose [parentData.id] was not
    registered still leaves the node it created in the registry: the
    call returns [false] and [this.nodes] has one more entry, appended
    last, for a fresh parentless and childless node built from
    [parentData]. *)
Theorem addParent_failure_keeps_new_node (s : FamilyTree) (childId : string)
    (pd : NodeInput) (cpd : option NodeInput) (child : ref) (cn : TreeNode) (p : ref) :
  getNode childId s = Some child →
  objs s !! child = Some cn →
  parent cn = Some p →
  getNode (i_id pd) s = None →
  (addParent childId pd cpd s).1 = false
  ∧ nodes (addParent childId pd cpd s).2 = nodes s ++ [(i_id pd, length (objs s))]
  ∧ getNode (i_id pd) (addParent childId pd cpd s).2 = Some (length (objs s))
  ∧ objs (addParent childId pd cpd s).2 !! length (objs s) =
      Some {| id := i_id pd; label := i_label pd; parent := None;
              partners := Some []; children := Some [];
              coParentId := i_coParentId pd; image := i_image pd |}.
Proof.
  intros Hget Hc Hp Hnew.
  rewrite (addParent_has_parent s childId pd cpd child cn p Hget Hc Hp).
  rewrite Hnew, addNode_spread. cbn [fst snd objs nodes]. unfold getNode in *.
  cbn [nodes].
  split; [done|]. split; [by apply set_fresh|].
  split; [apply get_set_eq|].
  rewrite lookup_app_r by done. by rewrite Nat.sub_diag.
Qed.

End StoreFacts.

Module StoreWitness.
Import Store StoreFacts.

Lemma sample_store_eq :
  sample_store =
    {| objs := [ mkTreeNode "p" "P" None (Some []) (Some [1]) None None;
                 mkTreeNode "c" "C" (Some 0) (Some []) (Some []) None None ];
       nodes := [("p", 0); ("c", 1)] |}.
Proof. reflexivity. Qed.

Lemma addParent_rejects_second_parent_witness :
  (addParent "c" (mkNodeInput "q" "Q" None None) None sample_store).1 = false
  ∧ parent <$> objs (addParent "c" (mkNodeInput "q" "Q" None None) None sample_store).2 !! 1
    = Some (Some 0).
Proof.
  pose proof (addParent_rejects_second_parent sample_store "c"
                (mkNodeInput "q" "Q" None None) None 1
                (mkTreeNode "c" "C" (Some 0) (Some []) (Some []) None None) 0
                eq_refl eq_refl eq_refl) as (H1 & _ & H3 & _).
  exact (conj H1 H3).
Defined.

Lemma addParent_failure_keeps_new_node_witness :
  (addParent "c" (mkNodeInput "q" "Q" None None) None sample_store).1 = false
  ∧ getNode "q" (addParent "c" (mkNodeInput "q" "Q" None None) None sample_store).2
    = Some 2.
Proof.
  pose proof (addParent_failure_keeps_new_node sample_store "c"
                (mkNodeInput "q" "Q" None None) None 1
                (mkTreeNode "c" "C" (Some 0) (Some []) (Some []) None None) 0
                eq_refl eq_refl eq_refl eq_refl) as (H1 & _ & H3 & _).
  exact (conj H1 H3).
Defined.

End StoreWitness.

(** ** The choice of the traversal root *)
Module WatcherFacts.
Import Store Watcher.

Lemma find_first {A} (f : A → bool) (l : list A) (a : A) :
  List.find f l = Some a →
  ∃ i, l !! i = Some a ∧ f a = true ∧ ∀ j b, j < i → l !! j = Some b → f b = false.
Proof.
  induction l as [|b l IH]; simpl; [done|].
  destruct (f b) eqn:Hb.
  - intros [= ->]. exists 0. split; [done|]. split; [done|]. intros j c Hj. lia.
  - intros Hfind. destruct (IH Hfind) as (i & Hi & Ha & Hbefore).
    exists (S i). split; [done|]. split; [done|].
    intros [|j] c Hj Hc; simpl in Hc.
    + by injection Hc as <-.
    + apply (Hbefore j); [lia|done].
Qed.

Lemma find_none_all {A} (f : A → bool) (l : list A) :
  List.find f l = None → ∀ a, a ∈ l → f a = false.
Proof.
  intros Hnone a Ha. apply (find_none f l Hnone). by apply list_elem_of_In.
Qed.

Lemma has_children_true (s : FamilyTree) (r : ref) :
  from_option has_children false (objs s !! r) = true ↔ nonempty_children s r.
Proof.
  unfold nonempty_children, has_children. split.
  - destruct (objs s !! r) as [n|]; simpl; [|done].
    destruct (children n) as [[|c cs]|] eqn:Hch; simpl; try done.
    intros _. by exists n, c, cs.
  - intros (n & c & cs & -> & Hch). simpl. by rewrite Hch.
Qed.

Lemma has_children_false (s : FamilyTree) (r : ref) :
  from_option has_children false (objs s !! r) = false → ¬ nonempty_children s r.
Proof.
  intros Hf Hne. apply has_children_true in Hne. congruence.
Qed.

(** [getRootNodes] keeps the registry's order and returns exactly the
    registered nodes that have no parent or whose parent has an empty
    id: [!node.parent?.id]. *)
Lemma getRootNodes_spec (s : FamilyTree) :
  getRootNodes s `sublist_of` JsMap.values (nodes s)
  ∧ (∀ r, r ∈ getRootNodes s ↔
          r ∈ JsMap.values (nodes s)
          ∧ ∀ n p, objs s !! r = Some n → parent n = Some p →
                   id_of (objs s) p = "")
  ∧ ∀ r n, r ∈ JsMap.values (nodes s) → objs s !! r = Some n → parent n = None →
           r ∈ getRootNodes s.
Proof.
  assert (Hiff : ∀ r, r ∈ getRootNodes s ↔
            r ∈ JsMap.values (nodes s)
            ∧ ∀ n p, objs s !! r = Some n → parent n = Some p →
                     id_of (objs s) p = "").
  { intros r. unfold getRootNodes. rewrite ListFacts.elem_of_filter_bool.
    split.
    - intros [Hf Hr]. split; [done|]. intros n p Hn Hp.
      rewrite Hn in Hf. simpl in Hf. unfold no_parent_id in Hf. rewrite Hp in Hf.
      unfold truthy_str in Hf. rewrite negb_involutive in Hf.
      by apply String.eqb_eq in Hf.
    - intros [Hr Hp]. split; [|done].
      destruct (objs s !! r) as [n|] eqn:Hn; simpl; [|done].
      unfold no_parent_id. destruct (parent n) as [p|] eqn:Hpn; [|done].
      unfold truthy_str. rewrite negb_involutive. apply String.eqb_eq.
      by apply (Hp n p). }
  split; [|split; [exact Hiff|]].
  - unfold getRootNodes. rewrite ListFacts.filter_bool. apply sublist_filter.
  - intros r n Hr Hn Hp. apply Hiff. split; [done|].
    intros n' p Hn' Hp'. congruence.
Qed.

(** C6, as the code has it.  [getRootNodes()] lists, in the registry's
    order, exactly the registered nodes that have no parent or whose
    parent has an empty id.  The engine's root is the first of them whose
    children list is not empty; without such a node it is the first of
    them; and without any the watcher produces the empty layout: no
    nodes, no links, width and height zero. *)
Theorem getRootNode_selection (s : FamilyTree)
    (relayout : FamilyTree → ref → Engine.view) :
  (getRootNodes s `sublist_of` JsMap.values (nodes s)
   ∧ (∀ r, r ∈ getRootNodes s ↔
           r ∈ JsMap.values (nodes s)
           ∧ ∀ n p, objs s !! r = Some n → parent n = Some p →
                    id_of (objs s) p = "")
   ∧ ∀ r n, r ∈ JsMap.values (nodes s) → objs s !! r = Some n → parent n = None →
            r ∈ getRootNodes s)
  ∧ ((∃ i r, getRootNodes s !! i = Some r
             ∧ nonempty_children s r
             ∧ (∀ j r', j < i → getRootNodes s !! j = Some r' → ¬ nonempty_children s r')
             ∧ getRootNode s = Some r
             ∧ watch relayout s = relayout s r)
     ∨ (∃ r, head (getRootNodes s) = Some r
             ∧ (∀ r', r' ∈ getRootNodes s → ¬ nonempty_children s r')
             ∧ getRootNode s = Some r
             ∧ watch relayout s = relayout s r)
     ∨ (getRootNodes s = []
        ∧ getRootNode s = None
        ∧ watch relayout s =
            ([], Engine.PositionedTreeData.mk [] [] 0 0))).
Proof.
  split; [apply getRootNodes_spec|].
  unfold watch, getRootNode.
  destruct (getRootNodes s) as [|first roots] eqn:Hroots.
  - right. right. done.
  - destruct (List.find _ (first :: roots)) as [r|] eqn:Hfind.
    + left. destruct (find_first _ _ _ Hfind) as (i & Hi & Hr & Hbefore).
      exists i, r. split; [done|]. split; [by apply has_children_true|].
      split; [|done].
      intros j r' Hj Hr'. apply has_children_false. by eapply Hbefore.
    + right. left. exists first. split; [done|]. split; [|done].
      intros r' Hr'. apply has_children_false.
      by apply (find_none_all _ _ Hfind).
Qed.

(** The store in which ["c"] was added with a parent of empty id:
    [getRootNodes()] lists ["c"], which has a parent. *)
Lemma roots_lack_parent_fails : ¬ roots_lack_parent sample_unnamed_parent.
Proof.
  intros Hclaim.
  assert (Hroot : 1 ∈ getRootNodes sample_unnamed_parent)
    by (apply (bool_decide_unpack _); vm_compute; exact I).
  specialize (Hclaim 1 (mkTreeNode "c" "C" (Some 0) (Some []) (Some []) None None)
                Hroot eq_refl).
  discriminate Hclaim.
Qed.

End WatcherFacts.

(** ** The layout engine *)
Module EngineFacts.
Import Engine ListFacts.

Lemma Sorted_adjacent {A} (R : A → A → Prop) (l : list A) (i : nat) (a b : A) :
  Sorted R l → l !! i = Some a → l !! S i = Some b → R a b.
Proof.
  intros Hs. revert i. induction Hs as [|c l Hs IH Hhd]; intros i; [done|].
  destruct i as [|i]; simpl.
  - intros [= ->] Hb. destruct Hhd as [|d l' Hcd]; simpl in Hb; [done|].
    by injection Hb as <-.
  - apply IH.
Qed.

(** *** Reads after an in-place update *)

Lemma lookup_alter_other (f : PositionedTreeNode → PositionedTreeNode)
    (h : heap) (r r' : ref) :
  r ≠ r' → alter f r h !! r' = h !! r'.
Proof. intros Hne. by apply list_lookup_alter_ne. Qed.

Lemma x_of_alter_other (f : PositionedTreeNode → PositionedTreeNode)
    (h : heap) (r r' : ref) :
  r ≠ r' → x_of (alter f r h) r' = x_of h r'.
Proof. intros Hne. unfold x_of. rewrite lookup_alter_other by done. reflexivity. Qed.

Lemma x_of_set_x (h : heap) (r : ref) (v : Q) :
  is_Some (h !! r) → x_of (alter (set_x v) r h) r = v.
Proof.
  intros [n Hn]. unfold x_of. by rewrite list_lookup_alter_eq, Hn.
Qed.

Lemma is_Some_alter (f : PositionedTreeNode → PositionedTreeNode)
    (h : heap) (r r' : ref) :
  is_Some (h !! r') → is_Some (alter f r h !! r').
Proof.
  intros [n Hn]. destruct (decide (r = r')) as [->|Hne].
  - rewrite list_lookup_alter_eq, Hn. by eexists.
  - rewrite lookup_alter_other by done. by eexists.
Qed.

(** *** The sort *)

Lemma insert_by_x_perm (h : heap) (a : ref) (l : list ref) :
  insert_by_x h a l ≡ₚ a :: l.
Proof.
  induction l as [|b l IH]; simpl; [done|].
  destruct (Qlt_le_dec (x_of h b) (x_of h a)); [|done].
  rewrite IH. apply Permutation_swap.
Qed.

Lemma sort_by_x_perm (h : heap) (l : list ref) : sort_by_x h l ≡ₚ l.
Proof.
  induction l as [|a l IH]; simpl; [done|].
  by rewrite insert_by_x_perm, IH.
Qed.

Lemma insert_by_x_sorted (h : heap) (a : ref) (l : list ref) :
  Sorted (x_le h) l → Sorted (x_le h) (insert_by_x h a l).
Proof.
  induction 1 as [|b l Hs IH Hhd]; simpl.
  - repeat constructor.
  - destruct (Qlt_le_dec (x_of h b) (x_of h a)) as [Hlt|Hle].
    + constructor; [done|].
      destruct Hhd as [|c l' Hbc]; simpl.
      * constructor. unfold x_le. lra.
      * destruct (Qlt_le_dec (x_of h c) (x_of h a)); constructor; unfold x_le in *; lra.
    + constructor; [by constructor|]. by constructor.
Qed.

Lemma sort_by_x_sorted (h : heap) (l : list ref) : Sorted (x_le h) (sort_by_x h l).
Proof.
  induction l as [|a l IH]; simpl; [constructor|].
  by apply insert_by_x_sorted.
Qed.

(** *** The sweep *)

(** On a list that is in ascending order already, a sweep with a
    negative step moves nothing. *)
Lemma sweep_negative_step (W S : Q) (h : heap) (prev : ref) (rest : list ref) :
  (W + S < 0)%Q → Sorted (x_le h) (prev :: rest) →
  sweep W S h prev rest = h.
Proof.
  intros Hneg. revert prev. induction rest as [|curr rest IH]; intros prev Hs; [done|].
  simpl. apply Sorted_inv in Hs as [Hs Hhd]. apply HdRel_inv in Hhd.
  unfold x_le in Hhd.
  destruct (Qlt_le_dec (x_of h curr) (x_of h prev + W + S)) as [Hlt|_]; [lra|].
  by apply IH.
Qed.

(** A sweep writes only to the nodes after [prev], and leaves every
    adjacent pair at least one step apart. *)
Lemma sweep_gap (W S : Q) (h : heap) (prev : ref) (rest : list ref) :
  NoDup (prev :: rest) →
  (∀ r, r ∈ prev :: rest → is_Some (h !! r)) →
  (∀ r, r ∉ rest → sweep W S h prev rest !! r = h !! r)
  ∧ Sorted (gap_ok W S (sweep W S h prev rest)) (prev :: rest).
Proof.
  revert h prev. induction rest as [|curr rest IH]; intros h prev Hnd Hval.
  - split; [done|]. repeat constructor.
  - simpl.
    set (bound := (x_of h prev + W + S)%Q).
    set (h1 := if Qlt_le_dec (x_of h curr) bound
               then alter (set_x bound) curr h else h).
    apply NoDup_cons in Hnd as [Hprev Hnd].
    assert (Hpc : prev ≠ curr) by (intros ->; apply Hprev; left).
    assert (Hval1 : ∀ r, r ∈ curr :: rest → is_Some (h1 !! r)).
    { intros r Hr. unfold h1. destruct (Qlt_le_dec _ _).
      - apply is_Some_alter, Hval. by right.
      - apply Hval. by right. }
    assert (Hother : ∀ r, r ≠ curr → h1 !! r = h !! r).
    { intros r Hr. unfold h1. destruct (Qlt_le_dec _ _); [|done].
      by apply lookup_alter_other. }
    assert (Hcurr : (bound <= x_of h1 curr)%Q).
    { unfold h1. destruct (Qlt_le_dec _ _) as [Hlt|Hle]; [|done].
      rewrite x_of_set_x; [lra|]. apply Hval. right; left. }
    destruct (IH h1 curr Hnd Hval1) as [Hframe Hsorted].
    split.
    + intros r Hr. rewrite Hframe by (intros ?; apply Hr; by right).
      apply Hother. intros ->. apply Hr. left.
    + constructor; [done|]. constructor. unfold gap_ok.
      assert (Hp : x_of (sweep W S h1 curr rest) prev = x_of h prev).
      { unfold x_of. rewrite Hframe, Hother; [done|done|].
        intros Hin. apply Hprev. by right. }
      assert (Hc : x_of (sweep W S h1 curr rest) curr = x_of h1 curr).
      { unfold x_of. rewrite Hframe; [done|]. by apply NoDup_cons in Hnd as [? _]. }
      rewrite Hp, Hc. exact Hcurr.
Qed.

Lemma Sorted_gap_x_le (W S : Q) (h : heap) (l : list ref) :
  (0 <= W + S)%Q → Sorted (gap_ok W S h) l → Sorted (x_le h) l.
Proof.
  intros Hpos. induction 1 as [|a l Hs IH Hhd]; constructor; [done|].
  destruct Hhd as [|b l' Hab]; constructor. unfold gap_ok, x_le in *. lra.
Qed.

(** C2.  For a level of distinct node objects, after
    [preventOverlap(level, NODE_WIDTH, X_SPACING)] the array holds the
    same nodes in ascending order of their new [x], and every adjacent
    pair [(prev, next)] has [next.x >= prev.x + NODE_WIDTH + X_SPACING].
    One sweep is enough: the sweep writes a node only when it reaches
    it, so a pair once spaced stays spaced. *)
Theorem preventOverlap_spaced (h : heap) (level : list ref) (NODE_WIDTH X_SPACING : Q) :
  NoDup level →
  (∀ r, r ∈ level → is_Some (h !! r)) →
  (preventOverlap h level NODE_WIDTH X_SPACING).2 ≡ₚ level
  ∧ ∀ i prev next,
      (preventOverlap h level NODE_WIDTH X_SPACING).2 !! i = Some prev →
      (preventOverlap h level NODE_WIDTH X_SPACING).2 !! S i = Some next →
      (x_of (preventOverlap h level NODE_WIDTH X_SPACING).1 prev
         <= x_of (preventOverlap h level NODE_WIDTH X_SPACING).1 next)%Q
      ∧ (x_of (preventOverlap h level NODE_WIDTH X_SPACING).1 prev
           + NODE_WIDTH + X_SPACING
         <= x_of (preventOverlap h level NODE_WIDTH X_SPACING).1 next)%Q.
Proof.
  intros Hnd Hval.
  pose proof (sort_by_x_perm h level) as Hperm.
  pose proof (sort_by_x_sorted h level) as Hsorted.
  unfold preventOverlap.
  destruct (sort_by_x h level) as [|first rest] eqn:Hsort; simpl.
  - split; [done|]. intros i prev next Hi. done.
  - split; [done|].
    assert (Hnd' : NoDup (first :: rest)) by (by rewrite Hperm).
    assert (Hval' : ∀ r, r ∈ first :: rest → is_Some (h !! r)).
    { intros r Hr. apply Hval. by rewrite <- Hperm. }
    destruct (sweep_gap NODE_WIDTH X_SPACING h first rest Hnd' Hval') as [_ Hgap].
    intros i prev next Hi Hsi.
    split; [|exact (Sorted_adjacent _ _ _ _ _ Hgap Hi Hsi)].
    destruct (Qlt_le_dec (NODE_WIDTH + X_SPACING) 0) as [Hneg|Hpos].
    + rewrite (sweep_negative_step _ _ _ _ _ Hneg Hsorted).
      exact (Sorted_adjacent _ _ _ _ _ Hsorted Hi Hsi).
    + exact (Sorted_adjacent _ _ _ _ _
               (Sorted_gap_x_le _ _ _ _ Hpos Hgap) Hi Hsi).
Qed.

Lemma preventOverlap_spaced_witness :
  (x_of (preventOverlap sample_level sample_level_refs 120 40).1 1 + 120 + 40
     <= x_of (preventOverlap sample_level sample_level_refs 120 40).1 2)%Q.
Proof.
  assert (Hnd : NoDup sample_level_refs)
    by (apply (bool_decide_unpack _); vm_compute; exact I).
  assert (Hval : ∀ r, r ∈ sample_level_refs → is_Some (sample_level !! r)).
  { intros r Hr. unfold sample_level_refs in Hr.
    repeat (apply elem_of_cons in Hr as [->|Hr]; [by eexists|]).
    by apply elem_of_nil in Hr. }
  exact (proj2 (proj2 (preventOverlap_spaced sample_level sample_level_refs 120 40
                         Hnd Hval) 0 1 2 eq_refl eq_refl)).
Defined.

(** The sample after the call: [b], [c], [a] at [0], [160], [320]. *)
Lemma preventOverlap_sample :
  (preventOverlap sample_level sample_level_refs 120 40).2 = [1; 2; 0]
  ∧ x_of (preventOverlap sample_level sample_level_refs 120 40).1 <$> [1; 2; 0]
    = [0; 0 + 120 + 40; 0 + 120 + 40 + 120 + 40]%Q.
Proof. split; reflexivity. Qed.

(** *** Root placement *)

(** Indexed in-place updates of distinct objects: each object gets the
    update of its own index, and the others are untouched. *)
Lemma foldl_alter_imap (f : nat → PositionedTreeNode → PositionedTreeNode)
    (l : list ref) (k : nat) (h : heap) :
  NoDup l →
  (∀ i r, l !! i = Some r →
     foldl (λ h' '(j, r'), alter (f j) r' h') h (imap (λ i r', (k + i, r')) l) !! r
     = f (k + i) <$> h !! r)
  ∧ (∀ r, r ∉ l →
     foldl (λ h' '(j, r'), alter (f j) r' h') h (imap (λ i r', (k + i, r')) l) !! r
     = h !! r).
Proof.
  revert k h. induction l as [|a l IH]; intros k h Hnd.
  - split; [done|]. intros r _. done.
  - apply NoDup_cons in Hnd as [Ha Hnd].
    rewrite imap_cons. simpl.
    rewrite (imap_ext _ (λ i r', (S k + i, r'))) by (intros; simpl; f_equal; lia).
    destruct (IH (S k) (alter (f (k + 0)) a h) Hnd) as [IH1 IH2].
    split.
    + intros [|i] r Hr; simpl in Hr.
      * injection Hr as <-. rewrite IH2 by done. apply list_lookup_alter_eq.
      * rewrite (IH1 i r Hr).
        rewrite list_lookup_alter_ne.
        -- by replace (S k + i) with (k + S i) by lia.
        -- intros ->. apply Ha. by eapply list_elem_of_lookup_2.
    + intros r Hr. apply not_elem_of_cons in Hr as [Hra Hr].
      rewrite IH2 by done. by apply list_lookup_alter_ne.
Qed.

(** C5, as the code has it.  In a level of distinct node objects, the
    parentless node of index [i] among the level's parentless nodes is
    placed at [x = (totalWidth / (n + 1)) * (i + 1) - NODE_WIDTH / 2] and
    [y] the level's [y], where [n] is the number of all the nodes of the
    level, those with a parent included; the other nodes are left as
    they are. *)
Theorem positionRootNodes_spread (h : heap) (level : list ref)
    (totalWidth NODE_WIDTH y : Q) (i : nat) (r : ref) :
  NoDup level →
  parentless h level !! i = Some r →
  is_Some (h !! r) →
  x_of (positionRootNodes h level totalWidth NODE_WIDTH y) r
    = ((totalWidth / (Qnat (length level) + 1)) * (Qnat i + 1) - NODE_WIDTH / 2)%Q
  ∧ y_of (positionRootNodes h level totalWidth NODE_WIDTH y) r = y
  ∧ ∀ r', r' ∉ parentless h level →
          positionRootNodes h level totalWidth NODE_WIDTH y !! r' = h !! r'.
Proof.
  intros Hnd Hi [n Hn].
  assert (Hnd' : NoDup (parentless h level)) by (by apply NoDup_filter_bool).
  unfold positionRootNodes.
  rewrite (imap_ext _ (λ i r', (0 + i, r'))) by done.
  destruct (foldl_alter_imap
              (λ index, set_xy ((totalWidth / (Qnat (length level) + 1))
                                  * (Qnat index + 1) - NODE_WIDTH / 2)%Q y)
              (parentless h level) 0 h Hnd') as [Hin Hout].
  unfold x_of, y_of. rewrite (Hin i r Hi), Hn. simpl.
  split; [done|]. split; [done|]. exact Hout.
Qed.

Lemma positionRootNodes_spread_witness :
  x_of (positionRootNodes sample_mixed_level [1; 2] 320 120 200) 2
    = ((320 / (Qnat 2 + 1)) * (Qnat 0 + 1) - 120 / 2)%Q.
Proof.
  assert (Hnd : NoDup [1; 2]) by (apply (bool_decide_unpack _); vm_compute; exact I).
  exact (proj1 (positionRootNodes_spread sample_mixed_level [1; 2] 320 120 200 0 2
                  Hnd eq_refl (ex_intro _ _ eq_refl))).
Defined.

(** C5 as stated fails: in a level of two nodes of which one is
    parentless, that node is placed with [n = 2], at [320/3 - 60], and
    not with [n = 1], at [320/2 - 60]. *)
Lemma root_spread_claimed_fails :
  ¬ root_spread_claimed sample_mixed_level [1; 2] 320 120 200.
Proof.
  intros Hclaim. destruct (Hclaim 0 2 eq_refl) as [Hx _].
  vm_compute in Hx. discriminate Hx.
Qed.

(** *** Layout blocks *)

Lemma add_partners_placed (h : heap) (ps pre block : list ref) (used : gset string) :
  NoDup (id_of h <$> pre ++ block) →
  (∀ r, r ∈ pre ++ block → id_of h r ∈ used) →
  NoDup (id_of h <$> pre ++ (add_partners h ps (block, used)).1)
  ∧ (∀ r, r ∈ pre ++ (add_partners h ps (block, used)).1 →
          id_of h r ∈ (add_partners h ps (block, used)).2).
Proof.
  unfold add_partners.
  revert block used. induction ps as [|partner ps IH]; intros block used Hnd Hused.
  - done.
  - simpl. destruct (decide (id_of h partner ∈ used)) as [Hin|Hnin].
    + by apply IH.
    + apply IH.
      * rewrite app_assoc, fmap_app. simpl. apply NoDup_app.
        split; [done|]. split; [|apply NoDup_singleton].
        intros i Hi Hi'. apply list_elem_of_singleton in Hi' as ->.
        apply list_elem_of_fmap in Hi as (r & Hr & Hrin).
        apply Hnin. rewrite Hr. by apply Hused.
      * intros r Hr. rewrite app_assoc in Hr.
        apply elem_of_app in Hr as [Hr|Hr].
        -- apply elem_of_union_r. by apply Hused.
        -- apply list_elem_of_singleton in Hr as ->. apply elem_of_union_l.
           by apply elem_of_singleton.
Qed.

Lemma buildLayoutBlocks_step_placed (h : heap) (acc : list (list ref) * gset string)
    (child : ref) :
  placed_once h acc.1 →
  (∀ r, r ∈ concat acc.1 → id_of h r ∈ acc.2) →
  placed_once h (buildLayoutBlocks_step h acc child).1
  ∧ (∀ r, r ∈ concat (buildLayoutBlocks_step h acc child).1 →
          id_of h r ∈ (buildLayoutBlocks_step h acc child).2).
Proof.
  destruct acc as [blocks used]. unfold placed_once, buildLayoutBlocks_step. simpl.
  intros Hnd Hused.
  destruct (decide (id_of h child ∈ used)) as [Hin|Hnin]; [done|].
  destruct (add_partners_placed h (partners_of h child) (concat blocks) [child]
              ({[id_of h child]} ∪ used)) as [Hnd' Hused'].
  - rewrite fmap_app. simpl. apply NoDup_app.
    split; [done|]. split; [|apply NoDup_singleton].
    intros i Hi Hi'. apply list_elem_of_singleton in Hi' as ->.
    apply list_elem_of_fmap in Hi as (r & Hr & Hrin).
    apply Hnin. rewrite Hr. by apply Hused.
  - intros r Hr. apply elem_of_app in Hr as [Hr|Hr].
    + apply elem_of_union_r. by apply Hused.
    + apply list_elem_of_singleton in Hr as ->. apply elem_of_union_l.
      by apply elem_of_singleton.
  - destruct (add_partners h (partners_of h child) ([child], {[id_of h child]} ∪ used))
      as [block used'] eqn:Hadd.
    simpl in *. rewrite concat_app. simpl. rewrite app_nil_r. done.
Qed.

(** [buildLayoutBlocks], the utility of [layoutUtils.ts], does place
    every node id at most once. *)
Lemma buildLayoutBlocks_placed_once (h : heap) (siblings : list ref) :
  placed_once h (buildLayoutBlocks h siblings).
Proof.
  unfold buildLayoutBlocks.
  assert (Hgen : ∀ acc,
    placed_once h acc.1 → (∀ r, r ∈ concat acc.1 → id_of h r ∈ acc.2) →
    placed_once h (foldl (buildLayoutBlocks_step h) acc siblings).1).
  { induction siblings as [|child siblings IH]; intros acc Hnd Hused; [done|].
    simpl. destruct (buildLayoutBlocks_step_placed h acc child Hnd Hused).
    by apply IH. }
  apply Hgen; simpl.
  - unfold placed_once. simpl. constructor.
  - intros r Hr. by apply elem_of_nil in Hr.
Qed.

(** C4, at a sibling group [A], [B] whose members share the partner [X].
    The watcher's own block building puts [X] in both blocks, so [X] is
    placed twice and counted twice in the row width; [buildLayoutBlocks]
    on the same group puts it in the first block only. *)
Theorem watcher_blocks_duplicate_shared_partner :
  watcher_blocks sample_shared_partner sample_siblings = [[1; 3]; [2; 3]]
  ∧ ¬ placed_once sample_shared_partner (watcher_blocks sample_shared_partner sample_siblings)
  ∧ buildLayoutBlocks sample_shared_partner sample_siblings = [[1; 3]; [2]]
  ∧ calculateTotalBlocksWidth (watcher_blocks sample_shared_partner sample_siblings) 120 40
    = (calculateTotalBlocksWidth (buildLayoutBlocks sample_shared_partner sample_siblings) 120 40
       + (120 + 40))%Q.
Proof.
  assert (Hw : watcher_blocks sample_shared_partner sample_siblings = [[1; 3]; [2; 3]])
    by (vm_compute; reflexivity).
  assert (Hb : buildLayoutBlocks sample_shared_partner sample_siblings = [[1; 3]; [2]])
    by (vm_compute; reflexivity).
  split; [exact Hw|]. split; [|split; [exact Hb|]].
  - rewrite Hw. unfold placed_once. simpl. intros Hnd.
    apply NoDup_cons in Hnd as [_ Hnd]. apply NoDup_cons in Hnd as [Hx _].
    apply Hx. right. left.
  - rewrite Hw, Hb. vm_compute. reflexivity.
Qed.

(** *** The drag handler *)

Lemma find_Some_id (h : heap) (i : string) (l : list ref) (r : ref) :
  List.find (λ n, bool_decide (id_of h n = i)) l = Some r → r ∈ l ∧ id_of h r = i.
Proof.
  intros Hfind. apply find_some in Hfind as [Hin Hid].
  split; [by apply list_elem_of_In|]. by apply bool_decide_eq_true in Hid.
Qed.

(** Without a node of that id the handler does nothing. *)
Lemma handleNodePositionUpdate_unknown_id (W H : Q) (v : view) (u : NodePositionUpdate) :
  (∀ r, r ∈ PositionedTreeData.nodes v.2 → id_of v.1 r ≠ u_id u) →
  handleNodePositionUpdate W H v u = v.
Proof.
  destruct v as [h pd]. simpl. intros Hno.
  destruct (List.find _ _) as [r|] eqn:Hfind; [|done].
  apply find_Some_id in Hfind as [Hin Hid]. by destruct (Hno r Hin).
Qed.

(** C9.  When [positionedData.nodes] holds a node with the event's id,
    the first such node moves from [(x, y)] to [(x + dx, y + dy)] and
    keeps its other fields, every other node object is left as it was,
    the links become [calculateLinks] of the nodes at their new
    positions, and the node array, the width and the height are not
    touched: nothing is placed again. *)
Theorem handleNodePositionUpdate_moves_one (W H : Q) (h : heap)
    (pd : PositionedTreeData.t) (u : NodePositionUpdate) (node : ref)
    (n : PositionedTreeNode) :
  List.find (λ r, bool_decide (id_of h r = u_id u)) (PositionedTreeData.nodes pd)
    = Some node →
  h !! node = Some n →
  id n = u_id u
  ∧ (handleNodePositionUpdate W H (h, pd) u).1 !! node
    = Some (set_xy (x n + dx u) (y n + dy u) n)
  ∧ x_of (handleNodePositionUpdate W H (h, pd) u).1 node = (x_of h node + dx u)%Q
  ∧ y_of (handleNodePositionUpdate W H (h, pd) u).1 node = (y_of h node + dy u)%Q
  ∧ (∀ r, r ≠ node → (handleNodePositionUpdate W H (h, pd) u).1 !! r = h !! r)
  ∧ PositionedTreeData.links (handleNodePositionUpdate W H (h, pd) u).2
    = calculateLinks W H (handleNodePositionUpdate W H (h, pd) u).1
        (PositionedTreeData.nodes pd)
  ∧ PositionedTreeData.nodes (handleNodePositionUpdate W H (h, pd) u).2
    = PositionedTreeData.nodes pd
  ∧ PositionedTreeData.width (handleNodePositionUpdate W H (h, pd) u).2
    = PositionedTreeData.width pd
  ∧ PositionedTreeData.height (handleNodePositionUpdate W H (h, pd) u).2
    = PositionedTreeData.height pd.
Proof.
  intros Hfind Hn. unfold handleNodePositionUpdate. rewrite Hfind. simpl.
  apply find_Some_id in Hfind as [_ Hid].
  unfold id_of in Hid. rewrite Hn in Hid. simpl in Hid.
  unfold x_of, y_of. rewrite list_lookup_alter_eq, Hn. simpl.
  repeat split; try done.
  intros r Hr. by apply list_lookup_alter_ne.
Qed.

(** The drag of the specification: [(100, 200)] moved by [(15, -5)]. *)
Lemma handleNodePositionUpdate_moves_one_witness :
  x_of (handleNodePositionUpdate 120 120 sample_view (mkUpdate "n" 15 (-5) None)).1 0
    = (100 + 15)%Q
  ∧ y_of (handleNodePositionUpdate 120 120 sample_view (mkUpdate "n" 15 (-5) None)).1 0
    = (200 + -5)%Q.
Proof.
  pose proof (handleNodePositionUpdate_moves_one 120 120 sample_view.1 sample_view.2
                (mkUpdate "n" 15 (-5) None) 0 (node "n" 100 200 None [] [] None)
                eq_refl eq_refl) as (_ & _ & Hx & Hy & _).
  exact (conj Hx Hy).
Defined.

(** *** Link synthesis *)

Lemma x_le_trans (h : heap) : Transitive (x_le h).
Proof. intros a b c. unfold x_le. apply Qle_trans. Qed.

(** The first node of the sorted family is leftmost, the last one
    rightmost. *)
Lemma sort_by_x_extremes (h : heap) (children : list ref) :
  children ≠ [] →
  ∃ first last_,
    head (sort_by_x h children) = Some first
    ∧ last (sort_by_x h children) = Some last_
    ∧ first ∈ children ∧ last_ ∈ children
    ∧ ∀ c, c ∈ children → x_le h first c ∧ x_le h c last_.
Proof.
  intros Hne.
  pose proof (sort_by_x_perm h children) as Hperm.
  assert (Hss : StronglySorted (x_le h) (sort_by_x h children)).
  { apply Sorted_StronglySorted; [apply x_le_trans|apply sort_by_x_sorted]. }
  destruct (sort_by_x h children) as [|first rest] eqn:Hsort.
  { apply Permutation_nil_l in Hperm. by destruct Hne. }
  assert (Hlast : is_Some (last (first :: rest))).
  { rewrite last_is_Some. done. }
  destruct Hlast as [last_ Hlast].
  exists first, last_. split; [done|]. split; [done|].
  split; [rewrite <- Hperm; left|].
  split; [rewrite <- Hperm; by apply last_Some_elem_of|].
  intros c Hc. rewrite <- Hperm in Hc. split.
  - apply StronglySorted_inv in Hss as [_ Hall].
    apply elem_of_cons in Hc as [->|Hc]; [unfold x_le; lra|].
    by apply (proj1 (Forall_forall _ _) Hall).
  - apply last_Some in Hlast as [pre Hpre]. rewrite Hpre in Hss, Hc.
    apply elem_of_app in Hc as [Hc|Hc].
    + eapply StronglySorted_app_1_elem_of; [exact Hss|exact Hc|left].
    + apply list_elem_of_singleton in Hc as ->. unfold x_le. lra.
Qed.

(** A loop that only appends to its accumulator: the items pushed at
    turn [k] sit right after those pushed before it. *)
Lemma append_loop_extends {A B} (g : list A → B → list A) (l : list B) (acc : list A) :
  ∃ rest, foldl (λ a b, a ++ g a b) acc l = acc ++ rest.
Proof.
  revert acc. induction l as [|b l IH]; intros acc; simpl.
  - exists []. by rewrite app_nil_r.
  - destruct (IH (acc ++ g acc b)) as [rest ->].
    exists (g acc b ++ rest). by rewrite app_assoc.
Qed.

Lemma append_loop_segment {A B} (g : list A → B → list A) (l : list B) (acc : list A)
    (k : nat) (b : B) :
  l !! k = Some b →
  ∃ rest,
    foldl (λ a b, a ++ g a b) acc l
    = foldl (λ a b, a ++ g a b) acc (take k l)
      ++ g (foldl (λ a b, a ++ g a b) acc (take k l)) b ++ rest.
Proof.
  revert acc k. induction l as [|b0 l IH]; intros acc k Hk; [done|].
  destruct k as [|k]; simpl in *.
  - injection Hk as ->.
    destruct (append_loop_extends g l (acc ++ g acc b)) as [rest ->].
    exists rest. by rewrite app_assoc.
  - by apply IH.
Qed.

(** The links of the [k]-th family sit in the result right after the
    links pushed before it. *)
Lemma calculateLinks_family (W H : Q) (h : heap) (nodes : list ref) (k : nat)
    (fam : string * list ref) :
  families h nodes !! k = Some fam →
  ∃ rest,
    calculateLinks W H h nodes
    = links_before W H h nodes k
      ++ family_links W H h nodes (links_before W H h nodes k) fam ++ rest.
Proof.
  intros Hk. unfold calculateLinks, links_before.
  exact (append_loop_segment (family_links W H h nodes) _ _ k fam Hk).
Qed.

(** C3, as the code has it.  For the [k]-th family of the loop, with a
    family id other than ['super-root'], more than one child, and a
    parent centre [(px, py)], the loop pushes exactly: one vertical
    trunk from the centre down by the bus offset of 100; one horizontal
    trunk at that height from [min(px, leftmost child centre)] to
    [max(px, rightmost child centre)]; and one arrowed drop per child,
    in ascending [x], from the trunk height to the child's top-mid.  A
    family has a parent centre exactly when its id, split at ['_'], is
    one id of the node map (the centre is that parent's bottom-mid) or
    two ids of the node map (the centre is the middle of the pair's
    partner link, pushed first when it was missing): see
    [family_center]. *)
Theorem family_bus_links (W H : Q) (h : heap) (nodes : list ref) (k : nat)
    (familyId : string) (children : list ref) (pushed : list TreeLink.t) (px py : Q) :
  families h nodes !! k = Some (familyId, children) →
  familyId ≠ "super-root" →
  2 ≤ length children →
  family_center W H h nodes (links_before W H h nodes k) familyId pushed px py →
  ∃ first last_ rest,
    head (sort_by_x h children) = Some first
    ∧ last (sort_by_x h children) = Some last_
    ∧ first ∈ children ∧ last_ ∈ children
    ∧ (∀ c, c ∈ children → x_le h first c ∧ x_le h c last_)
    ∧ sort_by_x h children ≡ₚ children
    ∧ family_links W H h nodes (links_before W H h nodes k) (familyId, children)
      = pushed
        ++ [ TreeLink.mk ("bus_v_main_" +:+ familyId) px py px (py + 100) None;
             TreeLink.mk ("bus_h_" +:+ familyId)
               (Qmin px (x_of h first + W / 2)) (py + 100)
               (Qmax px (x_of h last_ + W / 2)) (py + 100) None ]
        ++ ((λ child,
               TreeLink.mk ("bus_v_child_" +:+ id_of h child)
                 (x_of h child + W / 2) (py + 100)
                 (x_of h child + W / 2) (y_of h child) (Some true))
              <$> sort_by_x h children)
    ∧ calculateLinks W H h nodes
      = links_before W H h nodes k
        ++ family_links W H h nodes (links_before W H h nodes k) (familyId, children)
        ++ rest.
Proof.
  intros Hk Hid Hlen Hcenter.
  assert (Hne : children ≠ []) by (intros ->; simpl in Hlen; lia).
  destruct (sort_by_x_extremes h children Hne)
    as (first & last_ & Hhead & Hlast & Hfirst & Hlast_in & Hext).
  destruct (calculateLinks_family W H h nodes k _ Hk) as [rest Hrest].
  exists first, last_, rest.
  split; [done|]. split; [done|]. split; [done|]. split; [done|].
  split; [done|]. split; [apply sort_by_x_perm|]. split; [|done].
  assert (Hbus : ∀ cx cy,
    bus_links W h familyId cx cy children
    = [ TreeLink.mk ("bus_v_main_" +:+ familyId) cx cy cx (cy + 100) None;
        TreeLink.mk ("bus_h_" +:+ familyId)
          (Qmin cx (x_of h first + W / 2)) (cy + 100)
          (Qmax cx (x_of h last_ + W / 2)) (cy + 100) None ]
      ++ ((λ child,
             TreeLink.mk ("bus_v_child_" +:+ id_of h child)
               (x_of h child + W / 2) (cy + 100)
               (x_of h child + W / 2) (y_of h child) (Some true))
            <$> sort_by_x h children)).
  { intros cx cy. unfold bus_links. by rewrite Hhead, Hlast. }
  assert (Heqb : String.eqb familyId "super-root" = false)
    by (by apply String.eqb_neq).
  unfold family_links. rewrite Heqb.
  destruct children as [|c1 [|c2 cs]]; simpl in Hlen; [lia|lia|].
  destruct Hcenter as [i0 parent1 Hsplit Hp1
                      |i0 i1 parent1 parent2 l Hsplit Hp1 Hp2 Hfind
                      |i0 i1 parent1 parent2 l Hsplit Hp1 Hp2 Hfind Hl];
    rewrite Hsplit; simpl; rewrite Hp1.
  - apply Hbus.
  - rewrite Hp2, Hfind. simpl. apply Hbus.
  - rewrite Hp2, Hfind. rewrite <- Hl. simpl. f_equal. apply Hbus.
Qed.

(** The scenario of the specification: two partnered parents and three
    children give one partner link and five family links. *)
Lemma calculateLinks_two_parents_three_children :
  TreeLink.id <$> calculateLinks 120 120 sample_family sample_family_nodes
  = [ "p_P1_P2"; "bus_v_main_P1_P2"; "bus_h_P1_P2";
      "bus_v_child_C1"; "bus_v_child_C2"; "bus_v_child_C3" ]
  ∧ TreeLink.hasArrow <$> calculateLinks 120 120 sample_family sample_family_nodes
    = [ None; None; None; Some true; Some true; Some true ]
  ∧ families sample_family sample_family_nodes = [("P1_P2", sample_family_children)]
  ∧ links_before 120 120 sample_family sample_family_nodes 0
    = [sample_family_partner_link].
Proof. repeat split; vm_compute; reflexivity. Qed.

Lemma family_bus_links_witness :
  length (family_links 120 120 sample_family sample_family_nodes
            (links_before 120 120 sample_family sample_family_nodes 0)
            ("P1_P2", sample_family_children)) = 5.
Proof.
  assert (Hfind :
    List.find (λ l, String.eqb (TreeLink.id l) ("p_" +:+ "P1" +:+ "_" +:+ "P2"))
              (links_before 120 120 sample_family sample_family_nodes 0)
    = Some sample_family_partner_link) by (vm_compute; reflexivity).
  assert (Hid : "P1_P2" ≠ "super-root") by discriminate.
  assert (Hlen : 2 ≤ length sample_family_children) by (simpl; lia).
  destruct (family_bus_links 120 120 sample_family sample_family_nodes 0
              "P1_P2" sample_family_children [] _ _ eq_refl Hid Hlen
              (center_pair_linked 120 120 sample_family sample_family_nodes _
                 "P1_P2" "P1" "P2" 0 1 sample_family_partner_link
                 eq_refl eq_refl eq_refl Hfind))
    as (first & last_ & rest & _ & _ & _ & _ & _ & _ & Heq & _).
  rewrite Heq. reflexivity.
Defined.

(** C3 as stated fails: with the parent far to the right of its two
    children, the horizontal trunk runs on to the parent's centre at
    [1060] and does not stop at the rightmost child's centre at [220]. *)
Lemma bus_h_spans_children_fails :
  ¬ bus_h_spans_children 120 120 sample_far_parent sample_far_parent_nodes "P"
      sample_far_parent_children.
Proof.
  intros Hclaim.
  assert (Hlinks :
    calculateLinks 120 120 sample_far_parent sample_far_parent_nodes
    = [ TreeLink.mk "bus_v_main_P" (2120 # 2) 120 (2120 # 2) 220 None;
        TreeLink.mk "bus_h_P" (120 # 2) 220 (2120 # 2) 220 None;
        TreeLink.mk "bus_v_child_A" (120 # 2) 220 (120 # 2) 200 (Some true);
        TreeLink.mk "bus_v_child_B" (440 # 2) 220 (440 # 2) 200 (Some true) ])
    by (vm_compute; reflexivity).
  destruct (Hclaim (TreeLink.mk "bus_h_P" (120 # 2) 220 (2120 # 2) 220 None) 1 2)
    as [_ Hx2].
  - rewrite Hlinks. right. left.
  - reflexivity.
  - reflexivity.
  - reflexivity.
  - vm_compute in Hx2. discriminate Hx2.
Qed.

(** A family without a parent centre, because its id does not split
    at ['_'] into one or two ids of the node map, gets no link. *)
Lemma family_links_without_center (W H : Q) (h : heap) (nodes : list ref)
    (newLinks : list TreeLink.t) (familyId : string) (children : list ref) :
  (∀ pushed px py, ¬ family_center W H h nodes newLinks familyId pushed px py) →
  family_links W H h nodes newLinks (familyId, children) = [].
Proof.
  intros Hno. unfold family_links.
  destruct (String.eqb familyId "super-root"); [done|].
  destruct (split_underscore familyId) as [|i0 [|i1 [|i2 ids]]] eqn:Hsplit; simpl.
  - done.
  - destruct (JsMap.get i0 (nodeMap h nodes)) as [parent1|] eqn:Hp1; [|done].
    destruct (Hno _ _ _ (center_single W H h nodes newLinks familyId i0 parent1
                           Hsplit Hp1)).
  - destruct (JsMap.get i0 (nodeMap h nodes)) as [parent1|] eqn:Hp1; [|done].
    destruct (JsMap.get i1 (nodeMap h nodes)) as [parent2|] eqn:Hp2; [|done].
    destruct (List.find _ newLinks) as [l|] eqn:Hfind.
    + destruct (Hno _ _ _ (center_pair_linked W H h nodes newLinks familyId i0 i1
                             parent1 parent2 l Hsplit Hp1 Hp2 Hfind)).
    + destruct (Hno _ _ _ (center_pair_unlinked W H h nodes newLinks familyId i0 i1
                             parent1 parent2 _ Hsplit Hp1 Hp2 Hfind eq_refl)).
  - by destruct (JsMap.get i0 (nodeMap h nodes)).
Qed.

(** So it is for a parent whose id holds the separator: ["john_smith"]
    is split into ["john"] and ["smith"], which name no node. *)
Lemma calculateLinks_underscore_parent :
  families sample_underscore_parent [0; 1; 2] = [("john_smith", [1; 2])]
  ∧ calculateLinks 120 120 sample_underscore_parent [0; 1; 2] = [].
Proof. split; vm_compute; reflexivity. Qed.

End EngineFacts.

(** ** The traversal *)
Module TraversalFacts.
Import Engine ListFacts.

(** *** Reads after [node.depth = depth; node.parent = parent] *)

Lemma annotate_lookup_eq (h : heap) (r : ref) (n : PositionedTreeNode) (d : nat)
    (p : option ref) :
  h !! r = Some n → <[r := annotate d p n]> h !! r = Some (annotate d p n).
Proof. intros Hn. apply list_lookup_insert_eq. by eapply lookup_lt_Some. Qed.

Lemma annotate_lookup_ne (h : heap) (r x : ref) (m : PositionedTreeNode) :
  x ≠ r → <[r := m]> h !! x = h !! x.
Proof. intros Hne. by apply list_lookup_insert_ne. Qed.

Lemma annotate_id (h : heap) (r : ref) (n : PositionedTreeNode) (d : nat)
    (p : option ref) (x : ref) :
  h !! r = Some n → id_of (<[r := annotate d p n]> h) x = id_of h x.
Proof.
  intros Hn. unfold id_of. destruct (decide (x = r)) as [->|Hne].
  - by rewrite (annotate_lookup_eq h r n d p Hn), Hn.
  - by rewrite annotate_lookup_ne.
Qed.

Lemma annotate_children (h : heap) (r : ref) (n : PositionedTreeNode) (d : nat)
    (p : option ref) (x : ref) :
  h !! r = Some n → children_of (<[r := annotate d p n]> h) x = children_of h x.
Proof.
  intros Hn. unfold children_of. destruct (decide (x = r)) as [->|Hne].
  - by rewrite (annotate_lookup_eq h r n d p Hn), Hn.
  - by rewrite annotate_lookup_ne.
Qed.

Lemma annotate_partners (h : heap) (r : ref) (n : PositionedTreeNode) (d : nat)
    (p : option ref) (x : ref) :
  h !! r = Some n → partners_of (<[r := annotate d p n]> h) x = partners_of h x.
Proof.
  intros Hn. unfold partners_of. destruct (decide (x = r)) as [->|Hne].
  - by rewrite (annotate_lookup_eq h r n d p Hn), Hn.
  - by rewrite annotate_lookup_ne.
Qed.

Lemma annotate_depth_eq (h : heap) (r : ref) (n : PositionedTreeNode) (d : nat)
    (p : option ref) :
  h !! r = Some n → depth_of (<[r := annotate d p n]> h) r = Some d.
Proof. intros Hn. unfold depth_of. by rewrite (annotate_lookup_eq h r n d p Hn). Qed.

Lemma annotate_parent_eq (h : heap) (r : ref) (n : PositionedTreeNode) (d : nat)
    (p : option ref) :
  h !! r = Some n → parent_of (<[r := annotate d p n]> h) r = p.
Proof. intros Hn. unfold parent_of. by rewrite (annotate_lookup_eq h r n d p Hn). Qed.

Lemma annotate_depth_ne (h : heap) (r x : ref) (m : PositionedTreeNode) :
  x ≠ r → depth_of (<[r := m]> h) x = depth_of h x.
Proof. intros Hne. unfold depth_of. by rewrite annotate_lookup_ne. Qed.

Lemma annotate_parent_ne (h : heap) (r x : ref) (m : PositionedTreeNode) :
  x ≠ r → parent_of (<[r := m]> h) x = parent_of h x.
Proof. intros Hne. unfold parent_of. by rewrite annotate_lookup_ne. Qed.

(** *** The loop ends *)

Lemma pending_mono (vis vis' : gset string) (h : heap) :
  vis ⊆ vis' → pending vis' h ≤ pending vis h.
Proof.
  intros Hsub. unfold pending. induction h as [|m h IH]; csimpl; [done|].
  destruct (decide (id m ∈ vis')) as [Hin'|Hnin'];
    destruct (decide (id m ∈ vis)) as [Hin|Hnin]; try lia.
  destruct Hnin'. by apply Hsub.
Qed.

Lemma pending_visit (vis : gset string) (h : heap) (r : ref) (n : PositionedTreeNode) :
  h !! r = Some n → id n ∉ vis →
  pending ({[id n]} ∪ vis) h + weight n ≤ pending vis h.
Proof.
  intros Hn Hnin. revert r Hn. unfold pending.
  induction h as [|m h IH]; intros r Hn; [done|].
  assert (Hsub : vis ⊆ {[id n]} ∪ vis) by set_solver.
  destruct r as [|r]; csimpl in *.
  - injection Hn as ->.
    rewrite decide_True by set_solver. rewrite decide_False by done.
    pose proof (pending_mono vis _ h Hsub) as Hle. unfold pending in Hle. lia.
  - specialize (IH r Hn).
    destruct (decide (id m ∈ {[id n]} ∪ vis)) as [Hin'|Hnin'];
      destruct (decide (id m ∈ vis)) as [Hin|Hnin0]; try lia.
    destruct Hnin'. by apply Hsub.
Qed.

Lemma pending_annotate (vis : gset string) (h : heap) (r : ref)
    (n : PositionedTreeNode) (d : nat) (p : option ref) :
  h !! r = Some n → pending vis (<[r := annotate d p n]> h) = pending vis h.
Proof.
  intros Hn. unfold pending. rewrite list_fmap_insert. simpl.
  rewrite list_insert_id; [done|]. by rewrite list_lookup_fmap, Hn.
Qed.

Lemma length_enqueue (h : heap) (vis : gset string) (d : nat) (p : option ref)
    (l : list ref) :
  length (enqueue h vis d p l) ≤ length l.
Proof.
  unfold enqueue. rewrite length_fmap, filter_bool. apply length_filter.
Qed.

(** Every turn on a non-empty queue uses up a turn. *)
Lemma step_turns_left (st : TState) :
  queue st ≠ [] → turns_left (step st) < turns_left st.
Proof.
  destruct st as [h ns byd vis q]. unfold turns_left, step. simpl.
  destruct q as [|e q]; [done|]. intros _.
  destruct (h !! q_node e) as [n|] eqn:Hn; simpl; [|lia].
  destruct (decide (id n ∈ vis)) as [Hin|Hnin]; simpl; [lia|].
  rewrite !length_app.
  pose proof (length_enqueue (<[q_node e := annotate (q_depth e) (q_parent e) n]> h)
                ({[id n]} ∪ vis) (S (q_depth e)) (Some (q_node e))
                (elems (children n))) as Hc.
  pose proof (length_enqueue (<[q_node e := annotate (q_depth e) (q_parent e) n]> h)
                ({[id n]} ∪ vis) (q_depth e) None (elems (partners n))) as Hp.
  rewrite (pending_annotate _ h _ n _ _ Hn).
  pose proof (pending_visit vis h _ n Hn Hnin) as Hv.
  unfold weight in Hv. lia.
Qed.

Lemma loop_returns (fuel : nat) (st : TState) :
  turns_left st ≤ fuel → is_Some (loop fuel st).
Proof.
  revert st. induction fuel as [|fuel IH]; intros st Hfuel.
  - destruct st as [h ns byd vis [|e q]]; simpl; [by eexists|].
    unfold turns_left in Hfuel. simpl in Hfuel. lia.
  - simpl. destruct (queue st) as [|e q] eqn:Hq; [by eexists|].
    apply IH.
    assert (Hne : queue st ≠ []) by (by rewrite Hq).
    pose proof (step_turns_left st Hne). lia.
Qed.

(** [traverseAndAnnotateTree] returns. *)
Lemma traverse_returns (h : heap) (root : ref) :
  is_Some (traverseAndAnnotateTree h root).
Proof.
  apply loop_returns. unfold turns_left, init. simpl. lia.
Qed.

(** *** The loop invariant *)

Lemma filter_ext_in {A} (P Q : A → Prop) `{!∀ x, Decision (P x), !∀ x, Decision (Q x)}
    (l : list A) :
  (∀ x, x ∈ l → P x ↔ Q x) → filter P l = filter Q l.
Proof.
  induction l as [|a l IH]; intros Hext; [done|].
  assert (Ha : P a ↔ Q a) by (apply Hext; left).
  assert (Hl : filter P l = filter Q l) by (apply IH; intros x Hx; apply Hext; by right).
  destruct (decide (P a)) as [HP|HP].
  - rewrite !filter_cons_True by tauto. by rewrite Hl.
  - rewrite !filter_cons_False by tauto. done.
Qed.

Lemma filter_none {A} (P : A → Prop) `{!∀ x, Decision (P x)} (l : list A) :
  (∀ x, x ∈ l → ¬ P x) → filter P l = [].
Proof.
  induction l as [|a l IH]; intros Hno; [done|].
  rewrite filter_cons_False by (apply Hno; left).
  apply IH. intros x Hx. apply Hno. by right.
Qed.

Lemma init_inv (h : heap) (root : ref) : traversal_inv root (init h root).
Proof.
  constructor; simpl.
  - constructor.
  - intros r Hr. by apply elem_of_nil in Hr.
  - intros r Hr. by apply elem_of_nil in Hr.
  - intros r Hr. by apply elem_of_nil in Hr.
  - intros d l Hl. by rewrite lookup_empty in Hl.
  - intros r p Hr. by apply elem_of_nil in Hr.
  - intros r Hr. by apply elem_of_nil in Hr.
  - intros e He. apply list_elem_of_singleton in He as ->.
    unfold entry_ok. simpl. by left.
Qed.

(** A turn that drops the head of the queue keeps the invariant. *)
Lemma drop_head_inv (root : ref) (h : heap) (ns : list ref) (byd : gmap nat (list ref))
    (vis : gset string) (e : QEntry) (q : list QEntry) :
  traversal_inv root (mkTState h ns byd vis (e :: q)) →
  traversal_inv root (mkTState h ns byd vis q).
Proof.
  intros [H1 H2 H3 H4 H5 H6 H7 H8]. constructor; simpl in *; try done.
  intros e' He'. apply (H8 e'). by right.
Qed.

(** A turn that visits a node keeps the invariant. *)
Lemma visit_inv (root : ref) (h : heap) (ns : list ref) (byd : gmap nat (list ref))
    (vis : gset string) (r : ref) (d : nat) (p : option ref) (q : list QEntry)
    (n : PositionedTreeNode) :
  traversal_inv root (mkTState h ns byd vis (mkQEntry r d p :: q)) →
  h !! r = Some n →
  id n ∉ vis →
  traversal_inv root
    (mkTState (<[r := annotate d p n]> h) (ns ++ [r])
       (<[d := default [] (byd !! d) ++ [r]]> byd) ({[id n]} ∪ vis)
       (q ++ enqueue (<[r := annotate d p n]> h) ({[id n]} ∪ vis) (S d) (Some r)
                     (elems (children n))
          ++ enqueue (<[r := annotate d p n]> h) ({[id n]} ∪ vis) d None
                     (elems (partners n)))).
Proof.
  intros [H1 H2 H3 H4 H5 H6 H7 H8] Hn Hnin. simpl in *.
  set (h' := <[r := annotate d p n]> h).
  assert (Hidr : id_of h r = id n) by (unfold id_of; by rewrite Hn).
  assert (Hr : r ∉ ns).
  { intros Hin. apply Hnin. rewrite <- Hidr. by apply H2. }
  assert (Hne : ∀ x, x ∈ ns → x ≠ r) by (intros x Hx ->; done).
  assert (Hid : ∀ x, id_of h' x = id_of h x) by (intros x; by apply annotate_id).
  assert (Hch : ∀ x, children_of h' x = children_of h x)
    by (intros x; by apply annotate_children).
  assert (Hpa : ∀ x, partners_of h' x = partners_of h x)
    by (intros x; by apply annotate_partners).
  assert (Hdr : depth_of h' r = Some d) by (by apply annotate_depth_eq).
  assert (Hpr : parent_of h' r = p) by (by apply annotate_parent_eq).
  assert (Hdx : ∀ x, x ∈ ns → depth_of h' x = depth_of h x)
    by (intros x Hx; apply annotate_depth_ne; by apply Hne).
  assert (Hpx : ∀ x, x ∈ ns → parent_of h' x = parent_of h x)
    by (intros x Hx; apply annotate_parent_ne; by apply Hne).
  assert (He : entry_ok root (mkTState h ns byd vis (mkQEntry r d p :: q))
                 (mkQEntry r d p)) by (apply H8; left).
  unfold entry_ok in He. simpl in He.
  constructor; simpl.
  - (* ids *)
    rewrite fmap_app. apply NoDup_app. split; [|split].
    + rewrite (list_fmap_ext (id_of h') (id_of h) ns) by (intros; apply Hid). done.
    + intros i Hi Hi'. apply list_elem_of_singleton in Hi' as ->.
      apply list_elem_of_fmap in Hi as (x & Hx & Hxin).
      rewrite !Hid in Hx. apply Hnin. rewrite <- Hidr, Hx. by apply H2.
    + apply NoDup_singleton.
  - (* visited *)
    intros x Hx. rewrite Hid. apply elem_of_app in Hx as [Hx|Hx].
    + apply elem_of_union_r. by apply H2.
    + apply list_elem_of_singleton in Hx as ->. rewrite Hidr.
      apply elem_of_union_l. by apply elem_of_singleton.
  - (* valid *)
    intros x Hx. apply elem_of_app in Hx as [Hx|Hx].
    + unfold h'. rewrite annotate_lookup_ne by (by apply Hne). by apply H3.
    + apply list_elem_of_singleton in Hx as ->. unfold h'.
      rewrite (annotate_lookup_eq h r n d p Hn). by eexists.
  - (* depth *)
    intros x Hx. apply elem_of_app in Hx as [Hx|Hx].
    + destruct (H4 x Hx) as (d0 & Hd0 & Hb). exists d0. rewrite Hdx by done.
      split; [done|]. apply lookup_insert_is_Some.
      destruct (decide (d = d0)); [by left|by right].
    + apply list_elem_of_singleton in Hx as ->. exists d. split; [done|].
      rewrite lookup_insert_eq. by eexists.
  - (* buckets *)
    intros d0 l Hl. rewrite filter_app.
    rewrite (filter_ext_in (λ x, depth_of h' x = Some d0) (λ x, depth_of h x = Some d0) ns)
      by (intros x Hx; by rewrite Hdx).
    destruct (decide (d = d0)) as [<-|Hdd].
    + rewrite lookup_insert_eq in Hl. injection Hl as <-.
      rewrite filter_cons_True by done. rewrite filter_nil. f_equal.
      destruct (byd !! d) as [l0|] eqn:Hb; simpl.
      * by apply H5.
      * symmetry. apply filter_none. intros x Hx Hxd.
        destruct (H4 x Hx) as (d1 & Hd1 & [l1 Hl1]).
        rewrite Hxd in Hd1. injection Hd1 as <-. congruence.
    + rewrite lookup_insert_ne in Hl by done.
      rewrite filter_cons_False by (rewrite Hdr; congruence).
      rewrite filter_nil, app_nil_r. by apply H5.
  - (* parents *)
    intros x p0 Hx Hp0. apply elem_of_app in Hx as [Hx|Hx].
    + rewrite Hpx in Hp0 by done.
      destruct (H6 x p0 Hx Hp0) as (Hp0in & Hxch & d0 & Hd0 & Hdx0).
      split; [apply elem_of_app; by left|]. split; [by rewrite Hch|].
      exists d0. by rewrite !Hdx.
    + apply list_elem_of_singleton in Hx as ->. rewrite Hpr in Hp0.
      rewrite Hp0 in He.
      destruct He as (Hp0in & Hrch & d0 & Hd0 & ->).
      split; [apply elem_of_app; by left|]. split; [by rewrite Hch|].
      exists d0. by rewrite Hdx, Hdr.
  - (* partners *)
    intros x Hx Hnone. apply elem_of_app in Hx as [Hx|Hx].
    + rewrite Hpx in Hnone by done.
      destruct (H7 x Hx Hnone) as [[-> Hd0]|(q0 & Hq0 & Hxp & Hdq)].
      * left. by rewrite Hdx.
      * right. exists q0. split; [apply elem_of_app; by left|].
        split; [by rewrite Hpa|]. by rewrite !Hdx.
    + apply list_elem_of_singleton in Hx as ->. rewrite Hpr in Hnone.
      rewrite Hnone in He.
      destruct He as [[-> ->]|(q0 & Hq0 & Hrp & Hdq)].
      * by left.
      * right. exists q0. split; [apply elem_of_app; by left|].
        split; [by rewrite Hpa|]. by rewrite Hdx, Hdr.
  - (* queue *)
    intros e' He'. unfold entry_ok. simpl.
    apply elem_of_app in He' as [He'|He'].
    + specialize (H8 e' (list_elem_of_further _ _ _ He')).
      unfold entry_ok in H8. simpl in H8.
      destruct (q_parent e') as [p0|].
      * destruct H8 as (Hp0in & Hch0 & d0 & Hd0 & Hqd).
        split; [apply elem_of_app; by left|]. split; [by rewrite Hch|].
        exists d0. by rewrite Hdx.
      * destruct H8 as [H8|(q0 & Hq0 & Hpq & Hdq)]; [by left|].
        right. exists q0. split; [apply elem_of_app; by left|].
        split; [by rewrite Hpa|]. by rewrite Hdx.
    + apply elem_of_app in He' as [He'|He']; unfold enqueue in He';
        apply list_elem_of_fmap in He' as (c & -> & Hc);
        apply elem_of_filter_bool in Hc as [_ Hc]; simpl.
      * split; [apply elem_of_app; right; by apply list_elem_of_singleton|].
        split; [|by exists d].
        rewrite Hch. unfold children_of. by rewrite Hn.
      * right. exists r.
        split; [apply elem_of_app; right; by apply list_elem_of_singleton|].
        split; [|done].
        rewrite Hpa. unfold partners_of. by rewrite Hn.
Qed.

Lemma step_inv (root : ref) (st : TState) :
  traversal_inv root st → traversal_inv root (step st).
Proof.
  intros Hinv. destruct st as [h ns byd vis q]. unfold step. simpl.
  destruct q as [|[r d p] q]; [done|]. simpl.
  destruct (h !! r) as [n|] eqn:Hn.
  - destruct (decide (id n ∈ vis)) as [Hin|Hnin].
    + by eapply drop_head_inv.
    + by apply visit_inv.
  - by eapply drop_head_inv.
Qed.

Lemma loop_inv (root : ref) (fuel : nat) (st st' : TState) :
  traversal_inv root st → loop fuel st = Some st' →
  traversal_inv root st' ∧ queue st' = [].
Proof.
  revert st. induction fuel as [|fuel IH]; intros st Hinv Hloop; simpl in Hloop.
  - destruct (queue st) eqn:Hq; [|done]. by injection Hloop as <-.
  - destruct (queue st) eqn:Hq.
    + by injection Hloop as <-.
    + eapply IH; [|exact Hloop]. by apply step_inv.
Qed.

(** The sample: the root and its partner at depth 0, the child at
    depth 1 with the root as parent; the child's own edge back to the
    root is not followed. *)
Lemma traverse_sample :
  ∃ st, traverseAndAnnotateTree sample_tree 0 = Some st
    ∧ nodes st = [0; 1; 2]
    ∧ nodesByDepth st !! 0 = Some [0; 2]
    ∧ nodesByDepth st !! 1 = Some [1]
    ∧ (λ r, (depth_of (t_heap st) r, parent_of (t_heap st) r)) <$> [0; 1; 2]
      = [(Some 0, None); (Some 1, Some 0); (Some 0, None)].
Proof. eexists. split; [vm_compute; reflexivity|]. repeat split. Qed.

(** *** Nothing is forgotten *)

Lemma same_defined (h0 h : heap) (r : ref) :
  unannotated <$> h !! r = unannotated <$> h0 !! r →
  (is_Some (h !! r) ↔ is_Some (h0 !! r)).
Proof.
  intros Heq. destruct (h !! r), (h0 !! r); simpl in Heq; try done.
  all: split; intros [? ?]; done.
Qed.

Lemma init_closed (h : heap) (root : ref) : traversal_closed h root (init h root).
Proof.
  constructor; simpl; try done.
  - intros i. split; [set_solver|]. intros (r & Hr & _). by apply elem_of_nil in Hr.
  - intros _. by left.
  - intros r c Hr. by apply elem_of_nil in Hr.
Qed.

(** A turn that drops the head of the queue. *)
Lemma drop_head_closed (h0 : heap) (root : ref) (h : heap) (ns : list ref)
    (byd : gmap nat (list ref)) (vis : gset string) (e : QEntry) (q : list QEntry) :
  traversal_closed h0 root (mkTState h ns byd vis (e :: q)) →
  (h !! q_node e = None ∨ id_of h (q_node e) ∈ vis) →
  traversal_closed h0 root (mkTState h ns byd vis q).
Proof.
  intros [Hsame Hframe Hvis Hroot Hnear] Hdrop. simpl in *.
  constructor; simpl; try done.
  - intros Hr. destruct (Hroot Hr) as [[-> Hq]|Hright]; [|by right].
    exfalso. injection Hq as -> ->. simpl in Hdrop. destruct Hdrop as [Hnone|Hin].
    + apply (same_defined h0 h root (Hsame root)) in Hr. rewrite Hnone in Hr.
      by destruct Hr.
    + apply Hvis in Hin as (r & Hin & _). by apply elem_of_nil in Hin.
  - intros r c Hr Hc Hvalid. destruct (Hnear r c Hr Hc Hvalid) as [Hin|(e' & He' & Hq)];
      [by left|].
    apply elem_of_cons in He' as [->|He']; [|right; by exists e'].
    left. destruct Hdrop as [Hnone|Hin]; [|by rewrite <- Hq].
    apply (same_defined h0 h c (Hsame c)) in Hvalid. rewrite <- Hq, Hnone in Hvalid.
    by destruct Hvalid.
Qed.

Lemma elem_of_enqueue (h : heap) (vis : gset string) (d : nat) (p : option ref)
    (l : list ref) (c : ref) :
  c ∈ l → id_of h c ∈ vis ∨ ∃ e, e ∈ enqueue h vis d p l ∧ q_node e = c.
Proof.
  intros Hc. destruct (decide (id_of h c ∈ vis)) as [Hin|Hnin]; [by left|right].
  exists (mkQEntry c d p). split; [|done]. unfold enqueue.
  apply list_elem_of_fmap. exists c. split; [done|].
  apply elem_of_filter_bool. split; [|done]. by apply bool_decide_eq_true.
Qed.

(** A turn that visits the head of the queue. *)
Lemma visit_closed (h0 : heap) (root : ref) (h : heap) (ns : list ref)
    (byd : gmap nat (list ref)) (vis : gset string) (r : ref) (d : nat)
    (p : option ref) (q : list QEntry) (n : PositionedTreeNode) :
  traversal_closed h0 root (mkTState h ns byd vis (mkQEntry r d p :: q)) →
  h !! r = Some n → id n ∉ vis →
  traversal_closed h0 root
    (mkTState (<[r := annotate d p n]> h) (ns ++ [r])
       (<[d := default [] (byd !! d) ++ [r]]> byd) ({[id n]} ∪ vis)
       (q ++ enqueue (<[r := annotate d p n]> h) ({[id n]} ∪ vis) (S d) (Some r)
                     (elems (children n))
          ++ enqueue (<[r := annotate d p n]> h) ({[id n]} ∪ vis) d None
               (elems (partners n)))).
Proof.
  intros [Hsame Hframe Hvis Hroot Hnear] Hn Hnin. simpl in *.
  assert (Hid : ∀ x, id_of (<[r := annotate d p n]> h) x = id_of h x)
    by (intros x; by apply annotate_id).
  assert (Hidr : id_of h r = id n) by (unfold id_of; by rewrite Hn).
  constructor; simpl.
  - intros x. destruct (decide (x = r)) as [->|Hne].
    + rewrite (annotate_lookup_eq h r n d p Hn). rewrite <- Hsame, Hn. done.
    + rewrite annotate_lookup_ne by done. apply Hsame.
  - intros x Hx. apply not_elem_of_app in Hx as [Hx Hxr].
    rewrite annotate_lookup_ne; [by apply Hframe|].
    intros ->. apply Hxr. left.
  - intros i. rewrite elem_of_union, elem_of_singleton, Hvis. split.
    + intros [->|(x & Hx & Hxi)].
      * exists r. split; [apply elem_of_app; right; left|]. by rewrite Hid.
      * exists x. split; [apply elem_of_app; by left|]. by rewrite Hid.
    + intros (x & Hx & Hxi). rewrite Hid in Hxi.
      apply elem_of_app in Hx as [Hx|Hx].
      * right. by exists x.
      * apply list_elem_of_singleton in Hx as ->. left. by rewrite <- Hxi.
  - intros Hr. right. destruct (Hroot Hr) as [[-> Hq]|[Hhead Hdepth]].
    + injection Hq as -> -> -> ->. split; [done|]. by apply annotate_depth_eq.
    + split.
      * destruct ns as [|a ns]; [done|]. done.
      * rewrite annotate_depth_ne; [done|]. intros ->.
        apply Hnin. apply Hvis. exists r. split; [|done].
        destruct ns as [|a ns]; [done|]. injection Hhead as ->. left.
  - intros x c Hx Hc Hvalid.
    rewrite annotate_children, annotate_partners in Hc by done.
    rewrite Hid. apply elem_of_app in Hx as [Hx|Hx].
    + destruct (Hnear x c Hx Hc Hvalid) as [Hin|(e & He & Hq)].
      * left. set_solver.
      * apply elem_of_cons in He as [->|He].
        -- left. simpl in Hq. subst c. rewrite Hidr. set_solver.
        -- right. exists e. split; [|done]. apply elem_of_app. by left.
    + apply list_elem_of_singleton in Hx as ->.
      unfold children_of, partners_of in Hc. rewrite Hn in Hc. simpl in Hc.
      apply elem_of_app in Hc as [Hc|Hc].
      * destruct (elem_of_enqueue (<[r := annotate d p n]> h) ({[id n]} ∪ vis) (S d)
                    (Some r) _ c Hc) as [Hin|(e & He & Hq)].
        -- left. by rewrite <- Hid.
        -- right. exists e. split; [|done].
           apply elem_of_app. right. apply elem_of_app. by left.
      * destruct (elem_of_enqueue (<[r := annotate d p n]> h) ({[id n]} ∪ vis) d
                    None _ c Hc) as [Hin|(e & He & Hq)].
        -- left. by rewrite <- Hid.
        -- right. exists e. split; [|done].
           apply elem_of_app. right. apply elem_of_app. by right.
Qed.

Lemma step_closed (h0 : heap) (root : ref) (st : TState) :
  traversal_closed h0 root st → traversal_closed h0 root (step st).
Proof.
  intros Hinv. destruct st as [h ns byd vis q]. unfold step. simpl.
  destruct q as [|[r d p] q]; [done|]. simpl.
  destruct (h !! r) as [n|] eqn:Hn.
  - destruct (decide (id n ∈ vis)) as [Hin|Hnin].
    + eapply drop_head_closed; [done|]. right. simpl. unfold id_of. by rewrite Hn.
    + by apply visit_closed.
  - eapply drop_head_closed; [done|]. by left.
Qed.

Lemma loop_closed (h0 : heap) (root : ref) (fuel : nat) (st st' : TState) :
  traversal_closed h0 root st → loop fuel st = Some st' →
  traversal_closed h0 root st' ∧ queue st' = [].
Proof.
  revert st. induction fuel as [|fuel IH]; intros st Hinv Hloop; simpl in Hloop.
  - destruct (queue st) eqn:Hq; [|done]. by injection Hloop as <-.
  - destruct (queue st) eqn:Hq.
    + by injection Hloop as <-.
    + eapply IH; [|exact Hloop]. by apply step_closed.
Qed.

(** C1.  [traverseAndAnnotateTree] returns, and in its result: every
    node is once in the flat list; it has one depth, is in the bucket of
    that depth, once, and in no other bucket, and the buckets hold only
    listed nodes; a node with a recorded parent is a child of that
    parent, which is listed, and lies one level below it; and a node
    without a recorded parent, other than the root, is a partner of a
    listed node of its own depth.  The result is not empty and leaves
    nothing out: a root that is an object is the first listed node, at
    depth 0 and without a recorded parent; the listed nodes carry
    pairwise distinct ids; the [children] and [partners] arrays and the
    ids are those the traversal was given; and for every child and every
    partner of a listed node there is a listed node with the same id,
    so that every id reachable from the root has its one depth. *)
Theorem traverse_depths (h : heap) (root : ref) :
  ∃ st,
    traverseAndAnnotateTree h root = Some st
    ∧ NoDup (nodes st)
    ∧ (∀ r, r ∈ nodes st →
         ∃ d, depth_of (t_heap st) r = Some d
              ∧ (∃ l, nodesByDepth st !! d = Some l ∧ r ∈ l)
              ∧ (∀ d' l', nodesByDepth st !! d' = Some l' → r ∈ l' → d' = d))
    ∧ (∀ d l, nodesByDepth st !! d = Some l →
         NoDup l ∧ ∀ r, r ∈ l → r ∈ nodes st)
    ∧ (∀ r p, r ∈ nodes st → parent_of (t_heap st) r = Some p →
         p ∈ nodes st ∧ r ∈ children_of (t_heap st) p
         ∧ ∃ d, depth_of (t_heap st) p = Some d
                ∧ depth_of (t_heap st) r = Some (S d))
    ∧ (∀ r, r ∈ nodes st → parent_of (t_heap st) r = None → r ≠ root →
         ∃ q, q ∈ nodes st ∧ r ∈ partners_of (t_heap st) q
              ∧ depth_of (t_heap st) q = depth_of (t_heap st) r)
    ∧ (is_Some (h !! root) →
         head (nodes st) = Some root
         ∧ depth_of (t_heap st) root = Some 0
         ∧ parent_of (t_heap st) root = None)
    ∧ NoDup (id_of (t_heap st) <$> nodes st)
    ∧ (∀ r, id_of (t_heap st) r = id_of h r
            ∧ children_of (t_heap st) r = children_of h r
            ∧ partners_of (t_heap st) r = partners_of h r)
    ∧ (∀ r c, r ∈ nodes st →
         c ∈ children_of h r ++ partners_of h r →
         is_Some (h !! c) →
         ∃ r' d, r' ∈ nodes st ∧ id_of h r' = id_of h c
                 ∧ depth_of (t_heap st) r' = Some d).
Proof.
  destruct (traverse_returns h root) as [st Hst]. exists st.
  split; [done|].
  destruct (loop_inv root _ _ _ (init_inv h root) Hst)
    as [[H1 H2 H3 H4 H5 H6 H7 H8] _].
  destruct (loop_closed h root _ _ _ (init_closed h root) Hst)
    as [[Hsame Hframe Hvis Hroot Hnear] Hq].
  assert (Hnd : NoDup (nodes st)) by (by eapply NoDup_fmap_1).
  assert (Hreads : ∀ r, id_of (t_heap st) r = id_of h r
                        ∧ children_of (t_heap st) r = children_of h r
                        ∧ partners_of (t_heap st) r = partners_of h r).
  { intros r. specialize (Hsame r). unfold id_of, children_of, partners_of.
    destruct (t_heap st !! r) as [n|], (h !! r) as [m|]; simpl in *; try done.
    unfold unannotated in Hsame. injection Hsame as -> _ _ _ -> -> _. done. }
  split; [done|]. split; [|split; [|split; [|split; [|split; [|split; [|split]]]]]].
  - intros r Hr. destruct (H4 r Hr) as (d & Hd & [l Hl]). exists d.
    split; [done|]. split.
    + exists l. split; [done|]. rewrite (H5 d l Hl).
      by apply list_elem_of_filter.
    + intros d' l' Hl' Hrl'. rewrite (H5 d' l' Hl') in Hrl'.
      apply list_elem_of_filter in Hrl' as [Hd' _]. congruence.
  - intros d l Hl. rewrite (H5 d l Hl). split.
    + by apply NoDup_filter.
    + intros r Hr. by apply list_elem_of_filter in Hr as [_ Hr].
  - exact H6.
  - intros r Hr Hnone Hroot'.
    destruct (H7 r Hr Hnone) as [[-> _]|Hq']; [done|exact Hq'].
  - intros Hr. destruct (Hroot Hr) as [[_ Hq']|[Hhead Hdepth]].
    { rewrite Hq in Hq'. done. }
    split; [done|]. split; [done|].
    assert (Hin : root ∈ nodes st).
    { destruct (nodes st) as [|a l]; [done|]. injection Hhead as ->. left. }
    destruct (parent_of (t_heap st) root) as [p|] eqn:Hp; [|done].
    destruct (H6 root p Hin Hp) as (_ & _ & d & _ & Hd). congruence.
  - exact H1.
  - exact Hreads.
  - intros r c Hr Hc Hvalid.
    destruct (Hreads r) as (_ & Hch & Hpa). rewrite <- Hch, <- Hpa in Hc.
    destruct (Hnear r c Hr Hc Hvalid) as [Hin|(e & He & _)].
    + apply Hvis in Hin as (r' & Hr' & Hid).
      destruct (H4 r' Hr') as (d & Hd & _).
      exists r', d. split; [done|]. split; [|done].
      destruct (Hreads r') as (<- & _). destruct (Hreads c) as (<- & _). done.
    + rewrite Hq in He. by apply elem_of_nil in He.
Qed.

(** X26.  The traversal forgets nothing and writes nothing else: in
    the result of [traverseAndAnnotateTree], a root that is an object is
    the first listed node and has depth 0; for every child and partner
    of a listed node there is a listed node with the same id; every
    object keeps its id, label, position, arrays and co-parent id, only
    [depth] and [parent] being written; and an object that is not listed
    is not written at all. *)
Theorem traverse_closed (h : heap) (root : ref) :
  ∃ st,
    traverseAndAnnotateTree h root = Some st
    ∧ (is_Some (h !! root) →
       head (nodes st) = Some root ∧ depth_of (t_heap st) root = Some 0)
    ∧ (∀ r c, r ∈ nodes st →
         c ∈ children_of (t_heap st) r ++ partners_of (t_heap st) r →
         is_Some (h !! c) →
         ∃ r', r' ∈ nodes st ∧ id_of (t_heap st) r' = id_of (t_heap st) c)
    ∧ (∀ r, unannotated <$> t_heap st !! r = unannotated <$> h !! r)
    ∧ (∀ r, r ∉ nodes st → t_heap st !! r = h !! r).
Proof.
  destruct (traverse_returns h root) as [st Hst]. exists st.
  split; [done|].
  destruct (loop_closed h root _ _ _ (init_closed h root) Hst)
    as [[Hsame Hframe Hvis Hroot Hnear] Hq].
  split; [|split; [|split]]; try done.
  - intros Hr. destruct (Hroot Hr) as [[_ Hq']|Hright]; [|done].
    rewrite Hq in Hq'. done.
  - intros r c Hr Hc Hvalid.
    destruct (Hnear r c Hr Hc Hvalid) as [Hin|(e & He & _)].
    + by apply Hvis.
    + rewrite Hq in He. by apply elem_of_nil in He.
Qed.

End TraversalFacts.

(** ** The clone *)
Module CloneFacts.
Import Clone.

Lemma unseen_mono (src : list object) (s s' : gmap loc loc) :
  s ⊆ s' → size (unseen src s') ≤ size (unseen src s).
Proof.
  intros Hsub. apply subseteq_size. unfold unseen.
  assert (dom s ⊆ dom s') by (by apply subseteq_dom). set_solver.
Qed.

Lemma unseen_insert (src : list object) (s : gmap loc loc) (l l' : loc) :
  is_Some (src !! l) → s !! l = None →
  size (unseen src (<[l := l']> s)) < size (unseen src s).
Proof.
  intros Hl Hnone. apply subset_size. unfold unseen. rewrite dom_insert_L.
  assert (Hin : l ∈ (list_to_set (seq 0 (length src)) : gset loc)).
  { apply elem_of_list_to_set, elem_of_seq. apply lookup_lt_is_Some in Hl. lia. }
  assert (Hdom : l ∉ dom s) by (by apply not_elem_of_dom).
  set_solver.
Qed.

Lemma unseen_empty (src : list object) : size (unseen src ∅) ≤ length src.
Proof.
  unfold unseen. rewrite dom_empty_L, difference_empty_L.
  rewrite size_list_to_set by apply NoDup_seq. by rewrite length_seq.
Qed.

Lemma unseen_pos (src : list object) (s : gmap loc loc) (l : loc) :
  is_Some (src !! l) → s !! l = None → 0 < size (unseen src s).
Proof.
  intros Hl Hnone. pose proof (unseen_insert src s l 0 Hl Hnone). lia.
Qed.

Section Inv.
Variable src : list object.
Variable skipKeys : list string.

Lemma empty_inv : clone_inv src skipKeys (mkCState ∅ []).
Proof.
  constructor; simpl.
  - intros l l' Hl. by rewrite lookup_empty in Hl.
  - intros l1 l2 l' Hl. by rewrite lookup_empty in Hl.
  - intros l' Hl'. lia.
  - intros l' kvs k Hl'. by rewrite lookup_nil in Hl'.
Qed.

(** Opening a new object: its copy [fresh], an empty array or object,
    is allocated and recorded in [seen]. *)
Lemma alloc_inv (st : CState) (l : loc) (fresh : object) :
  clone_inv src skipKeys st →
  is_Some (src !! l) → seen st !! l = None →
  fresh = Arr [] ∨ fresh = Obj [] →
  clone_inv src skipKeys
    (mkCState (<[l := length (out st)]> (seen st)) (out st ++ [fresh])).
Proof.
  intros [H1 H2 H3 H4] Hl Hnone Hfresh. constructor; simpl.
  - intros m m' Hm. rewrite length_app. simpl.
    destruct (decide (l = m)) as [<-|Hne].
    + rewrite lookup_insert_eq in Hm. injection Hm as <-. split; [done|lia].
    + rewrite lookup_insert_ne in Hm by done.
      destruct (H1 m m' Hm). split; [done|lia].
  - intros m1 m2 m' Hm1 Hm2.
    destruct (decide (l = m1)) as [<-|Hne1], (decide (l = m2)) as [<-|Hne2];
      [done|..].
    + rewrite lookup_insert_eq in Hm1. injection Hm1 as <-.
      rewrite lookup_insert_ne in Hm2 by done. destruct (H1 _ _ Hm2). lia.
    + rewrite lookup_insert_eq in Hm2. injection Hm2 as <-.
      rewrite lookup_insert_ne in Hm1 by done. destruct (H1 _ _ Hm1). lia.
    + rewrite lookup_insert_ne in Hm1, Hm2 by done. by eapply H2.
  - intros m'. rewrite length_app. simpl. intros Hm'.
    destruct (decide (m' = length (out st))) as [->|Hne].
    + exists l. by rewrite lookup_insert_eq.
    + destruct (H3 m') as [m Hm]; [lia|]. exists m.
      rewrite lookup_insert_ne; [done|]. intros <-. congruence.
  - intros m' kvs k Hm' Hk.
    destruct (decide (m' < length (out st))) as [Hlt|Hge].
    + rewrite lookup_app_l in Hm' by done. by eapply H4.
    + rewrite lookup_app_r in Hm' by lia.
      destruct (m' - length (out st)) as [|i]; simpl in Hm'; [|done].
      injection Hm' as ->. destruct Hfresh as [Hf|Hf]; [done|].
      injection Hf as ->. by apply elem_of_nil in Hk.
Qed.

(** [arr.push(v)] on a copy keeps the invariant. *)
Lemma push_inv (st : CState) (l' : loc) (v : value) :
  clone_inv src skipKeys st →
  clone_inv src skipKeys (mkCState (seen st) (push l' v (out st))).
Proof.
  intros [H1 H2 H3 H4]. unfold push. constructor; simpl.
  - intros m m' Hm. rewrite length_alter. by apply H1.
  - exact H2.
  - intros m'. rewrite length_alter. by apply H3.
  - intros m' kvs k Hm' Hk.
    destruct (decide (l' = m')) as [<-|Hne].
    + rewrite list_lookup_alter_eq in Hm'.
      destruct (out st !! l') as [[vs|kvs0]|] eqn:Ho; simpl in Hm'; try done.
      injection Hm' as <-. by eapply H4.
    + rewrite list_lookup_alter_ne in Hm' by done. by eapply H4.
Qed.

Lemma set_fst_subseteq {V} (k : string) (v : V) (m : list (string * V)) (k' : string) :
  k' ∈ (JsMap.set k v m).*1 → k' = k ∨ k' ∈ m.*1.
Proof.
  induction m as [|[k0 v0] m IH]; simpl.
  - intros Hk'. apply list_elem_of_singleton in Hk'. by left.
  - destruct (decide (k0 = k)) as [->|Hne]; simpl.
    + intros Hk'. by right.
    + intros Hk'. apply elem_of_cons in Hk' as [->|Hk'].
      * right. left.
      * destruct (IH Hk') as [->|Hin]; [by left|]. right. by right.
Qed.

(** [result[key] = v] on a copy keeps the invariant when [key] is not
    a skipped key. *)
Lemma set_key_inv (st : CState) (l' : loc) (key : string) (v : value) :
  clone_inv src skipKeys st → key ∉ skipKeys →
  clone_inv src skipKeys (mkCState (seen st) (set_key l' key v (out st))).
Proof.
  intros [H1 H2 H3 H4] Hkey. unfold set_key. constructor; simpl.
  - intros m m' Hm. rewrite length_alter. by apply H1.
  - exact H2.
  - intros m'. rewrite length_alter. by apply H3.
  - intros m' kvs k Hm' Hk.
    destruct (decide (l' = m')) as [<-|Hne].
    + rewrite list_lookup_alter_eq in Hm'.
      destruct (out st !! l') as [[vs|kvs0]|] eqn:Ho; simpl in Hm'; try done.
      injection Hm' as <-.
      apply set_fst_subseteq in Hk as [->|Hk]; [done|]. by eapply H4.
    + rewrite list_lookup_alter_ne in Hm' by done. by eapply H4.
Qed.

(** *** Copies stay what they are while [seen] grows *)

Lemma has_copy_mono (s s' : gmap loc loc) (v : value) :
  s ⊆ s' → has_copy src s v → has_copy src s' v.
Proof.
  intros Hsub. destruct v as [p|l]; simpl; [done|].
  intros Hs Hsrc. destruct (Hs Hsrc) as [l' Hl'].
  exists l'. by eapply lookup_weaken.
Qed.

Lemma copy_value_stable (s s' : gmap loc loc) (v : value) :
  (∀ l l', s' !! l = Some l' → is_Some (src !! l)) →
  s ⊆ s' → has_copy src s v → copy_value s v = copy_value s' v.
Proof.
  intros Hvalid Hsub. destruct v as [p|l]; simpl; [done|]. intros Hcopy.
  destruct (s !! l) as [l'|] eqn:Hl.
  - by rewrite (lookup_weaken _ _ _ _ Hl Hsub).
  - destruct (s' !! l) as [l'|] eqn:Hl'; [|done].
    destruct (Hcopy (Hvalid l l' Hl')) as [x Hx]. congruence.
Qed.

Lemma copy_values_stable (s s' : gmap loc loc) (vs : list value) :
  (∀ l l', s' !! l = Some l' → is_Some (src !! l)) →
  s ⊆ s' → Forall (has_copy src s) vs →
  copy_value s <$> vs = copy_value s' <$> vs.
Proof.
  intros Hvalid Hsub Hall. induction Hall as [|v vs Hv Hall IH]; [done|].
  rewrite !fmap_cons, IH. f_equal. by apply copy_value_stable.
Qed.

Lemma followed_snoc (done_ : list (string * value)) (key : string) (v : value) :
  followed skipKeys (Obj (done_ ++ [(key, v)]))
  = followed skipKeys (Obj done_)
    ++ (if bool_decide (key ∈ skipKeys) then [] else [v]).
Proof.
  unfold followed. rewrite filter_app, fmap_app. f_equal.
  rewrite filter_cons, filter_nil. simpl.
  destruct (decide (key ∉ skipKeys)) as [Hk|Hk].
  - by rewrite bool_decide_eq_false_2.
  - rewrite bool_decide_eq_true_2; [done|]. by apply dec_stable.
Qed.

Lemma copy_fields_snoc (s : gmap loc loc) (done_ : list (string * value))
    (key : string) (v : value) :
  copy_fields skipKeys s (done_ ++ [(key, v)])
  = if bool_decide (key ∈ skipKeys) then copy_fields skipKeys s done_
    else JsMap.set key (copy_value s v) (copy_fields skipKeys s done_).
Proof. unfold copy_fields. by rewrite foldl_app. Qed.

Lemma copy_fields_stable (s s' : gmap loc loc) (kvs : list (string * value)) :
  (∀ l l', s' !! l = Some l' → is_Some (src !! l)) →
  s ⊆ s' → Forall (has_copy src s) (followed skipKeys (Obj kvs)) →
  copy_fields skipKeys s kvs = copy_fields skipKeys s' kvs.
Proof.
  intros Hvalid Hsub. induction kvs as [|[key v] kvs IH] using rev_ind; [done|].
  rewrite followed_snoc, !copy_fields_snoc. intros Hall.
  apply Forall_app in Hall as [Hall Hv].
  rewrite (IH Hall). destruct (bool_decide (key ∈ skipKeys)); [done|].
  f_equal. apply copy_value_stable; [done|done|].
  exact (proj1 (Forall_singleton _ _) Hv).
Qed.

Lemma copy_object_stable (s s' : gmap loc loc) (ob : object) :
  (∀ l l', s' !! l = Some l' → is_Some (src !! l)) →
  s ⊆ s' → Forall (has_copy src s) (followed skipKeys ob) →
  copy_object skipKeys s ob = copy_object skipKeys s' ob.
Proof.
  intros Hvalid Hsub Hall. destruct ob as [vs|kvs]; simpl; f_equal.
  - by apply copy_values_stable.
  - by apply copy_fields_stable.
Qed.

(** A complete copy stays complete when [seen] grows and the copy is
    not written. *)
Lemma copied_stable (s s' : gmap loc loc) (o o' : list object) (l : loc) :
  (∀ m m', s' !! m = Some m' → is_Some (src !! m)) →
  s ⊆ s' → is_Some (s !! l) →
  (∀ l', s !! l = Some l' → o' !! l' = o !! l') →
  copied src skipKeys s o l → copied src skipKeys s' o' l.
Proof.
  intros Hvalid Hsub [l0 Hl0] Hframe Hcopied ob l' Hsrc Hl'.
  rewrite (lookup_weaken _ _ _ _ Hl0 Hsub) in Hl'. injection Hl' as <-.
  destruct (Hcopied ob l0 Hsrc Hl0) as [Hout Hall]. split.
  - rewrite (Hframe l0 Hl0), Hout. f_equal. by apply copy_object_stable.
  - eapply Forall_impl; [exact Hall|]. intros v. by apply has_copy_mono.
Qed.

(** Writing into the copy of an open object leaves the complete copies
    complete. *)
Lemma all_copied_write (open : gset loc) (st : CState) (l l' : loc)
    (f : object → object) :
  clone_inv src skipKeys st →
  seen st !! l = Some l' → l ∈ open →
  all_copied src skipKeys open st →
  all_copied src skipKeys open (mkCState (seen st) (alter f l' (out st))).
Proof.
  intros Hinv Hl Hopen Hall m Hm Hmo. simpl in *.
  intros ob m' Hsrc Hm'. destruct (Hall m Hm Hmo ob m' Hsrc Hm') as [Hout Hfol].
  split; [|done]. rewrite list_lookup_alter_ne; [done|].
  intros <-. apply Hmo. by rewrite (ci_inj _ _ _ Hinv m l l' Hm' Hl).
Qed.

(** Opening an object keeps the complete copies complete. *)
Lemma all_copied_alloc (open : gset loc) (st : CState) (l : loc) (fresh : object) :
  clone_inv src skipKeys st →
  is_Some (src !! l) → seen st !! l = None →
  fresh = Arr [] ∨ fresh = Obj [] →
  all_copied src skipKeys open st →
  all_copied src skipKeys ({[l]} ∪ open)
    (mkCState (<[l := length (out st)]> (seen st)) (out st ++ [fresh])).
Proof.
  intros Hinv Hl Hnone Hfresh Hall m Hm Hmo. simpl in *.
  assert (Hml : m ≠ l) by set_solver.
  rewrite lookup_insert_ne in Hm by done.
  pose proof (alloc_inv st l fresh Hinv Hl Hnone Hfresh) as Hinv0.
  eapply copied_stable; [| |exact Hm| |apply Hall; [done|set_solver]].
  - intros x x' Hx. by destruct (ci_seen _ _ _ Hinv0 x x' Hx).
  - by apply insert_subseteq.
  - intros m' Hm'. apply lookup_app_l. by destruct (ci_seen _ _ _ Hinv m m' Hm').
Qed.

(** *** The loops *)

(** The loop over the elements of an array, after the elements [done_]. *)
Lemma array_loop (cl : value → CState → option (value * CState)) (bound : nat)
    (l l' : loc) (open : gset loc) (todo done_ : list value) (st : CState) :
  call_ok src skipKeys cl bound →
  l ∈ open →
  clone_inv src skipKeys st →
  size (unseen src (seen st)) ≤ bound →
  all_copied src skipKeys open st →
  seen st !! l = Some l' →
  out st !! l' = Some (Arr (copy_value (seen st) <$> done_)) →
  Forall (has_copy src (seen st)) done_ →
  ∃ st',
    foldl (λ acc v,
             st1 ← acc;
             '(v', st2) ← cl v st1;
             Some (mkCState (seen st2) (push l' v' (out st2))))
          (Some st) todo = Some st'
    ∧ clone_inv src skipKeys st'
    ∧ seen st ⊆ seen st'
    ∧ length (out st) ≤ length (out st')
    ∧ (∀ x, x < length (out st) → x ≠ l' → out st' !! x = out st !! x)
    ∧ out st' !! l' = Some (Arr (copy_value (seen st') <$> done_ ++ todo))
    ∧ Forall (has_copy src (seen st')) (done_ ++ todo)
    ∧ all_copied src skipKeys open st'.
Proof.
  intros Hcl Hopen. revert done_ st.
  induction todo as [|v todo IH]; intros done_ st Hinv Hsize Hall Hl Hout Hdone.
  - exists st. rewrite app_nil_r. simpl.
    split; [done|]. split; [done|]. split; [done|]. split; [lia|]. done.
  - simpl.
    destruct (Hcl v st open Hinv Hsize Hall)
      as (v' & st2 & -> & Hinv2 & Hsub & Hlen & Hframe & -> & Hv & Hall2).
    simpl.
    assert (Hvalid2 : ∀ m m', seen st2 !! m = Some m' → is_Some (src !! m)).
    { intros m m' Hm. by destruct (ci_seen _ _ _ Hinv2 m m' Hm). }
    assert (Hl2 : seen st2 !! l = Some l') by (by eapply lookup_weaken).
    assert (Hlt : l' < length (out st)) by (by destruct (ci_seen _ _ _ Hinv l l' Hl)).
    destruct (IH (done_ ++ [v]) (mkCState (seen st2) (push l' (copy_value (seen st2) v)
                                                       (out st2))))
      as (st' & -> & Hinv' & Hsub' & Hlen' & Hframe' & Hout' & Hdone' & Hall').
    + by apply push_inv.
    + simpl. pose proof (unseen_mono src _ _ Hsub). lia.
    + unfold push. by apply (all_copied_write open st2 l l').
    + done.
    + simpl. unfold push. rewrite list_lookup_alter_eq, (Hframe l' Hlt), Hout. simpl.
      rewrite fmap_app. simpl.
      by rewrite (copy_values_stable (seen st) (seen st2) done_ Hvalid2 Hsub Hdone).
    + simpl. apply Forall_app. split.
      * eapply Forall_impl; [exact Hdone|]. intros w. by apply has_copy_mono.
      * by apply Forall_singleton.
    + simpl in *. unfold push in *. rewrite length_alter in *.
      exists st'. split; [done|]. split; [done|]. split; [by etrans|].
      split; [lia|]. rewrite <- app_assoc in Hout', Hdone'. simpl in *.
      split; [|done].
      intros x Hx Hxl. rewrite Hframe' by (done || lia).
      rewrite list_lookup_alter_ne by done. by apply Hframe.
Qed.

(** The loop over the keys of an object, after the fields [done_]. *)
Lemma object_loop (cl : value → CState → option (value * CState)) (bound : nat)
    (l l' : loc) (open : gset loc) (todo done_ : list (string * value)) (st : CState) :
  call_ok src skipKeys cl bound →
  l ∈ open →
  clone_inv src skipKeys st →
  size (unseen src (seen st)) ≤ bound →
  all_copied src skipKeys open st →
  seen st !! l = Some l' →
  out st !! l' = Some (Obj (copy_fields skipKeys (seen st) done_)) →
  Forall (has_copy src (seen st)) (followed skipKeys (Obj done_)) →
  ∃ st',
    foldl (λ acc '(key, v),
             st1 ← acc;
             if bool_decide (key ∈ skipKeys) then Some st1
             else
               '(v', st2) ← cl v st1;
               Some (mkCState (seen st2) (set_key l' key v' (out st2))))
          (Some st) todo = Some st'
    ∧ clone_inv src skipKeys st'
    ∧ seen st ⊆ seen st'
    ∧ length (out st) ≤ length (out st')
    ∧ (∀ x, x < length (out st) → x ≠ l' → out st' !! x = out st !! x)
    ∧ out st' !! l' = Some (Obj (copy_fields skipKeys (seen st') (done_ ++ todo)))
    ∧ Forall (has_copy src (seen st')) (followed skipKeys (Obj (done_ ++ todo)))
    ∧ all_copied src skipKeys open st'.
Proof.
  intros Hcl Hopen. revert done_ st.
  induction todo as [|[key v] todo IH]; intros done_ st Hinv Hsize Hall Hl Hout Hdone.
  - exists st. rewrite app_nil_r. simpl.
    split; [done|]. split; [done|]. split; [done|]. split; [lia|]. done.
  - simpl. destruct (bool_decide (key ∈ skipKeys)) eqn:Hskip.
    + destruct (IH (done_ ++ [(key, v)]) st)
        as (st' & -> & Hinv' & Hsub' & Hlen' & Hframe' & Hout' & Hdone' & Hall');
        try done.
      * by rewrite copy_fields_snoc, Hskip.
      * rewrite followed_snoc, Hskip. by rewrite app_nil_r.
      * exists st'. rewrite <- app_assoc in Hout', Hdone'. done.
    + destruct (Hcl v st open Hinv Hsize Hall)
        as (v' & st2 & -> & Hinv2 & Hsub & Hlen & Hframe & -> & Hv & Hall2).
      simpl.
      assert (Hvalid2 : ∀ m m', seen st2 !! m = Some m' → is_Some (src !! m)).
      { intros m m' Hm. by destruct (ci_seen _ _ _ Hinv2 m m' Hm). }
      assert (Hl2 : seen st2 !! l = Some l') by (by eapply lookup_weaken).
      assert (Hlt : l' < length (out st)) by (by destruct (ci_seen _ _ _ Hinv l l' Hl)).
      destruct (IH (done_ ++ [(key, v)])
                  (mkCState (seen st2) (set_key l' key (copy_value (seen st2) v)
                                                (out st2))))
        as (st' & -> & Hinv' & Hsub' & Hlen' & Hframe' & Hout' & Hdone' & Hall').
      * apply set_key_inv; [done|]. by apply bool_decide_eq_false in Hskip.
      * simpl. pose proof (unseen_mono src _ _ Hsub). lia.
      * unfold set_key. by apply (all_copied_write open st2 l l').
      * done.
      * simpl. unfold set_key.
        rewrite list_lookup_alter_eq, (Hframe l' Hlt), Hout. simpl.
        rewrite copy_fields_snoc, Hskip.
        by rewrite (copy_fields_stable (seen st) (seen st2) done_ Hvalid2 Hsub Hdone).
      * cbn [seen]. rewrite followed_snoc, Hskip. apply Forall_app. split.
        -- eapply Forall_impl; [exact Hdone|]. intros w. by apply has_copy_mono.
        -- by apply Forall_singleton.
      * simpl in *. unfold set_key in *. rewrite length_alter in *.
        exists st'. split; [done|]. split; [done|]. split; [by etrans|].
        split; [lia|]. rewrite <- app_assoc in Hout', Hdone'. simpl in *.
        split; [|done].
        intros x Hx Hxl. rewrite Hframe' by (done || lia).
        rewrite list_lookup_alter_ne by done. by apply Hframe.
Qed.

(** A call that returns in the state it was given. *)
Ltac same_state :=
  split; [done|]; split; [done|]; split; [done|]; split; [lia|]; split; [done|].

(** A call that has opened the object [l], with copy at the end of
    [out], and has run its loop to [st']. *)
Lemma close_object (open : gset loc) (st st' : CState) (l : loc) (ob : object) :
  clone_inv src skipKeys st →
  src !! l = Some ob → seen st !! l = None →
  clone_inv src skipKeys st' →
  <[l := length (out st)]> (seen st) ⊆ seen st' →
  S (length (out st)) ≤ length (out st') →
  (∀ x, x < S (length (out st)) → x ≠ length (out st) →
        out st' !! x = (out st ++ [match ob with Arr _ => Arr [] | Obj _ => Obj [] end]) !! x) →
  out st' !! length (out st) = Some (copy_object skipKeys (seen st') ob) →
  Forall (has_copy src (seen st')) (followed skipKeys ob) →
  all_copied src skipKeys ({[l]} ∪ open) st' →
  clone_inv src skipKeys st'
  ∧ seen st ⊆ seen st'
  ∧ length (out st) ≤ length (out st')
  ∧ (∀ x, x < length (out st) → out st' !! x = out st !! x)
  ∧ Ref (length (out st)) = copy_value (seen st') (Ref l)
  ∧ has_copy src (seen st') (Ref l)
  ∧ all_copied src skipKeys open st'.
Proof.
  intros Hinv Hsrc Hseen Hinv' Hsub Hlen Hframe Hout Hfol Hall.
  assert (Hl' : seen st' !! l = Some (length (out st))).
  { eapply lookup_weaken; [|exact Hsub]. by rewrite lookup_insert_eq. }
  split; [done|]. split; [|split; [lia|split; [|split; [|split]]]].
  - etrans; [|exact Hsub]. by apply insert_subseteq.
  - intros x Hx. rewrite Hframe by lia. by apply lookup_app_l.
  - simpl. by rewrite Hl'.
  - simpl. intros _. by eexists.
  - intros m Hm Hmo. destruct (decide (m = l)) as [->|Hml].
    + intros ob' m' Hsrc' Hm'. rewrite Hsrc in Hsrc'. injection Hsrc' as <-.
      rewrite Hl' in Hm'. injection Hm' as <-. done.
    + apply Hall; [done|set_solver].
Qed.

(** [clone] returns whenever its fuel covers the objects without a
    copy. *)
Lemma clone_ok (fuel : nat) : call_ok src skipKeys (clone src skipKeys fuel) fuel.
Proof.
  induction fuel as [|fuel IH]; intros item st open Hinv Hsize Hall.
  - destruct item as [p|l]; simpl.
    + exists (Prim p), st. same_state. done.
    + destruct (seen st !! l) as [l'|] eqn:Hseen.
      * exists (Ref l'), st. same_state. simpl. rewrite ?Hseen.
        split; [done|]. split; [|done]. intros _. by eexists.
      * destruct (src !! l) as [ob|] eqn:Hsrc.
        -- pose proof (unseen_pos src (seen st) l (mk_is_Some _ _ Hsrc) Hseen). lia.
        -- exists (Prim PUndefined), st. same_state. simpl. rewrite ?Hseen, ?Hsrc.
           split; [done|]. split; [|done]. by intros [? ?].
  - destruct item as [p|l]; simpl.
    + exists (Prim p), st. same_state. done.
    + destruct (seen st !! l) as [l'|] eqn:Hseen.
      * exists (Ref l'), st. same_state. simpl. rewrite ?Hseen.
        split; [done|]. split; [|done]. intros _. by eexists.
      * destruct (src !! l) as [ob|] eqn:Hsrc.
        2: { exists (Prim PUndefined), st. same_state. simpl. rewrite ?Hseen, ?Hsrc.
             split; [done|]. split; [|done]. by intros [? ?]. }
        assert (Hl : is_Some (src !! l)) by (by eexists).
        pose proof (unseen_insert src (seen st) l (length (out st)) Hl Hseen) as Hless.
        destruct ob as [vs|kvs].
        -- destruct (array_loop (clone src skipKeys fuel) fuel l (length (out st))
                       ({[l]} ∪ open) vs []
                       (mkCState (<[l := length (out st)]> (seen st))
                                 (out st ++ [Arr []])))
             as (st' & -> & Hinv' & Hsub' & Hlen' & Hframe' & Hout' & Hfol' & Hall');
             simpl in *.
           ++ exact IH.
           ++ set_solver.
           ++ apply alloc_inv; auto.
           ++ lia.
           ++ apply all_copied_alloc; auto.
           ++ by rewrite lookup_insert_eq.
           ++ by rewrite lookup_app_r, Nat.sub_diag by done.
           ++ constructor.
           ++ exists (Ref (length (out st))), st'. split; [done|].
              rewrite length_app in Hlen', Hframe'. simpl in Hlen', Hframe'.
              pose proof (close_object open st st' l (Arr vs)) as Hclose.
              simpl in Hclose. rewrite ?Hsrc in Hclose.
              apply Hclose; try done; try lia.
              intros x Hx Hxl. apply Hframe'; [lia|done].
        -- destruct (object_loop (clone src skipKeys fuel) fuel l (length (out st))
                       ({[l]} ∪ open) kvs []
                       (mkCState (<[l := length (out st)]> (seen st))
                                 (out st ++ [Obj []])))
             as (st' & -> & Hinv' & Hsub' & Hlen' & Hframe' & Hout' & Hfol' & Hall');
             simpl in *.
           ++ exact IH.
           ++ set_solver.
           ++ apply alloc_inv; auto.
           ++ lia.
           ++ apply all_copied_alloc; auto.
           ++ by rewrite lookup_insert_eq.
           ++ by rewrite lookup_app_r, Nat.sub_diag by done.
           ++ constructor.
           ++ exists (Ref (length (out st))), st'. split; [done|].
              rewrite length_app in Hlen', Hframe'. simpl in Hlen', Hframe'.
              pose proof (close_object open st st' l (Obj kvs)) as Hclose.
              simpl in Hclose. rewrite ?Hsrc in Hclose.
              apply Hclose; try done; try lia.
              intros x Hx Hxl. apply Hframe'; [lia|done].
Qed.

End Inv.

(** An object met again is answered from [seen]: the call returns the
    copy made the first time and changes nothing. *)
Lemma clone_seen (src : list object) (skipKeys : list string) (fuel : nat)
    (l l' : loc) (st : CState) :
  seen st !! l = Some l' →
  clone src skipKeys fuel (Ref l) st = Some (Ref l', st).
Proof. intros Hseen. destruct fuel; simpl; by rewrite Hseen. Qed.

(** C7.  On every object graph, cyclic ones included,
    [cloneTreeWithoutCycles] returns.  A primitive is returned as it is
    and an object as its copy.  Every source object that was met has
    exactly one copy, distinct objects have distinct copies and every
    copy is the copy of a source object, so nothing is copied twice.
    The copy of an object is its image: its elements, and its fields
    but for the keys of [skipKeys] ([['parent']] by default), with every
    reference replaced by the one copy of the object it referred to,
    an ancestor's included.  An object met again is answered with the
    copy made the first time, and the state is left as it is. *)
Theorem cloneTreeWithoutCycles_returns (src : list object) (skipKeys : list string)
    (obj : value) :
  ∃ v st,
    cloneTreeWithoutCycles src skipKeys obj = Some (v, st)
    ∧ returned src obj v st
    ∧ (∀ l l', seen st !! l = Some l' → is_Some (src !! l) ∧ is_Some (out st !! l'))
    ∧ (∀ l1 l2 l', seen st !! l1 = Some l' → seen st !! l2 = Some l' → l1 = l2)
    ∧ (∀ l', is_Some (out st !! l') → ∃ l, seen st !! l = Some l')
    ∧ (∀ l l' ob, seen st !! l = Some l' → src !! l = Some ob →
         out st !! l' = Some (copy_object skipKeys (seen st) ob)
         ∧ Forall (has_copy src (seen st)) (followed skipKeys ob))
    ∧ (∀ l' kvs k, out st !! l' = Some (Obj kvs) → k ∈ skipKeys → k ∉ kvs.*1)
    ∧ (∀ fuel l l' st0, seen st0 !! l = Some l' →
         clone src skipKeys fuel (Ref l) st0 = Some (Ref l', st0)).
Proof.
  destruct (clone_ok src skipKeys (length src) obj (mkCState ∅ []) ∅)
    as (v & st & Hclone & [H1 H2 H3 H4] & _ & _ & _ & Hv & Hcopy & Hall).
  - apply empty_inv.
  - apply unseen_empty.
  - intros l [l' Hl]. simpl in Hl. by rewrite lookup_empty in Hl.
  - exists v, st. split; [exact Hclone|]. split.
    { unfold returned. destruct obj as [p|l]; simpl in *; [done|].
      destruct (src !! l) as [ob|] eqn:Hsrc.
      - destruct Hcopy as [l' Hl']; [by eexists|]. exists l'. by rewrite Hv, Hl'.
      - destruct (seen st !! l) as [l'|] eqn:Hl'; [|done].
        destruct (H1 l l' Hl') as [[ob Hob] _]. congruence. }
    split; [|split; [exact H2|split; [|split; [|split]]]].
    + intros l l' Hl. destruct (H1 l l' Hl) as [Hsrc Hlt].
      split; [done|]. by apply lookup_lt_is_Some.
    + intros l' Hl'. apply H3. by apply lookup_lt_is_Some.
    + intros l l' ob Hl Hsrc. apply (Hall l); [by eexists|set_solver|done|done].
    + intros l' kvs k Hl' Hk Hin. by apply (H4 l' kvs k Hl' Hin).
    + intros fuel l l' st0. apply clone_seen.
Qed.

(** The cyclic sample, cloned from [a]: the copy of [b]'s children
    array holds the copy of [a] itself, and neither copy has a
    [parent] key. *)
Lemma clone_sample_cycle :
  ∃ st, cloneTreeWithoutCycles sample_cycle ["parent"] (Ref 1) = Some (Ref 0, st)
    ∧ out st
      = [ Obj [("id", Prim (PString "a")); ("children", Ref 1)];
          Arr [Ref 2];
          Obj [("id", Prim (PString "b")); ("children", Ref 3)];
          Arr [Ref 0] ]
    ∧ (λ l, seen st !! l) <$> [1; 0; 3; 2] = [Some 0; Some 1; Some 2; Some 3].
Proof. eexists. split; [vm_compute; reflexivity|]. split; reflexivity. Qed.

End CloneFacts.

(** ** The rest of the placement *)
Module LayoutFacts.
Import Engine ListFacts EngineFacts.

(** *** Counts as numbers *)



Lemma Qnat_nonneg (n : nat) : (0 <= Qnat n)%Q.
Proof. unfold Qnat. change 0%Q with (inject_Z 0). rewrite <- Zle_Qle. lia. Qed.

(** *** The width of a row of blocks *)




(** *** A row of blocks *)






(** *** The nearest pair of anchors *)

(** The scan for the closest pair, from a pair already taken. *)
Lemma nearest_from (l : list (point * point)) (b : point * point) :
  ∃ b',
    foldl (λ '(minDistance, optimalPoints) '(pA, pB),
             let distance := distance2 pA pB in
             match minDistance with
             | None => (Some distance, (pA, pB))
             | Some m =>
                 if Qlt_le_dec distance m then (Some distance, (pA, pB))
                 else (minDistance, optimalPoints)
             end)
          (Some (distance2 b.1 b.2), b) l
    = (Some (distance2 b'.1 b'.2), b')
    ∧ b' ∈ b :: l
    ∧ ∀ p, p ∈ b :: l → (distance2 b'.1 b'.2 <= distance2 p.1 p.2)%Q.
Proof.
  revert b. induction l as [|[pA pB] l IH]; intros b.
  - exists b. split; [done|]. split; [left|].
    intros p Hp. apply list_elem_of_singleton in Hp as ->. lra.
  - cbn [foldl]. destruct b as [bA bB]. cbn [fst snd].
    destruct (Qlt_le_dec (distance2 pA pB) (distance2 bA bB)) as [Hlt|Hle].
    + destruct (IH (pA, pB)) as (b' & Heq & Hin & Hmin). cbn [fst snd] in *.
      exists b'. split; [done|]. split; [by right|].
      intros p Hp. apply elem_of_cons in Hp as [->|Hp]; [|by apply Hmin].
      cbn [fst snd]. pose proof (Hmin (pA, pB) (list_elem_of_here _ _)) as Hb.
      cbn [fst snd] in Hb. lra.
    + destruct (IH (bA, bB)) as (b' & Heq & Hin & Hmin). cbn [fst snd] in *.
      exists b'. split; [done|]. split.
      * apply elem_of_cons in Hin as [->|Hin]; [left|right; by right].
      * intros p Hp. apply elem_of_cons in Hp as [->|Hp]; [by apply Hmin; left|].
        apply elem_of_cons in Hp as [->|Hp].
        -- cbn [fst snd]. pose proof (Hmin (bA, bB) (list_elem_of_here _ _)) as Hb.
           cbn [fst snd] in Hb. lra.
        -- apply Hmin. by right.
Qed.

(** X4.  For nodes at integer coordinates of at most [2^20] in size
    and even integer node sizes up to [2^20], where the distances are
    computed without rounding or overflow, [getOptimalConnectionPoints]
    returns a pair of anchor points, one of each node, and no other of
    the sixteen pairs is closer. *)
Theorem getOptimalConnectionPoints_nearest (NODE_WIDTH NODE_HEIGHT : Q) (h : heap)
    (nodeA nodeB : ref) :
  small_even_size NODE_WIDTH →
  small_even_size NODE_HEIGHT →
  small_int (x_of h nodeA) → small_int (y_of h nodeA) →
  small_int (x_of h nodeB) → small_int (y_of h nodeB) →
  (getOptimalConnectionPoints NODE_WIDTH NODE_HEIGHT h nodeA nodeB).1
    ∈ anchors NODE_WIDTH NODE_HEIGHT h nodeA
  ∧ (getOptimalConnectionPoints NODE_WIDTH NODE_HEIGHT h nodeA nodeB).2
      ∈ anchors NODE_WIDTH NODE_HEIGHT h nodeB
  ∧ ∀ qA qB,
      qA ∈ anchors NODE_WIDTH NODE_HEIGHT h nodeA →
      qB ∈ anchors NODE_WIDTH NODE_HEIGHT h nodeB →
      (distance2
         (getOptimalConnectionPoints NODE_WIDTH NODE_HEIGHT h nodeA nodeB).1
         (getOptimalConnectionPoints NODE_WIDTH NODE_HEIGHT h nodeA nodeB).2
       <= distance2 qA qB)%Q.
Proof.
  intros _ _ _ _ _ _.
  unfold getOptimalConnectionPoints.
  set (pointsA := anchors NODE_WIDTH NODE_HEIGHT h nodeA).
  set (pointsB := anchors NODE_WIDTH NODE_HEIGHT h nodeB).
  destruct (list_prod pointsA pointsB) as [|[pA pB] l] eqn:Hprod.
  { discriminate Hprod. }
  cbn [foldl].
  destruct (nearest_from l (pA, pB)) as (b' & Heq & Hin & Hmin).
  cbn [fst snd] in Heq. rewrite Heq. cbn [snd].
  rewrite <- Hprod in Hin, Hmin.
  apply list_elem_of_In in Hin. destruct b' as [bA bB].
  apply in_prod_iff in Hin as [HA HB]. cbn [fst snd] in *.
  split; [by apply list_elem_of_In|]. split; [by apply list_elem_of_In|].
  intros qA qB HqA HqB.
  apply (Hmin (qA, qB)). apply list_elem_of_In, in_prod_iff.
  split; by apply list_elem_of_In.
Qed.

(** The partnered parents of the sample, 160 apart: the right-mid of
    the one and the left-mid of the other, 40 apart. *)
Lemma getOptimalConnectionPoints_nearest_witness :
  (getOptimalConnectionPoints 120 120 sample_two_trees 0 1).1
    ∈ anchors 120 120 sample_two_trees 0
  ∧ (getOptimalConnectionPoints 120 120 sample_two_trees 0 1).2
      ∈ anchors 120 120 sample_two_trees 1
  ∧ ∀ qA qB,
      qA ∈ anchors 120 120 sample_two_trees 0 →
      qB ∈ anchors 120 120 sample_two_trees 1 →
      (distance2 (getOptimalConnectionPoints 120 120 sample_two_trees 0 1).1
                 (getOptimalConnectionPoints 120 120 sample_two_trees 0 1).2
       <= distance2 qA qB)%Q.
Proof.
  apply (getOptimalConnectionPoints_nearest 120 120 sample_two_trees 0 1).
  - exists 60%Z. split; [reflexivity|lia].
  - exists 60%Z. split; [reflexivity|lia].
  - exists 0%Z. split; [reflexivity|lia].
  - exists 0%Z. split; [reflexivity|lia].
  - exists 160%Z. split; [reflexivity|lia].
  - exists 0%Z. split; [reflexivity|lia].
Defined.

(** *** [preventOverlap], once more *)

Lemma set_x_same (n : PositionedTreeNode) : set_x (x n) n = n.
Proof. by destruct n. Qed.

(** The sweep writes nothing outside the nodes it walks over. *)
Lemma sweep_frame (W G : Q) (h : heap) (prev : ref) (rest : list ref) (r : ref) :
  r ∉ rest → sweep W G h prev rest !! r = h !! r.
Proof.
  revert h prev. induction rest as [|curr rest IH]; intros h prev Hr; [done|].
  apply not_elem_of_cons in Hr as [Hne Hr]. simpl.
  rewrite IH by done.
  destruct (Qlt_le_dec _ _); [|done]. by apply lookup_alter_other.
Qed.

(** Whatever the sweep writes to a node is a larger [x]. *)
Lemma sweep_pushes (W G : Q) (h : heap) (prev : ref) (rest : list ref) (r : ref)
    (n : PositionedTreeNode) :
  h !! r = Some n →
  ∃ vx, sweep W G h prev rest !! r = Some (set_x vx n) ∧ (x n <= vx)%Q.
Proof.
  revert h prev n. induction rest as [|curr rest IH]; intros h prev n Hn.
  - exists (x n). rewrite set_x_same. split; [done|lra].
  - simpl. destruct (Qlt_le_dec (x_of h curr) (x_of h prev + W + G)) as [Hlt|Hle];
      [|by apply IH].
    destruct (decide (curr = r)) as [->|Hne].
    + destruct (IH (alter (set_x (x_of h prev + W + G)%Q) r h) r
                  (set_x (x_of h prev + W + G)%Q n)) as (vx & Hres & Hvx).
      { by rewrite list_lookup_alter_eq, Hn. }
      exists vx. split; [done|]. simpl in Hvx.
      unfold x_of in Hlt at 1. rewrite Hn in Hlt. simpl in Hlt. lra.
    + apply IH. by rewrite lookup_alter_other.
Qed.

(** X5.  [preventOverlap] only ever pushes nodes to the right: a node
    keeps all its fields but [x], which does not decrease; a node that
    is not in the level is not written; and among distinct nodes the
    leftmost one stays where it is. *)
Theorem preventOverlap_pushes_right (h : heap) (level : list ref)
    (NODE_WIDTH X_SPACING : Q) (r : ref) (n : PositionedTreeNode) :
  h !! r = Some n →
  (∃ vx, (preventOverlap h level NODE_WIDTH X_SPACING).1 !! r = Some (set_x vx n)
         ∧ (x n <= vx)%Q)
  ∧ (r ∉ level → (preventOverlap h level NODE_WIDTH X_SPACING).1 !! r = Some n)
  ∧ (NoDup level →
     head (preventOverlap h level NODE_WIDTH X_SPACING).2 = Some r →
     (preventOverlap h level NODE_WIDTH X_SPACING).1 !! r = Some n).
Proof.
  intros Hn. pose proof (sort_by_x_perm h level) as Hperm.
  unfold preventOverlap.
  destruct (sort_by_x h level) as [|first rest] eqn:Hsort; cbn [fst snd].
  - split; [|done]. exists (x n). rewrite set_x_same. split; [done|lra].
  - split; [by apply sweep_pushes|]. split.
    + intros Hr. rewrite sweep_frame; [done|].
      intros Hin. apply Hr. rewrite <- Hperm. by right.
    + intros Hnd [= ->]. rewrite sweep_frame; [done|].
      rewrite <- Hperm in Hnd. by apply NoDup_cons in Hnd as [? _].
Qed.

Lemma preventOverlap_pushes_right_witness :
  ∃ vx, (preventOverlap sample_level sample_level_refs 120 40).1 !! 2
        = Some (set_x vx (node "c" 100 200 None [] [] None))
        ∧ (100 <= vx)%Q.
Proof.
  exact (proj1 (preventOverlap_pushes_right sample_level sample_level_refs 120 40 2
                  (node "c" 100 200 None [] [] None) eq_refl)).
Defined.

(** An array in ascending order is left as it is by the sort. *)
Lemma sort_by_x_id (h : heap) (l : list ref) :
  Sorted (x_le h) l → sort_by_x h l = l.
Proof.
  induction 1 as [|a l Hs IH Hhd]; [done|].
  unfold sort_by_x in *. cbn [foldr]. rewrite IH.
  destruct Hhd as [|b l' Hab]; [done|]. simpl.
  unfold x_le in Hab. destruct (Qlt_le_dec (x_of h b) (x_of h a)); [lra|done].
Qed.

(** A row that is spaced already is left as it is by the sweep. *)
Lemma sweep_id (W G : Q) (h : heap) (prev : ref) (rest : list ref) :
  Sorted (gap_ok W G h) (prev :: rest) → sweep W G h prev rest = h.
Proof.
  revert prev. induction rest as [|curr rest IH]; intros prev Hs; [done|].
  apply Sorted_inv in Hs as [Hs Hhd]. apply HdRel_inv in Hhd. unfold gap_ok in Hhd.
  simpl. destruct (Qlt_le_dec (x_of h curr) (x_of h prev + W + G)); [lra|].
  by apply IH.
Qed.

(** X6.  [preventOverlap] is idempotent on a level of distinct nodes: a
    second call on the level it has just spaced moves no node and
    leaves the array in the same order. *)
Theorem preventOverlap_idempotent (h : heap) (level : list ref)
    (NODE_WIDTH X_SPACING : Q) :
  NoDup level →
  (∀ r, r ∈ level → is_Some (h !! r)) →
  preventOverlap (preventOverlap h level NODE_WIDTH X_SPACING).1
                 (preventOverlap h level NODE_WIDTH X_SPACING).2
                 NODE_WIDTH X_SPACING
  = preventOverlap h level NODE_WIDTH X_SPACING.
Proof.
  intros Hnd Hval.
  pose proof (sort_by_x_perm h level) as Hperm.
  pose proof (sort_by_x_sorted h level) as Hsorted.
  unfold preventOverlap at 2 3 4.
  destruct (sort_by_x h level) as [|first rest] eqn:Hsort; cbn [fst snd]; [done|].
  assert (Hnd' : NoDup (first :: rest)) by (by rewrite Hperm).
  assert (Hval' : ∀ r, r ∈ first :: rest → is_Some (h !! r)).
  { intros r Hr. apply Hval. by rewrite <- Hperm. }
  destruct (sweep_gap NODE_WIDTH X_SPACING h first rest Hnd' Hval') as [_ Hgap].
  assert (Hx : Sorted (x_le (sweep NODE_WIDTH X_SPACING h first rest)) (first :: rest)).
  { destruct (Qlt_le_dec (NODE_WIDTH + X_SPACING) 0) as [Hneg|Hpos].
    - by rewrite (sweep_negative_step _ _ _ _ _ Hneg Hsorted).
    - by apply (Sorted_gap_x_le NODE_WIDTH X_SPACING). }
  unfold preventOverlap. rewrite (sort_by_x_id _ _ Hx).
  by rewrite (sweep_id _ _ _ _ _ Hgap).
Qed.

Lemma preventOverlap_idempotent_witness :
  preventOverlap (preventOverlap sample_level sample_level_refs 120 40).1
                 (preventOverlap sample_level sample_level_refs 120 40).2 120 40
  = preventOverlap sample_level sample_level_refs 120 40.
Proof.
  assert (Hnd : NoDup sample_level_refs)
    by (apply (bool_decide_unpack _); vm_compute; exact I).
  assert (Hval : ∀ r, r ∈ sample_level_refs → is_Some (sample_level !! r)).
  { intros r Hr. unfold sample_level_refs in Hr.
    repeat (apply elem_of_cons in Hr as [->|Hr]; [by eexists|]).
    by apply elem_of_nil in Hr. }
  exact (preventOverlap_idempotent sample_level sample_level_refs 120 40 Hnd Hval).
Defined.

(** *** Successive drags *)

Lemma id_of_alter_set_xy (h : heap) (r r' : ref) (f g : PositionedTreeNode → Q) :
  id_of (alter (λ n, set_xy (f n) (g n) n) r h) r' = id_of h r'.
Proof.
  unfold id_of. destruct (decide (r = r')) as [->|Hne].
  - rewrite list_lookup_alter_eq. by destruct (h !! r').
  - by rewrite lookup_alter_other.
Qed.

Lemma find_pointwise {A} (f g : A → bool) (l : list A) :
  (∀ a, f a = g a) → List.find f l = List.find g l.
Proof.
  intros Hfg. induction l as [|a l IH]; simpl; [done|].
  by rewrite Hfg, IH.
Qed.

(** X7.  Drags accumulate: the handler keeps ids, so a second event for
    the same id finds the same node and moves it from where the first
    one left it; after both the node is at
    [(x + dx1 + dx2, y + dy1 + dy2)], every other node is as before, the
    links are those of the final positions, and the node array and the
    canvas size are still the ones of the layout. *)
Theorem handleNodePositionUpdate_accumulates (W H : Q) (h : heap)
    (pd : PositionedTreeData.t) (u1 u2 : NodePositionUpdate) (node : ref)
    (n : PositionedTreeNode) :
  List.find (λ r, bool_decide (id_of h r = u_id u1)) (PositionedTreeData.nodes pd)
    = Some node →
  h !! node = Some n →
  u_id u2 = u_id u1 →
  (handleNodePositionUpdate W H (handleNodePositionUpdate W H (h, pd) u1) u2).1 !! node
    = Some (set_xy (x n + dx u1 + dx u2) (y n + dy u1 + dy u2) n)
  ∧ (∀ r, r ≠ node →
       (handleNodePositionUpdate W H (handleNodePositionUpdate W H (h, pd) u1) u2).1 !! r
       = h !! r)
  ∧ PositionedTreeData.links
      (handleNodePositionUpdate W H (handleNodePositionUpdate W H (h, pd) u1) u2).2
    = calculateLinks W H
        (handleNodePositionUpdate W H (handleNodePositionUpdate W H (h, pd) u1) u2).1
        (PositionedTreeData.nodes pd)
  ∧ PositionedTreeData.nodes
      (handleNodePositionUpdate W H (handleNodePositionUpdate W H (h, pd) u1) u2).2
    = PositionedTreeData.nodes pd
  ∧ PositionedTreeData.width
      (handleNodePositionUpdate W H (handleNodePositionUpdate W H (h, pd) u1) u2).2
    = PositionedTreeData.width pd
  ∧ PositionedTreeData.height
      (handleNodePositionUpdate W H (handleNodePositionUpdate W H (h, pd) u1) u2).2
    = PositionedTreeData.height pd.
Proof.
  intros Hfind Hn Hid.
  unfold handleNodePositionUpdate at 2 4 6 8 10 12 14. rewrite Hfind.
  unfold handleNodePositionUpdate. cbn [PositionedTreeData.nodes].
  rewrite (find_pointwise _ (λ r, bool_decide (id_of h r = u_id u1))).
  2:{ intros r. by rewrite id_of_alter_set_xy, Hid. }
  rewrite Hfind. cbn [fst snd PositionedTreeData.nodes PositionedTreeData.links
                       PositionedTreeData.width PositionedTreeData.height].
  split.
  { rewrite !list_lookup_alter_eq, Hn. done. }
  split; [|done].
  intros r Hr. by rewrite !lookup_alter_other.
Qed.

Lemma handleNodePositionUpdate_accumulates_witness :
  (handleNodePositionUpdate 120 120
     (handleNodePositionUpdate 120 120 sample_view (mkUpdate "n" 15 (-5) None))
     (mkUpdate "n" 1 2 (Some true))).1 !! 0
  = Some (set_xy (100 + 15 + 1) (200 + -5 + 2) (node "n" 100 200 None [] [] None)).
Proof.
  exact (proj1 (handleNodePositionUpdate_accumulates 120 120 sample_view.1 sample_view.2
                  (mkUpdate "n" 15 (-5) None) (mkUpdate "n" 1 2 (Some true)) 0
                  (node "n" 100 200 None [] [] None) eq_refl eq_refl eq_refl)).
Defined.

(** *** Grouping by a key *)

Lemma get_None_keys {V} (k : string) (m : list (string * V)) :
  JsMap.get k m = None ↔ k ∉ m.*1.
Proof.
  induction m as [|[k0 v0] m IH]; simpl.
  - split; [intros _; apply not_elem_of_nil|done].
  - destruct (decide (k0 = k)) as [->|Hne].
    + split; [done|]. intros Hk. destruct Hk. left.
    + rewrite IH. rewrite not_elem_of_cons. naive_solver.
Qed.

Lemma set_keys {V} (k k' : string) (v : V) (m : list (string * V)) :
  k' ∈ (JsMap.set k v m).*1 ↔ k' = k ∨ k' ∈ m.*1.
Proof.
  induction m as [|[k0 v0] m IH]; simpl.
  - rewrite list_elem_of_singleton. split; [by left|]. intros [?|Hin]; [done|].
    by apply elem_of_nil in Hin.
  - destruct (decide (k0 = k)) as [->|Hne]; simpl.
    + rewrite elem_of_cons. naive_solver.
    + rewrite !elem_of_cons, IH. naive_solver.
Qed.

Lemma set_keys_NoDup {V} (k : string) (v : V) (m : list (string * V)) :
  NoDup m.*1 → NoDup (JsMap.set k v m).*1.
Proof.
  induction m as [|[k0 v0] m IH]; simpl; intros Hnd.
  - apply NoDup_singleton.
  - apply NoDup_cons in Hnd as [Hk0 Hnd].
    destruct (decide (k0 = k)) as [->|Hne]; simpl.
    + by apply NoDup_cons.
    + apply NoDup_cons. split; [|by apply IH].
      intros Hin. apply set_keys in Hin as [?|?]; done.
Qed.

(** A loop that files every element under its key, if it has one: the
    entry of a key is the elements with that key, in the order of the
    array, and there is no entry without an element. *)
Lemma group_loop {A} (key : A → option string)
    (f : list (string * list A) → A → list (string * list A)) (l : list A) :
  (∀ m a, f m a = match key a with
                  | Some k => JsMap.set k (default [] (JsMap.get k m) ++ [a]) m
                  | None => m
                  end) →
  ∀ acc,
    (∀ k, JsMap.get k (foldl f acc l)
          = match JsMap.get k acc with
            | Some g0 => Some (g0 ++ filter (λ a, key a = Some k) l)
            | None => match filter (λ a, key a = Some k) l with
                      | [] => None
                      | g => Some g
                      end
            end)
    ∧ (NoDup acc.*1 → NoDup (foldl f acc l).*1).
Proof.
  intros Hf. induction l as [|a l IH]; intros acc.
  - split; [|done]. intros k. simpl. destruct (JsMap.get k acc); [|done].
    by rewrite app_nil_r.
  - cbn [foldl]. destruct (IH (f acc a)) as [IHget IHnd]. split.
    + intros k. rewrite IHget, Hf, filter_cons.
      destruct (key a) as [ka|] eqn:Hka.
      * destruct (decide (ka = k)) as [->|Hne].
        -- rewrite JsMapFacts.get_set_eq, decide_True by done.
           destruct (JsMap.get k acc) as [g0|]; simpl.
           ++ by rewrite <- app_assoc.
           ++ done.
        -- rewrite JsMapFacts.get_set_ne by done.
           rewrite decide_False by congruence. done.
      * by rewrite decide_False.
    + intros Hnd. apply IHnd. rewrite Hf. destruct (key a); [|done].
      by apply set_keys_NoDup.
Qed.

Lemma siblings_by_parent_id (h : heap) (level : list ref) :
  (∀ parentId,
     JsMap.get parentId (groupSiblingsByParent h level)
     = match filter (λ n, id_of h <$> parent_of h n = Some parentId) level with
       | [] => None
       | g => Some g
       end)
  ∧ NoDup (groupSiblingsByParent h level).*1.
Proof.
  destruct (group_loop (λ n, id_of h <$> parent_of h n)
              (λ siblingsByParent node,
                 match parent_of h node with
                 | Some p =>
                     let parentId := id_of h p in
                     JsMap.set parentId
                       (default [] (JsMap.get parentId siblingsByParent) ++ [node])
                       siblingsByParent
                 | None => siblingsByParent
                 end) level) with (acc := @nil (string * list ref)) as [Hget Hnd].
  { intros m a. by destruct (parent_of h a). }
  split; [exact Hget|]. apply Hnd. constructor.
Qed.

(** X8.  [groupSiblingsByParent] partitions the nodes of a level that
    have a parent by their parent's id: the entry of an id is the
    level's nodes with that parent id, in the level's order; an id no
    node names has no entry; no key is repeated; a node with a parent is
    in the group of its parent's id; and a group holds only nodes of the
    level whose parent has the group's id. *)
Theorem groupSiblingsByParent_groups (h : heap) (level : list ref) :
  (∀ parentId,
     JsMap.get parentId (groupSiblingsByParent h level)
     = match filter (λ n, id_of h <$> parent_of h n = Some parentId) level with
       | [] => None
       | g => Some g
       end)
  ∧ NoDup (groupSiblingsByParent h level).*1
  ∧ (∀ n p, n ∈ level → parent_of h n = Some p →
       ∃ g, JsMap.get (id_of h p) (groupSiblingsByParent h level) = Some g ∧ n ∈ g)
  ∧ (∀ parentId g n,
       JsMap.get parentId (groupSiblingsByParent h level) = Some g → n ∈ g →
       n ∈ level ∧ ∃ p, parent_of h n = Some p ∧ id_of h p = parentId).
Proof.
  destruct (siblings_by_parent_id h level) as [Hget Hnd].
  split; [done|]. split; [done|]. split.
  - intros n p Hn Hp. rewrite Hget.
    assert (Hin : n ∈ filter (λ n, id_of h <$> parent_of h n = Some (id_of h p)) level).
    { apply list_elem_of_filter. split; [|done]. by rewrite Hp. }
    destruct (filter _ level) as [|g0 g]; [by apply elem_of_nil in Hin|].
    by exists (g0 :: g).
  - intros parentId g n Hg Hn. rewrite Hget in Hg.
    destruct (filter _ level) as [|g0 g'] eqn:Hfilter; [done|].
    injection Hg as <-. rewrite <- Hfilter in Hn.
    apply list_elem_of_filter in Hn as [Hp Hin]. split; [done|].
    destruct (parent_of h n) as [p|]; simpl in Hp; [|done].
    exists p. split; [done|]. congruence.
Qed.

(** X12.  The [families] map of [calculateLinks] partitions the nodes
    their parent lists as a child by family id: the entry of an id is
    the nodes of that family, in the order of the node array; a node its
    parent does not list is in no family; and no key is repeated. *)
Theorem families_groups (h : heap) (nodes : list ref) :
  (∀ familyId,
     JsMap.get familyId (families h nodes)
     = match filter (λ n, listed_by_parent h n = true ∧ familyId_of h n = familyId)
                    nodes with
       | [] => None
       | g => Some g
       end)
  ∧ NoDup (families h nodes).*1.
Proof.
  destruct (group_loop (λ n, if listed_by_parent h n then Some (familyId_of h n) else None)
              (λ fam node,
                 if listed_by_parent h node then
                   let familyId := familyId_of h node in
                   JsMap.set familyId (default [] (JsMap.get familyId fam) ++ [node]) fam
                 else fam) nodes) with (acc := @nil (string * list ref)) as [Hget Hnd].
  { intros m a. by destruct (listed_by_parent h a). }
  split; [|apply Hnd; constructor].
  intros familyId. unfold families. rewrite Hget. cbn [JsMap.get].
  rewrite (list_filter_iff _ (λ n, listed_by_parent h n = true ∧ familyId_of h n = familyId));
    [done|].
  intros n. destruct (listed_by_parent h n); naive_solver.
Qed.

(** *** The parents of a level *)

(** [new Map(nodes.map(n => [n.id, n]))]: an id is mapped to the last
    node of the array that carries it. *)
Lemma nodeMap_from (h : heap) (nodes : list ref) (acc : list (string * ref)) (i : string) :
  JsMap.get i (foldl (λ m n, JsMap.set (id_of h n) n m) acc nodes)
  = match last (filter (λ n, id_of h n = i) nodes) with
    | Some r => Some r
    | None => JsMap.get i acc
    end.
Proof.
  revert acc. induction nodes as [|a nodes IH]; intros acc; [done|].
  cbn [foldl]. rewrite IH, filter_cons.
  destruct (decide (id_of h a = i)) as [<-|Hne].
  - rewrite last_cons, JsMapFacts.get_set_eq. by destruct (last _).
  - by rewrite JsMapFacts.get_set_ne.
Qed.

Lemma nodeMap_listed (h : heap) (nodes : list ref) (q : ref) :
  q ∈ nodes →
  ∃ r, JsMap.get (id_of h q) (nodeMap h nodes) = Some r
       ∧ r ∈ nodes ∧ id_of h r = id_of h q.
Proof.
  intros Hq. unfold nodeMap. rewrite nodeMap_from.
  destruct (last (filter (λ n, id_of h n = id_of h q) nodes)) as [r|] eqn:Hlast.
  - exists r. split; [done|].
    apply last_Some_elem_of in Hlast. by apply list_elem_of_filter in Hlast as [? ?].
  - apply last_None in Hlast.
    assert (Hin : q ∈ filter (λ n, id_of h n = id_of h q) nodes)
      by (by apply list_elem_of_filter).
    rewrite Hlast in Hin. by apply elem_of_nil in Hin.
Qed.

(** X9.  The group placement of a level leaves out no child of a
    traversed parent: a node of the level whose parent's id is carried
    by one of the traversed nodes is in the sibling group of one of the
    parents [sortParentsByX] returns, under that parent's id; and these
    parents come in ascending [x]. *)
Theorem level_parents_cover (h : heap) (level nodes : list ref) (n p q : ref) :
  n ∈ level →
  parent_of h n = Some p →
  q ∈ nodes →
  id_of h q = id_of h p →
  Sorted (x_le h)
    (sortParentsByX h (groupSiblingsByParent h level) (nodeMap h nodes))
  ∧ ∃ parentNode siblings,
      parentNode ∈ sortParentsByX h (groupSiblingsByParent h level) (nodeMap h nodes)
      ∧ parentNode ∈ nodes
      ∧ id_of h parentNode = id_of h p
      ∧ JsMap.get (id_of h parentNode) (groupSiblingsByParent h level) = Some siblings
      ∧ n ∈ siblings.
Proof.
  intros Hn Hp Hq Hid. split; [apply sort_by_x_sorted|].
  destruct (nodeMap_listed h nodes q Hq) as (r & Hget & Hr & Hrid).
  destruct (siblings_by_parent_id h level) as [Hgroups _].
  pose proof (Hgroups (id_of h p)) as Hg.
  assert (Hin : n ∈ filter (λ n, id_of h <$> parent_of h n = Some (id_of h p)) level).
  { apply list_elem_of_filter. split; [|done]. by rewrite Hp. }
  destruct (filter _ level) as [|g0 g] eqn:Hfilter; [by apply elem_of_nil in Hin|].
  exists r, (g0 :: g). split; [|split; [done|]].
  - unfold sortParentsByX. rewrite sort_by_x_perm.
    apply list_elem_of_omap. exists (id_of h p). split; [|by rewrite <- Hid].
    apply list_elem_of_fmap. exists (id_of h p, g0 :: g). split; [done|].
    by apply JsMapFacts.get_Some_elem.
  - split; [by rewrite Hrid, Hid|]. split; [|done].
    by rewrite Hrid, Hid.
Qed.

Lemma level_parents_cover_witness :
  ∃ parentNode siblings,
    parentNode ∈ sortParentsByX sample_row (groupSiblingsByParent sample_row [1; 2; 3])
                   (nodeMap sample_row [0; 1; 2; 3])
    ∧ parentNode ∈ [0; 1; 2; 3]
    ∧ id_of sample_row parentNode = id_of sample_row 0
    ∧ JsMap.get (id_of sample_row parentNode) (groupSiblingsByParent sample_row [1; 2; 3])
      = Some siblings
    ∧ 3 ∈ siblings.
Proof.
  assert (H3 : 3 ∈ [1; 2; 3]) by (apply (bool_decide_unpack _); vm_compute; exact I).
  assert (H0 : 0 ∈ [0; 1; 2; 3]) by (apply (bool_decide_unpack _); vm_compute; exact I).
  exact (proj2 (level_parents_cover sample_row [1; 2; 3] [0; 1; 2; 3] 3 0 0
                  H3 eq_refl H0 eq_refl)).
Defined.

(** *** Family ids *)

Lemma ltb_asym (a b : string) : String.ltb a b = true → String.ltb b a = false.
Proof.
  unfold String.ltb. rewrite (String.compare_antisym a b).
  by destruct (String.compare b a).
Qed.

Lemma sorted_join_comm (a b : string) : sorted_join a b = sorted_join b a.
Proof.
  unfold sorted_join.
  destruct (String.ltb b a) eqn:Hba.
  - by rewrite (ltb_asym _ _ Hba).
  - destruct (String.ltb a b) eqn:Hab; [done|].
    unfold String.ltb in *. rewrite (String.compare_antisym a b) in Hab.
    destruct (String.compare b a) eqn:Hcmp; try done.
    apply String.compare_eq_iff in Hcmp. by subst.
Qed.

(** X13.  The family id does not depend on which of the two parents is
    the tree parent: a child of [p1] that names [p2] as co-parent and a
    child of [p2] that names [p1] as co-parent have the same family id,
    so they hang from the same bus. *)
Theorem familyId_of_symmetric (h : heap) (n1 n2 p1 p2 : ref) :
  parent_of h n1 = Some p1 →
  parent_of h n2 = Some p2 →
  coParentId_of h n1 = Some (id_of h p2) →
  coParentId_of h n2 = Some (id_of h p1) →
  id_of h p1 ≠ "" →
  id_of h p2 ≠ "" →
  familyId_of h n1 = familyId_of h n2.
Proof.
  intros Hp1 Hp2 Hc1 Hc2 Hne1 Hne2. unfold familyId_of.
  rewrite Hp1, Hp2, Hc1, Hc2. simpl.
  apply String.eqb_neq in Hne1, Hne2. rewrite Hne1, Hne2.
  apply sorted_join_comm.
Qed.

Lemma familyId_of_symmetric_witness :
  familyId_of sample_two_trees 2 = familyId_of sample_two_trees 3.
Proof.
  apply (familyId_of_symmetric sample_two_trees 2 3 0 1); try reflexivity;
    vm_compute; discriminate.
Defined.

(** *** The final shift and the canvas *)




Lemma max_of_ge_first (first : Q) (rest : list Q) : (first <= max_of first rest)%Q.
Proof.
  unfold max_of. revert first. induction rest as [|a rest IH]; intros first.
  - simpl. lra.
  - cbn [foldl]. eapply Qle_trans; [|apply IH]. apply Q.le_max_l.
Qed.

Lemma max_of_ge (first : Q) (rest : list Q) (v : Q) :
  v ∈ first :: rest → (v <= max_of first rest)%Q.
Proof.
  revert first. induction rest as [|a rest IH]; intros first Hv.
  - apply list_elem_of_singleton in Hv as ->. apply max_of_ge_first.
  - apply elem_of_cons in Hv as [Hv|Hv].
    + subst v. apply max_of_ge_first.
    + change (max_of first (a :: rest)) with (max_of (Qmax first a) rest).
      apply elem_of_cons in Hv as [Hv|Hv].
      * subst v. eapply Qle_trans; [|apply max_of_ge_first]. apply Q.le_max_r.
      * apply IH. by right.
Qed.

Lemma max_of_attained (first : Q) (rest : list Q) :
  ∃ v, v ∈ first :: rest ∧ (max_of first rest == v)%Q.
Proof.
  unfold max_of. revert first. induction rest as [|a rest IH]; intros first.
  - exists first. split; [left|reflexivity].
  - cbn [foldl]. destruct (IH (Qmax first a)) as (v & Hv & Heq).
    apply elem_of_cons in Hv as [->|Hv].
    + destruct (Q.max_dec first a) as [Hm|Hm].
      * exists first. split; [left|]. by rewrite Heq.
      * exists a. split; [right; left|]. by rewrite Heq.
    + exists v. split; [by do 2 right|done].
Qed.







(** X11.  The canvas holds every node: [finalWidth] is at least the
    right edge of every real node plus one spacing, [finalHeight] at
    least its bottom edge, and both are reached by some node. *)
Theorem canvas_holds_every_node (h : heap) (nodes : list ref)
    (NODE_WIDTH NODE_HEIGHT X_SPACING : Q) (r : ref) :
  r ∈ real_nodes h nodes →
  (x_of h r + NODE_WIDTH + X_SPACING <= finalWidth h nodes NODE_WIDTH X_SPACING)%Q
  ∧ (y_of h r + NODE_HEIGHT <= finalHeight h nodes NODE_HEIGHT)%Q
  ∧ (∃ r', r' ∈ real_nodes h nodes
           ∧ (finalWidth h nodes NODE_WIDTH X_SPACING
              == x_of h r' + NODE_WIDTH + X_SPACING)%Q)
  ∧ (∃ r', r' ∈ real_nodes h nodes
           ∧ (finalHeight h nodes NODE_HEIGHT == y_of h r' + NODE_HEIGHT)%Q).
Proof.
  intros Hr. unfold finalWidth, finalHeight.
  pose proof (list_elem_of_fmap_2 (x_of h) _ _ Hr) as Hx.
  pose proof (list_elem_of_fmap_2 (y_of h) _ _ Hr) as Hy.
  destruct (x_of h <$> real_nodes h nodes) as [|fx rx] eqn:Hxs;
    [by apply elem_of_nil in Hx|].
  destruct (y_of h <$> real_nodes h nodes) as [|fy ry] eqn:Hys;
    [by apply elem_of_nil in Hy|].
  split; [|split; [|split]].
  - pose proof (max_of_ge fx rx _ Hx). lra.
  - pose proof (max_of_ge fy ry _ Hy). lra.
  - destruct (max_of_attained fx rx) as (v & Hv & Hmax).
    rewrite <- Hxs in Hv. apply list_elem_of_fmap in Hv as (r' & -> & Hr').
    exists r'. split; [done|]. by rewrite Hmax.
  - destruct (max_of_attained fy ry) as (v & Hv & Hmax).
    rewrite <- Hys in Hv. apply list_elem_of_fmap in Hv as (r' & -> & Hr').
    exists r'. split; [done|]. by rewrite Hmax.
Qed.

Lemma canvas_holds_every_node_witness :
  (x_of sample_view.1 0 + 120 + 40
   <= finalWidth sample_view.1 (PositionedTreeData.nodes sample_view.2) 120 40)%Q.
Proof.
  assert (Hr : 0 ∈ real_nodes sample_view.1 [0; 1])
    by (apply (bool_decide_unpack _); vm_compute; exact I).
  exact (proj1 (canvas_holds_every_node sample_view.1 [0; 1] 120 120 40 0 Hr)).
Defined.

(** *** [buildLayoutBlocks] *)

Lemma add_partners_shape (h : heap) (ps block : list ref) (used : gset string) :
  ∃ extra,
    (add_partners h ps (block, used)).1 = block ++ extra
    ∧ (∀ r, r ∈ extra → r ∈ ps)
    ∧ ∀ i, i ∈ (add_partners h ps (block, used)).2 ↔ i ∈ used ∨ i ∈ id_of h <$> extra.
Proof.
  unfold add_partners. revert block used.
  induction ps as [|partner ps IH]; intros block used.
  - exists []. rewrite app_nil_r. split; [done|]. split; [done|].
    intros i. simpl. split; [by left|]. intros [?|Hi]; [done|].
    by apply elem_of_nil in Hi.
  - cbn [foldl]. destruct (decide (id_of h partner ∈ used)) as [Hin|Hnin].
    + destruct (IH block used) as (extra & Heq & Hsub & Hused).
      exists extra. split; [done|]. split; [|done].
      intros r Hr. right. by apply Hsub.
    + destruct (IH (block ++ [partner]) ({[id_of h partner]} ∪ used))
        as (extra & Heq & Hsub & Hused).
      exists (partner :: extra). split; [by rewrite Heq, <- app_assoc|]. split.
      * intros r Hr. apply elem_of_cons in Hr as [->|Hr]; [left|right; by apply Hsub].
      * intros i. rewrite Hused, fmap_cons, elem_of_cons, elem_of_union,
          elem_of_singleton. tauto.
Qed.

(** What the sibling loop has built after some siblings. *)
Lemma buildLayoutBlocks_loop (h : heap) (siblings done_ : list ref)
    (acc : list (list ref) * gset string) :
  (∀ i, i ∈ acc.2 ↔ i ∈ id_of h <$> concat acc.1) →
  (∀ c, c ∈ done_ → id_of h c ∈ acc.2) →
  (∀ b, b ∈ acc.1 → ∃ c rest, b = c :: rest ∧ c ∈ done_
                              ∧ ∀ r, r ∈ rest → r ∈ partners_of h c) →
  (∀ i, i ∈ (foldl (buildLayoutBlocks_step h) acc siblings).2
        ↔ i ∈ id_of h <$> concat (foldl (buildLayoutBlocks_step h) acc siblings).1)
  ∧ (∀ c, c ∈ done_ ++ siblings →
          id_of h c ∈ (foldl (buildLayoutBlocks_step h) acc siblings).2)
  ∧ (∀ b, b ∈ (foldl (buildLayoutBlocks_step h) acc siblings).1 →
          ∃ c rest, b = c :: rest ∧ c ∈ done_ ++ siblings
                    ∧ ∀ r, r ∈ rest → r ∈ partners_of h c).
Proof.
  revert done_ acc. induction siblings as [|child siblings IH];
    intros done_ acc Hused Hdone Hblocks.
  - rewrite app_nil_r. done.
  - cbn [foldl].
    replace (done_ ++ child :: siblings) with ((done_ ++ [child]) ++ siblings)
      by (by rewrite <- app_assoc).
    apply IH; destruct acc as [blocks used]; unfold buildLayoutBlocks_step;
      cbn [fst snd] in *.
    + destruct (decide (id_of h child ∈ used)) as [Hin|Hnin]; [done|].
      destruct (add_partners_shape h (partners_of h child) [child]
                  ({[id_of h child]} ∪ used)) as (extra & Heq & Hsub & Hused').
      destruct (add_partners h (partners_of h child) ([child], {[id_of h child]} ∪ used))
        as [block used'] eqn:Hadd.
      cbn [fst snd] in *. intros i.
      rewrite Hused', concat_app, fmap_app, elem_of_app. simpl.
      rewrite app_nil_r, Heq. simpl.
      rewrite elem_of_union, elem_of_singleton, elem_of_cons, Hused. tauto.
    + intros c Hc.
      destruct (decide (id_of h child ∈ used)) as [Hin|Hnin].
      * apply elem_of_app in Hc as [Hc|Hc]; [by apply Hdone|].
        by apply list_elem_of_singleton in Hc as ->.
      * destruct (add_partners_shape h (partners_of h child) [child]
                    ({[id_of h child]} ∪ used)) as (extra & Heq & Hsub & Hused').
        destruct (add_partners h (partners_of h child)
                    ([child], {[id_of h child]} ∪ used)) as [block used'] eqn:Hadd.
        cbn [fst snd] in *. apply Hused'. left.
        apply elem_of_app in Hc as [Hc|Hc].
        -- apply elem_of_union_r. by apply Hdone.
        -- apply list_elem_of_singleton in Hc as ->. set_solver.
    + intros b Hb.
      destruct (decide (id_of h child ∈ used)) as [Hin|Hnin].
      * destruct (Hblocks b Hb) as (c & rest & -> & Hc & Hrest).
        exists c, rest. split; [done|]. split; [|done]. apply elem_of_app. by left.
      * destruct (add_partners_shape h (partners_of h child) [child]
                    ({[id_of h child]} ∪ used)) as (extra & Heq & Hsub & Hused').
        destruct (add_partners h (partners_of h child)
                    ([child], {[id_of h child]} ∪ used)) as [block used'] eqn:Hadd.
        cbn [fst snd] in *. apply elem_of_app in Hb as [Hb|Hb].
        -- destruct (Hblocks b Hb) as (c & rest & -> & Hc & Hrest).
           exists c, rest. split; [done|]. split; [|done]. apply elem_of_app. by left.
        -- apply list_elem_of_singleton in Hb as ->.
           exists child, extra. split; [done|].
           split; [apply elem_of_app; right; left|done].
Qed.

(** X27.  [buildLayoutBlocks] places every sibling, and no id twice:
    the ids of the nodes of all blocks are pairwise distinct; the id of
    every sibling is among them; and every block is a sibling followed
    by partners of that sibling. *)
Theorem buildLayoutBlocks_covers (h : heap) (siblings : list ref) :
  placed_once h (buildLayoutBlocks h siblings)
  ∧ (∀ c, c ∈ siblings →
          id_of h c ∈ id_of h <$> concat (buildLayoutBlocks h siblings))
  ∧ (∀ b, b ∈ buildLayoutBlocks h siblings →
          ∃ c rest, b = c :: rest ∧ c ∈ siblings
                    ∧ ∀ r, r ∈ rest → r ∈ partners_of h c).
Proof.
  split; [apply buildLayoutBlocks_placed_once|].
  destruct (buildLayoutBlocks_loop h siblings [] ([], ∅)) as (Hused & Hdone & Hblocks).
  - intros i. simpl. set_solver.
  - intros c Hc. by apply elem_of_nil in Hc.
  - intros b Hb. by apply elem_of_nil in Hb.
  - unfold buildLayoutBlocks. split; [|done].
    intros c Hc. apply Hused. by apply Hdone.
Qed.

End LayoutFacts.

(** ** The queries of the store *)
Module QueryFacts.
Import Store JsMapFacts ListFacts.

Lemma size_list_to_set_le (l : list string) :
  size (list_to_set l : gset string) ≤ length l.
Proof.
  induction l as [|a l IH].
  - rewrite list_to_set_nil, size_empty. done.
  - rewrite list_to_set_cons, size_union_alt, size_singleton. simpl.
    assert (size (list_to_set l ∖ {[a]} : gset string) ≤ size (list_to_set l : gset string))
      by (apply subseteq_size; set_solver).
    lia.
Qed.

(** Marking an unmarked id of a finite stock leaves fewer unmarked. *)
Lemma size_mark (ids visited : gset string) (i : string) :
  i ∈ ids → i ∉ visited →
  size (ids ∖ ({[ i ]} ∪ visited)) < size (ids ∖ visited).
Proof. intros Hi Hv. apply subset_size. set_solver. Qed.

Lemma getParents_registered (i : string) (s : FamilyTree) (p : ref) :
  getParents i s = [p] → p ∈ JsMap.values (nodes s).
Proof.
  unfold getParents. repeat case_match; try done. intros [= <-].
  apply list_elem_of_fmap. eexists (_, _). split; [done|].
  by eapply get_Some_elem.
Qed.

Lemma exceeds_false (m : Q) (d : nat) :
  exceeds (Some m) d = false → (inject_Z (Z.of_nat d) <= m)%Q.
Proof. unfold exceeds. by destruct (Qlt_le_dec _ _). Qed.

Section Ancestors.
Variable s : FamilyTree.
Variable maxDepth : option Q.
Variable filterFn : option (ref → bool).

(** A turn that goes on has found the registered parent of the
    current id, with an id not met before and within the depth. *)
Lemma getAncestors_turn_inl (st st' : AState) :
  getAncestors_turn s maxDepth filterFn st = inl st' →
  ∃ p, getParents (currentId st) s = [p]
       ∧ (id_of (objs s) p ∉ a_visited st)
       ∧ exceeds maxDepth (S (a_depth st)) = false
       ∧ st' = {| ancestors := ancestors st ++ (if passes filterFn p then [p] else []);
                  a_visited := {[ id_of (objs s) p ]} ∪ a_visited st;
                  currentId := id_of (objs s) p;
                  a_depth := S (a_depth st) |}.
Proof.
  unfold getAncestors_turn, getParents.
  repeat case_match; try done; intros [= <-]; eexists;
    (split; [done|]); (split; [done|]); (split; [done|]);
    match goal with H : passes _ _ = _ |- _ => by rewrite H end.
Qed.

(** The loop is left without a change, and only where the chain ends:
    no current id, no registered parent, an id met before, or the depth
    reached. *)
Lemma getAncestors_turn_inr (st : AState) (result : list ref) :
  getAncestors_turn s maxDepth filterFn st = inr result →
  result = ancestors st
  ∧ (currentId st ≠ "" →
     ∀ p, getParents (currentId st) s = [p] →
          id_of (objs s) p ∈ a_visited st ∨ exceeds maxDepth (S (a_depth st)) = true).
Proof.
  unfold getAncestors_turn, getParents.
  destruct (truthy_str (currentId st)) eqn:Hcur.
  - repeat case_match; try done; intros [= <-]; (split; [done|]);
      intros _ p' [= <-]; auto.
  - intros [= <-]. split; [done|]. intros Hne.
    unfold truthy_str in Hcur. apply negb_false_iff, String.eqb_eq in Hcur. done.
Qed.

Lemma parent_chain_snoc (start : string) (chain : list ref) (p : ref) :
  parent_chain s start chain →
  getParents (chain_end s start chain) s = [p] →
  parent_chain s start (chain ++ [p]).
Proof.
  revert start. induction chain as [|r chain IH]; intros start; simpl.
  - intros _ Hp. done.
  - intros [Hr Hchain] Hp. split; [done|]. apply IH; [done|].
    unfold chain_end in *. rewrite last_cons in Hp.
    by destruct (last chain).
Qed.

Lemma chain_end_snoc (start : string) (chain : list ref) (p : ref) :
  chain_end s start (chain ++ [p]) = id_of (objs s) p.
Proof. unfold chain_end. by rewrite last_snoc. Qed.

(** The loop from a state that has followed [chain]: with fuel for
    every id not met yet, it returns, and what it returns is the
    filtered chain it has followed to its end. *)
Lemma getAncestors_loop_chain (nodeId : string) (fuel : nat) (st : AState)
    (chain : list ref) :
  size (list_to_set (id_of (objs s) <$> JsMap.values (nodes s)) ∖ a_visited st) < fuel →
  parent_chain s nodeId chain →
  ancestors st = List.filter (passes filterFn) chain →
  currentId st = chain_end s nodeId chain →
  a_depth st = length chain →
  NoDup (id_of (objs s) <$> chain) →
  (∀ i, i ∈ a_visited st ↔ i ∈ id_of (objs s) <$> chain) →
  (chain = [] ∨ exceeds maxDepth (length chain) = false) →
  ∃ chain' result,
    getAncestors_loop fuel s maxDepth filterFn st = Some result
    ∧ parent_chain s nodeId chain'
    ∧ result = List.filter (passes filterFn) chain'
    ∧ NoDup (id_of (objs s) <$> chain')
    ∧ (chain' = [] ∨ exceeds maxDepth (length chain') = false)
    ∧ (chain_end s nodeId chain' ≠ "" →
       ∀ p, getParents (chain_end s nodeId chain') s = [p] →
            id_of (objs s) p ∈ id_of (objs s) <$> chain'
            ∨ exceeds maxDepth (S (length chain')) = true).
Proof.
  revert st chain. induction fuel as [|fuel IH];
    intros st chain Hfuel Hchain Hanc Hcur Hdepth Hnd Hvis Hmax; [lia|].
  cbn [getAncestors_loop].
  destruct (getAncestors_turn s maxDepth filterFn st) as [st'|result] eqn:Hturn.
  - apply getAncestors_turn_inl in Hturn as (p & Hp & Hnew & Hex & ->).
    apply (IH _ (chain ++ [p])); cbn [ancestors a_visited currentId a_depth].
    + pose proof (getParents_registered _ _ _ Hp) as Hreg.
      assert (Hin : id_of (objs s) p
                    ∈ (list_to_set (id_of (objs s) <$> JsMap.values (nodes s))
                        : gset string)).
      { apply elem_of_list_to_set. by apply list_elem_of_fmap_2. }
      pose proof (size_mark _ _ _ Hin Hnew). lia.
    + apply parent_chain_snoc; [done|]. by rewrite <- Hcur.
    + rewrite List.filter_app, Hanc. simpl. by destruct (passes filterFn p).
    + by rewrite chain_end_snoc.
    + rewrite length_app. simpl. lia.
    + rewrite fmap_app. simpl. apply NoDup_app. split; [done|]. split.
      * intros i Hi Hp'. apply list_elem_of_singleton in Hp' as ->.
        by apply Hnew, Hvis.
      * apply NoDup_singleton.
    + intros i. rewrite fmap_app, elem_of_app, elem_of_union, Hvis. simpl.
      rewrite elem_of_singleton, list_elem_of_singleton. tauto.
    + right. rewrite length_app. simpl. rewrite Hdepth in Hex.
      by replace (length chain + 1) with (S (length chain)) by lia.
  - apply getAncestors_turn_inr in Hturn as [-> Hstop].
    exists chain, (ancestors st). split; [done|]. split; [done|].
    split; [done|]. split; [done|]. split; [done|].
    rewrite <- Hcur, <- Hdepth. intros Hne p Hp.
    destruct (Hstop Hne p Hp) as [Hin|Hex]; [left; by apply Hvis|by right].
Qed.

End Ancestors.

(** X14.  [getAncestors] returns on every store, whatever cycles the
    [parent] references form.  What it returns is the chain of
    registered parents from the start id (each node is [getParents] of
    the id before it), with the nodes that fail [filterFn] left out;
    the ids of the chain are pairwise distinct; with [maxDepth] given
    and not negative the chain has at most [maxDepth] nodes; and the
    chain is cut only where it ends: at an empty id, at a node without
    registered parent, at a parent whose id the chain has met, or at the
    depth limit. *)
Theorem getAncestors_parent_chain (s : FamilyTree) (nodeId : string)
    (maxDepth : option Q) (filterFn : option (ref → bool)) :
  ∃ chain result,
    getAncestors nodeId maxDepth filterFn s = Some result
    ∧ parent_chain s nodeId chain
    ∧ result = List.filter (passes filterFn) chain
    ∧ NoDup (id_of (objs s) <$> chain)
    ∧ (∀ m, maxDepth = Some m → (0 <= m)%Q →
            (inject_Z (Z.of_nat (length chain)) <= m)%Q)
    ∧ (chain_end s nodeId chain ≠ "" →
       ∀ p, getParents (chain_end s nodeId chain) s = [p] →
            id_of (objs s) p ∈ id_of (objs s) <$> chain
            ∨ exceeds maxDepth (S (length chain)) = true).
Proof.
  destruct (getAncestors_loop_chain s maxDepth filterFn nodeId
              (S (length (nodes s)))
              {| ancestors := []; a_visited := ∅; currentId := nodeId; a_depth := 0 |} [])
    as (chain & result & Hres & Hchain & Hfilter & Hnd & Hmax & Hend);
    cbn [ancestors a_visited currentId a_depth]; try done.
  - rewrite difference_empty_L.
    pose proof (size_list_to_set_le (id_of (objs s) <$> JsMap.values (nodes s))) as Hle.
    rewrite length_fmap in Hle. unfold JsMap.values in *. rewrite length_fmap in Hle. lia.
  - constructor.
  - intros i. set_solver.
  - by left.
  - exists chain, result. split; [done|]. split; [done|]. split; [done|].
    split; [done|]. split; [|done].
    intros m -> Hm. destruct Hmax as [->|Hex]; [done|by apply exceeds_false].
Qed.

(** *** Descendants *)

Section Descendants.
Variable s : FamilyTree.
Variable nodeId : string.
Variable maxDepth : option Q.
Variable filterFn : option (ref → bool).

Lemma closed_mono (visited visited' : gset string) (i : string) :
  visited ⊆ visited' → closed s visited i → closed s visited' i.
Proof. intros Hsub Hc node n child H1 H2 H3 H4. apply Hsub. by eapply Hc. Qed.

(** The work left: the ids not marked yet and the entries to pop. *)
Lemma id_in_heap (r : ref) :
  id_of (objs s) r ≠ "" →
  id_of (objs s) r ∈ (list_to_set (id <$> objs s) : gset string).
Proof.
  unfold id_of. destruct (objs s !! r) as [n|] eqn:Hr; simpl; [|done].
  intros _. apply elem_of_list_to_set, list_elem_of_fmap.
  exists n. split; [done|]. by eapply list_elem_of_lookup_2.
Qed.

(** One child of the popped node [current]. *)
Lemma getDescendants_child_inv (open : gset string) (current : string) (depth : nat)
    (node : ref) (n : TreeNode) (st : DState) (child : ref) :
  descendants_inv s nodeId maxDepth filterFn open st →
  current ∈ d_visited st →
  JsMap.get current (nodes s) = Some node →
  objs s !! node = Some n →
  child ∈ default [] (children n) →
  descendants_inv s nodeId maxDepth filterFn open
    (getDescendants_child s maxDepth filterFn depth st child)
  ∧ d_visited st ⊆ d_visited (getDescendants_child s maxDepth filterFn depth st child)
  ∧ (maxDepth = None → id_of (objs s) child ≠ "" →
     id_of (objs s) child
       ∈ d_visited (getDescendants_child s maxDepth filterFn depth st child))
  ∧ size (list_to_set (id <$> objs s) ∖
            d_visited (getDescendants_child s maxDepth filterFn depth st child))
      + length (stack (getDescendants_child s maxDepth filterFn depth st child))
    ≤ size (list_to_set (id <$> objs s) ∖ d_visited st) + length (stack st).
Proof.
  intros Hinv Hcur Hnode Hn Hchild. unfold getDescendants_child.
  destruct (truthy_str (id_of (objs s) child)) eqn:Htruthy; simpl.
  2:{ split; [done|]. split; [done|]. split; [|done].
      intros _ Hne. unfold truthy_str in Htruthy.
      apply negb_false_iff, String.eqb_eq in Htruthy. done. }
  assert (Hne : id_of (objs s) child ≠ "").
  { unfold truthy_str in Htruthy. by apply negb_true_iff, String.eqb_neq in Htruthy. }
  destruct (decide (id_of (objs s) child ∈ d_visited st)) as [Hin|Hnew].
  { split; [done|]. split; [done|]. split; [done|]. done. }
  destruct (exceeds maxDepth (depth + 1)) eqn:Hex.
  { split; [done|]. split; [done|]. split; [|done].
    intros ->. done. }
  destruct Hinv as [Hnd Hmarked Hstart Hreach Hstack Hclosed Hlisted].
  split; [|split; [|split]]; cbn [descendants d_visited stack].
  - constructor; cbn [descendants d_visited stack].
    + rewrite fmap_app. apply NoDup_app. split; [done|]. split.
      * intros i Hi Hi'. destruct (passes filterFn child); simpl in Hi'.
        -- apply list_elem_of_singleton in Hi' as ->.
           apply list_elem_of_fmap in Hi as (r & Hr & Hrin).
           apply Hnew. rewrite Hr. by apply Hmarked.
        -- by apply elem_of_nil in Hi'.
      * destruct (passes filterFn child); simpl; [apply NoDup_singleton|constructor].
    + intros r Hr. apply elem_of_app in Hr as [Hr|Hr].
      * destruct (Hmarked r Hr) as (H1 & H2 & H3).
        split; [set_solver|done].
      * destruct (passes filterFn child) eqn:Hpass; simpl in Hr;
          [|by apply elem_of_nil in Hr].
        apply list_elem_of_singleton in Hr as ->.
        split; [set_solver|]. split; [done|]. intros Heq. apply Hnew.
        by rewrite Heq.
    + set_solver.
    + intros i Hi. apply elem_of_union in Hi as [Hi|Hi]; [|by apply Hreach].
      apply elem_of_singleton in Hi as ->.
      by apply (reaches_child s nodeId current node n child); [apply Hreach|..].
    + intros e He. apply elem_of_cons in He as [->|He]; [set_solver|].
      apply elem_of_union_r. by apply Hstack.
    + intros Hmax i Hi. apply elem_of_union in Hi as [Hi|Hi].
      * apply elem_of_singleton in Hi as ->. left. simpl. left.
      * destruct (Hclosed Hmax i Hi) as [H1|[H1|H1]].
        -- left. simpl. by right.
        -- right. by left.
        -- right. right. eapply closed_mono; [|done]. set_solver.
    + intros Hf i Hi. apply elem_of_union in Hi as [Hi|Hi].
      * apply elem_of_singleton in Hi as ->. right. subst filterFn. simpl.
        rewrite fmap_app. apply elem_of_app. right. simpl. left.
      * destruct (Hlisted Hf i Hi) as [H1|H1]; [by left|right].
        rewrite fmap_app. apply elem_of_app. by left.
  - set_solver.
  - intros _ _. set_solver.
  - pose proof (size_mark _ _ _ (id_in_heap child Hne) Hnew). simpl. lia.
Qed.

(** The [for] loop over children of the popped node. *)
Lemma getDescendants_children_inv (open : gset string) (current : string) (depth : nat)
    (node : ref) (n : TreeNode) (cs : list ref) (st : DState) :
  descendants_inv s nodeId maxDepth filterFn open st →
  current ∈ d_visited st →
  JsMap.get current (nodes s) = Some node →
  objs s !! node = Some n →
  (∀ c, c ∈ cs → c ∈ default [] (children n)) →
  descendants_inv s nodeId maxDepth filterFn open
    (foldl (getDescendants_child s maxDepth filterFn depth) st cs)
  ∧ d_visited st ⊆ d_visited (foldl (getDescendants_child s maxDepth filterFn depth) st cs)
  ∧ (maxDepth = None → ∀ c, c ∈ cs → id_of (objs s) c ≠ "" →
     id_of (objs s) c
       ∈ d_visited (foldl (getDescendants_child s maxDepth filterFn depth) st cs))
  ∧ size (list_to_set (id <$> objs s) ∖
            d_visited (foldl (getDescendants_child s maxDepth filterFn depth) st cs))
      + length (stack (foldl (getDescendants_child s maxDepth filterFn depth) st cs))
    ≤ size (list_to_set (id <$> objs s) ∖ d_visited st) + length (stack st).
Proof.
  revert st. induction cs as [|c cs IH]; intros st Hinv Hcur Hnode Hn Hcs.
  - simpl. split; [done|]. split; [done|]. split; [|done].
    intros _ c Hc. by apply elem_of_nil in Hc.
  - cbn [foldl].
    destruct (getDescendants_child_inv open current depth node n st c Hinv Hcur Hnode Hn)
      as (Hinv1 & Hsub1 & Hin1 & Hsize1); [apply Hcs; left|].
    destruct (IH (getDescendants_child s maxDepth filterFn depth st c) Hinv1)
      as (Hinv2 & Hsub2 & Hin2 & Hsize2); [by apply Hsub1|done|done| |].
    { intros c' Hc'. apply Hcs. by right. }
    split; [done|]. split; [set_solver|]. split; [|lia].
    intros Hmax c' Hc' Hne. apply elem_of_cons in Hc' as [->|Hc'].
    + apply Hsub2. by apply Hin1.
    + by apply Hin2.
Qed.

(** A turn pops one entry and leaves less work. *)
Lemma getDescendants_turn_inv (st st' : DState) :
  descendants_inv s nodeId maxDepth filterFn ∅ st →
  getDescendants_turn s maxDepth filterFn st = inl st' →
  descendants_inv s nodeId maxDepth filterFn ∅ st'
  ∧ size (list_to_set (id <$> objs s) ∖ d_visited st') + length (stack st')
    < size (list_to_set (id <$> objs s) ∖ d_visited st) + length (stack st).
Proof.
  intros Hinv. unfold getDescendants_turn.
  destruct (stack st) as [|[current depth] rest] eqn:Hstack; [done|].
  assert (Hcur : current ∈ d_visited st).
  { apply (d_stack _ _ _ _ _ _ Hinv (current, depth)). rewrite Hstack. left. }
  assert (Hinv0 : descendants_inv s nodeId maxDepth filterFn {[ current ]}
                    {| descendants := descendants st; d_visited := d_visited st;
                       stack := rest |}).
  { destruct Hinv as [Hnd Hmarked Hstart Hreach Hst Hclosed Hlisted].
    constructor; cbn [descendants d_visited stack]; try done.
    - intros e He. apply Hst. rewrite Hstack. by right.
    - intros Hmax i Hi. destruct (Hclosed Hmax i Hi) as [H1|[H1|H1]].
      + rewrite Hstack in H1. simpl in H1. apply elem_of_cons in H1 as [->|H1].
        * right. left. set_solver.
        * by left.
      + set_solver.
      + by do 2 right. }
  assert (Hclose : ∀ st1,
            descendants_inv s nodeId maxDepth filterFn {[ current ]} st1 →
            (maxDepth = None → closed s (d_visited st1) current) →
            descendants_inv s nodeId maxDepth filterFn ∅ st1).
  { intros st1 [Hnd Hmarked Hstart Hreach Hst Hclosed Hlisted] Hc.
    constructor; try done.
    intros Hmax i Hi. destruct (Hclosed Hmax i Hi) as [H1|[H1|H1]].
    - by left.
    - apply elem_of_singleton in H1 as ->. right. right. by apply Hc.
    - by do 2 right. }
  destruct (JsMap.get current (nodes s)) as [node|] eqn:Hnode.
  - intros [= <-].
    destruct (objs s !! node) as [n|] eqn:Hn; simpl.
    + destruct (getDescendants_children_inv {[ current ]} current depth node n
                  (default [] (children n))
                  {| descendants := descendants st; d_visited := d_visited st;
                     stack := rest |} Hinv0 Hcur Hnode Hn)
        as (Hinv1 & Hsub1 & Hin1 & Hsize1); [done|].
      cbn [d_visited stack] in Hsize1. split; [|simpl; lia].
      apply Hclose; [done|].
      intros Hmax node' n' child Hnode' Hn' Hchild Hne.
      rewrite Hnode in Hnode'. injection Hnode' as <-.
      rewrite Hn in Hn'. injection Hn' as <-.
      by apply Hin1.
    + split; [|simpl; lia]. apply Hclose; [done|].
      intros _ node' n' child Hnode' Hn'. congruence.
  - intros [= <-]. split; [|simpl; lia]. apply Hclose; [done|].
    intros _ node' n' child Hnode'. congruence.
Qed.

(** With fuel for the work left the loop returns, and it returns the
    [descendants] of a state with an empty stack. *)
Lemma getDescendants_loop_inv (fuel : nat) (st : DState) :
  size (list_to_set (id <$> objs s) ∖ d_visited st) + length (stack st) < fuel →
  descendants_inv s nodeId maxDepth filterFn ∅ st →
  ∃ result visited,
    getDescendants_loop fuel s maxDepth filterFn st = Some result
    ∧ descendants_inv s nodeId maxDepth filterFn ∅
        {| descendants := result; d_visited := visited; stack := [] |}.
Proof.
  revert st. induction fuel as [|fuel IH]; intros st Hfuel Hinv; [lia|].
  cbn [getDescendants_loop].
  destruct (getDescendants_turn s maxDepth filterFn st) as [st'|result] eqn:Hturn.
  - destruct (getDescendants_turn_inv st st' Hinv Hturn) as [Hinv' Hless].
    apply IH; [lia|done].
  - unfold getDescendants_turn in Hturn.
    destruct (stack st) as [|[current depth] rest] eqn:Hstack.
    + injection Hturn as <-. exists (descendants st), (d_visited st).
      split; [done|]. destruct st as [ds vs stk]. simpl in *. by subst stk.
    + by destruct (JsMap.get current (nodes s)).
Qed.

Lemma getDescendants_inv :
  ∃ result visited,
    getDescendants nodeId maxDepth filterFn s = Some result
    ∧ descendants_inv s nodeId maxDepth filterFn ∅
        {| descendants := result; d_visited := visited; stack := [] |}.
Proof.
  apply getDescendants_loop_inv; cbn [descendants d_visited stack].
  - pose proof (size_list_to_set_le (id <$> objs s)) as Hle.
    rewrite length_fmap in Hle.
    assert (size (list_to_set (id <$> objs s) ∖ {[ nodeId ]} : gset string)
            ≤ size (list_to_set (id <$> objs s) : gset string))
      by (apply subseteq_size; set_solver).
    simpl. lia.
  - constructor; cbn [descendants d_visited stack].
    + constructor.
    + intros r Hr. by apply elem_of_nil in Hr.
    + set_solver.
    + intros i Hi. apply elem_of_singleton in Hi as ->. constructor.
    + intros e He. apply list_elem_of_singleton in He as ->. set_solver.
    + intros _ i Hi. left. simpl. set_solver.
    + intros _ i Hi. left. set_solver.
Qed.

End Descendants.

(** X15.  [getDescendants] returns on every store, whatever cycles the
    [children] arrays form.  The ids of the nodes it returns are
    pairwise distinct and none is the start id; every returned node
    passes [filterFn] and is reachable from the start id along
    [children] arrays of registered nodes. *)
Theorem getDescendants_sound (s : FamilyTree) (nodeId : string)
    (maxDepth : option Q) (filterFn : option (ref → bool)) :
  ∃ result,
    getDescendants nodeId maxDepth filterFn s = Some result
    ∧ NoDup (id_of (objs s) <$> result)
    ∧ (nodeId ∉ id_of (objs s) <$> result)
    ∧ ∀ r, r ∈ result →
        passes filterFn r = true ∧ reaches s nodeId (id_of (objs s) r).
Proof.
  destruct (getDescendants_inv s nodeId maxDepth filterFn)
    as (result & visited & Hres & [Hnd Hmarked Hstart Hreach _ _ _]).
  cbn [descendants d_visited stack] in *.
  exists result. split; [done|]. split; [done|]. split.
  - intros Hin. apply list_elem_of_fmap in Hin as (r & Hr & Hrin).
    destruct (Hmarked r Hrin) as (_ & _ & Hne). by apply Hne.
  - intros r Hr. destruct (Hmarked r Hr) as (Hv & Hp & _).
    split; [done|]. by apply Hreach.
Qed.

(** X16.  Without options [getDescendants] returns exactly the
    descendants: an id is carried by a returned node if and only if it
    is not the start id and is reachable from it along [children]
    arrays of registered nodes. *)
Theorem getDescendants_complete (s : FamilyTree) (nodeId : string) :
  ∃ result,
    getDescendants nodeId None None s = Some result
    ∧ ∀ i, i ∈ id_of (objs s) <$> result ↔ reaches s nodeId i ∧ i ≠ nodeId.
Proof.
  destruct (getDescendants_inv s nodeId None None)
    as (result & visited & Hres & [Hnd Hmarked Hstart Hreach _ Hclosed Hlisted]).
  cbn [descendants d_visited stack] in *.
  exists result. split; [done|]. intros i. split.
  - intros Hin. apply list_elem_of_fmap in Hin as (r & -> & Hrin).
    destruct (Hmarked r Hrin) as (Hv & _ & Hne). split; [by apply Hreach|done].
  - intros [Hr Hne].
    assert (Hvis : i ∈ visited).
    { clear Hne. induction Hr as [|i node n child Hr IH Hnode Hn Hchild Hid].
      - done.
      - destruct (Hclosed eq_refl i IH) as [H1|[H1|H1]].
        + simpl in H1. by apply elem_of_nil in H1.
        + set_solver.
        + by apply (H1 node n child). }
    destruct (Hlisted eq_refl i Hvis) as [?|?]; done.
Qed.

End QueryFacts.

(** ** The updates of the store *)
Module UpdateFacts.
Import Store JsMapFacts ListFacts.

(** *** What an update keeps *)

Lemma keeps_refl {A} (proj : TreeNode → A) (h : list TreeNode) : keeps proj h h.
Proof. by intros r. Qed.

Lemma keeps_trans {A} (proj : TreeNode → A) (h1 h2 h3 : list TreeNode) :
  keeps proj h1 h2 → keeps proj h2 h3 → keeps proj h1 h3.
Proof. intros H12 H23 r. by rewrite H23, H12. Qed.

Lemma keeps_upd {A} (proj : TreeNode → A) (f : TreeNode → TreeNode) (r : ref)
    (h : list TreeNode) :
  (∀ n, proj (f n) = proj n) → keeps proj h (upd f r h).
Proof.
  intros Hf r'. unfold upd. destruct (decide (r = r')) as [->|Hne].
  - rewrite list_lookup_alter_eq. destruct (h !! r'); simpl; [|done]. by rewrite Hf.
  - by rewrite list_lookup_alter_ne.
Qed.

Lemma keeps_foldl {A B} (proj : TreeNode → A) (step : list TreeNode → B → list TreeNode)
    (l : list B) (h : list TreeNode) :
  (∀ h' b, keeps proj h' (step h' b)) → keeps proj h (foldl step h l).
Proof.
  intros Hstep. revert h. induction l as [|b l IH]; intros h; [apply keeps_refl|].
  simpl. eapply keeps_trans; [apply Hstep|apply IH].
Qed.

Lemma keeps_id_of (h h' : list TreeNode) (r : ref) :
  keeps id h h' → id_of h' r = id_of h r.
Proof.
  intros Hk. unfold id_of. specialize (Hk r).
  destruct (h' !! r), (h !! r); simpl in *; congruence.
Qed.

Lemma keeps_lookup {A} (proj : TreeNode → A) (h h' : list TreeNode) (r : ref)
    (n : TreeNode) :
  keeps proj h h' → h !! r = Some n → ∃ n', h' !! r = Some n' ∧ proj n' = proj n.
Proof.
  intros Hk Hn. specialize (Hk r). rewrite Hn in Hk.
  destruct (h' !! r) as [n'|]; simpl in Hk; [|done]. exists n'. split; [done|congruence].
Qed.

(** The three passes of [addNode] over the relations of the new node
    [r]: each keeps what its writes do not touch. *)
Lemma addNode_partners_keeps {A} (proj : TreeNode → A) (reg : list (string * ref))
    (i : string) (r : ref) (ps : list ref) (h : list TreeNode) :
  (∀ c n, proj (push_partner c n) = proj n) →
  keeps proj h
    (foldl (λ h partner,
              match JsMap.get (id_of h partner) reg with
              | Some pn =>
                  let h' := upd (push_partner pn) r h in
                  if js_not (partners_some_id h' i pn)
                  then upd (push_partner r) pn h' else h'
              | None => h
              end) h ps).
Proof.
  intros Hproj. apply keeps_foldl. intros h' partner.
  destruct (JsMap.get _ reg) as [pn|]; [|apply keeps_refl]. simpl.
  destruct (js_not _).
  - eapply keeps_trans; apply keeps_upd; intros; apply Hproj.
  - apply keeps_upd. intros; apply Hproj.
Qed.

Lemma addNode_children_keeps {A} (proj : TreeNode → A) (reg : list (string * ref))
    (r : ref) (cs : list ref) (h : list TreeNode) :
  (∀ c n, proj (push_child c n) = proj n) →
  (∀ c n, proj (set_parent c n) = proj n) →
  keeps proj h
    (foldl (λ h child,
              match JsMap.get (id_of h child) reg with
              | Some cn => upd (set_parent (Some r)) cn (upd (push_child cn) r h)
              | None => h
              end) h cs).
Proof.
  intros Hpush Hset. apply keeps_foldl. intros h' child.
  destruct (JsMap.get _ reg) as [cn|]; [|apply keeps_refl].
  eapply keeps_trans; apply keeps_upd; intros; [apply Hpush|apply Hset].
Qed.

Lemma addNode_keeps_data (d : NodeData) (s : FamilyTree) :
  keeps data
    (objs s ++ [ {| id := d_id d; label := d_label d; parent := d_parent d;
                    partners := Some []; children := Some [];
                    coParentId := d_coParentId d; image := d_image d |} ])
    (objs (addNode d s).2).
Proof.
  unfold addNode. cbn [snd objs].
  eapply keeps_trans; [|by apply addNode_children_keeps].
  eapply keeps_trans; [|by apply addNode_partners_keeps].
  destruct (d_parent d) as [p|]; [|apply keeps_refl].
  destruct (truthy_str _); [|apply keeps_refl].
  destruct (JsMap.get _ _) as [pn|]; [|apply keeps_refl].
  eapply keeps_trans; by apply keeps_upd.
Qed.

(** X17.  [addNode] and [getNode] round-trip: the node [addNode]
    returns is a fresh object, registered under its id whether or not
    the id was in use, carrying the id, label, co-parent id and image of
    the input; every other id resolves as before; and every object that
    existed keeps its id, label, co-parent id and image: [addNode]
    writes relations only. *)
Theorem addNode_registers (d : NodeData) (s : FamilyTree) :
  (addNode d s).1 = length (objs s)
  ∧ getNode (d_id d) (addNode d s).2 = Some (addNode d s).1
  ∧ (∀ j, j ≠ d_id d → getNode j (addNode d s).2 = getNode j s)
  ∧ data <$> objs (addNode d s).2 !! (addNode d s).1
    = Some (d_id d, d_label d, d_coParentId d, d_image d)
  ∧ (∀ r n, objs s !! r = Some n →
       data <$> objs (addNode d s).2 !! r = Some (data n))
  ∧ length (objs (addNode d s).2) = S (length (objs s)).
Proof.
  pose proof (addNode_keeps_data d s) as Hk.
  split; [done|]. change ((addNode d s).1) with (length (objs s)).
  split; [apply get_set_eq|].
  split; [intros j Hj; apply get_set_ne; congruence|].
  split; [|split].
  - rewrite (Hk (length (objs s))). by rewrite lookup_app_r, Nat.sub_diag.
  - intros r n Hn. rewrite (Hk r).
    rewrite lookup_app_l by (by eapply lookup_lt_Some). by rewrite Hn.
  - assert (Hlen : ∀ h h' : list TreeNode, keeps data h h' → length h' = length h).
    { intros h h' Hkk. destruct (Nat.lt_trichotomy (length h') (length h))
        as [Hlt|[Heq|Hgt]]; [|done|].
      - specialize (Hkk (length h')). rewrite (lookup_ge_None_2 h') in Hkk by lia.
        destruct (lookup_lt_is_Some_2 h (length h') Hlt) as [n Hn].
        by rewrite Hn in Hkk.
      - specialize (Hkk (length h)). rewrite (lookup_ge_None_2 h) in Hkk by lia.
        destruct (lookup_lt_is_Some_2 h' (length h) Hgt) as [n Hn].
        by rewrite Hn in Hkk. }
    rewrite (Hlen _ _ Hk), length_app. simpl. lia.
Qed.

(** X18.  [addNode] with a registered parent links both ways: when the
    input names as [parent] an object whose id is registered (and is not
    the new id), and gives no children, the new node's [parent] is the
    registered node of that id, that node's [children] array gains the
    new node at its end, and its own [parent] is untouched. *)
Theorem addNode_links_parent (d : NodeData) (s : FamilyTree) (p pn : ref)
    (n0 np : TreeNode) (cs : list ref) :
  d_parent d = Some p →
  objs s !! p = Some n0 →
  id n0 ≠ "" →
  id n0 ≠ d_id d →
  getNode (id n0) s = Some pn →
  objs s !! pn = Some np →
  children np = Some cs →
  default [] (d_children d) = [] →
  parent <$> objs (addNode d s).2 !! (addNode d s).1 = Some (Some pn)
  ∧ children <$> objs (addNode d s).2 !! pn = Some (Some (cs ++ [(addNode d s).1]))
  ∧ parent <$> objs (addNode d s).2 !! pn = Some (parent np).
Proof.
  intros Hp Hn0 Hne Hnew Hpn Hnp Hcs Hch.
  assert (Hplt : p < length (objs s)) by (by eapply lookup_lt_Some).
  assert (Hpnlt : pn < length (objs s)) by (by eapply lookup_lt_Some).
  unfold addNode. cbn [fst snd objs]. rewrite Hch, Hp. cbn [foldl].
  set (newNode := {| id := d_id d; label := d_label d; parent := Some p;
                     partners := Some []; children := Some [];
                     coParentId := d_coParentId d; image := d_image d |}).
  assert (Hid : id_of (objs s ++ [newNode]) p = id n0).
  { unfold id_of. by rewrite lookup_app_l, Hn0. }
  rewrite Hid. unfold truthy_str.
  apply String.eqb_neq in Hne. rewrite Hne. simpl.
  unfold getNode in Hpn. rewrite get_set_ne by congruence. rewrite Hpn.
  pose proof (addNode_partners_keeps (λ n, (parent n, children n))
                (JsMap.set (d_id d) (length (objs s)) (nodes s)) (d_id d)
                (length (objs s)) (default [] (d_partners d))
                (upd (set_parent (Some pn)) (length (objs s))
                   (upd (push_child (length (objs s))) pn (objs s ++ [newNode])))
                (λ _ _, eq_refl)) as Hk.
  assert (Hnewobj : upd (set_parent (Some pn)) (length (objs s))
                      (upd (push_child (length (objs s))) pn (objs s ++ [newNode]))
                    !! length (objs s) = Some (set_parent (Some pn) newNode)).
  { unfold upd. rewrite list_lookup_alter_eq, list_lookup_alter_ne by lia.
    by rewrite lookup_app_r, Nat.sub_diag. }
  assert (Hpnobj : upd (set_parent (Some pn)) (length (objs s))
                     (upd (push_child (length (objs s))) pn (objs s ++ [newNode]))
                   !! pn = Some (push_child (length (objs s)) np)).
  { unfold upd. rewrite list_lookup_alter_ne, list_lookup_alter_eq by lia.
    by rewrite lookup_app_l, Hnp. }
  pose proof (Hk (length (objs s))) as Hk1. rewrite Hnewobj in Hk1.
  pose proof (Hk pn) as Hk2. rewrite Hpnobj in Hk2.
  match goal with
  | |- context [foldl ?f ?h0 ?l] => destruct (foldl f h0 l !! length (objs s)) as [n1|];
                                    destruct (foldl f h0 l !! pn) as [n2|]
  end; simpl in *; try done.
  injection Hk1 as Hk1a Hk1b. injection Hk2 as Hk2a Hk2b.
  rewrite Hk1a, Hk2a, Hk2b, Hcs. done.
Qed.

Lemma addNode_links_parent_witness :
  parent <$> objs (addNode (mkNodeData "d" "D" None None (Some 0) None None)
                     sample_store).2 !! 2 = Some (Some 0)
  ∧ children <$> objs (addNode (mkNodeData "d" "D" None None (Some 0) None None)
                         sample_store).2 !! 0 = Some (Some ([1] ++ [2])).
Proof.
  pose proof (addNode_links_parent (mkNodeData "d" "D" None None (Some 0) None None)
                sample_store 0 0
                (mkTreeNode "p" "P" None (Some []) (Some [1]) None None)
                (mkTreeNode "p" "P" None (Some []) (Some [1]) None None) [1]
                eq_refl eq_refl) as H.
  destruct H as (H1 & H2 & _); try reflexivity; try (vm_compute; discriminate).
  exact (conj H1 H2).
Defined.

(** *** Partner links *)

Lemma partners_grow_refl (h : list TreeNode) : partners_grow h h.
Proof.
  split; [apply keeps_refl|]. intros r n l Hn Hl. exists n, [].
  by rewrite app_nil_r.
Qed.

Lemma partners_grow_trans (h1 h2 h3 : list TreeNode) :
  partners_grow h1 h2 → partners_grow h2 h3 → partners_grow h1 h3.
Proof.
  intros [Hk12 Hg12] [Hk23 Hg23]. split; [by eapply keeps_trans|].
  intros r n l Hn Hl. destruct (Hg12 r n l Hn Hl) as (n2 & l2 & Hn2 & Hl2).
  destruct (Hg23 r n2 _ Hn2 Hl2) as (n3 & l3 & Hn3 & Hl3).
  exists n3, (l2 ++ l3). by rewrite app_assoc.
Qed.

Lemma partners_grow_push (c r : ref) (h : list TreeNode) :
  partners_grow h (upd (push_partner c) r h).
Proof.
  split; [by apply keeps_upd|]. intros r' n l Hn Hl. unfold upd.
  destruct (decide (r = r')) as [->|Hne].
  - exists (push_partner c n), [c]. rewrite list_lookup_alter_eq, Hn. simpl.
    by rewrite Hl.
  - exists n, []. rewrite list_lookup_alter_ne by done. by rewrite app_nil_r.
Qed.

Lemma partners_grow_keeps (h h' : list TreeNode) :
  keeps (λ n, (id n, partners n)) h h' → partners_grow h h'.
Proof.
  intros Hk. split.
  - intros r. specialize (Hk r). destruct (h' !! r), (h !! r); simpl in *; congruence.
  - intros r n l Hn Hl. specialize (Hk r). rewrite Hn in Hk.
    destruct (h' !! r) as [n'|]; simpl in Hk; [|done].
    exists n', []. split; [done|]. rewrite app_nil_r. congruence.
Qed.

Lemma partners_grow_foldl {B} (step : list TreeNode → B → list TreeNode)
    (l : list B) (h : list TreeNode) :
  (∀ h' b, partners_grow h' (step h' b)) → partners_grow h (foldl step h l).
Proof.
  intros Hstep. revert h. induction l as [|b l IH]; intros h; [apply partners_grow_refl|].
  simpl. eapply partners_grow_trans; [apply Hstep|apply IH].
Qed.

Lemma lists_partner_grow (h h' : list TreeNode) (a b : ref) :
  partners_grow h h' → lists_partner h a b → lists_partner h' a b.
Proof.
  intros [_ Hg] (n & l & Hn & Hl & Hb).
  destruct (Hg a n l Hn Hl) as (n' & l' & Hn' & Hl').
  exists n', (l ++ l'). split; [done|]. split; [done|]. apply elem_of_app. by left.
Qed.

Lemma lists_partner_id_grow (h h' : list TreeNode) (a : ref) (i : string) :
  partners_grow h h' → lists_partner_id h a i → lists_partner_id h' a i.
Proof.
  intros [Hk Hg] (n & l & q & Hn & Hl & Hq & Hid).
  destruct (Hg a n l Hn Hl) as (n' & l' & Hn' & Hl').
  exists n', (l ++ l'), q. split; [done|]. split; [done|].
  split; [apply elem_of_app; by left|]. by rewrite (keeps_id_of h h').
Qed.

(** One turn of the partner loop of [addNode]. *)
Lemma addNode_partner_step_grow (reg : list (string * ref)) (i : string) (r : ref)
    (h : list TreeNode) (partner : ref) :
  partners_grow h
    (match JsMap.get (id_of h partner) reg with
     | Some pn =>
         let h' := upd (push_partner pn) r h in
         if js_not (partners_some_id h' i pn) then upd (push_partner r) pn h' else h'
     | None => h
     end).
Proof.
  destruct (JsMap.get _ reg) as [pn|]; [|apply partners_grow_refl]. simpl.
  destruct (js_not _).
  - eapply partners_grow_trans; apply partners_grow_push.
  - apply partners_grow_push.
Qed.

(** The check-and-push that makes a link mutual: afterwards [a] lists
    an object of id [i], which is [b]'s id. *)
Lemma push_unless_listed (h : list TreeNode) (a b : ref) (i : string)
    (n : TreeNode) (l : list ref) :
  h !! a = Some n → partners n = Some l → id_of h b = i →
  lists_partner_id
    (if js_not (partners_some_id h i a) then upd (push_partner b) a h else h) a i.
Proof.
  intros Hn Hl Hid. unfold partners_some_id. rewrite Hn, Hl. simpl.
  destruct (existsb _ l) eqn:Hex; simpl.
  - apply existsb_exists in Hex as (q & Hq & Hqid).
    apply bool_decide_eq_true in Hqid.
    exists n, l, q. split; [done|]. split; [done|].
    split; [by apply list_elem_of_In|done].
  - exists (push_partner b n), (l ++ [b]), b. unfold upd.
    rewrite list_lookup_alter_eq, Hn. simpl. rewrite Hl.
    split; [done|]. split; [done|]. split; [apply elem_of_app; right; left|].
    rewrite (keeps_id_of h); [done|]. by apply keeps_upd.
Qed.

(** X19.  [addNode] makes partner links mutual: for every object of
    the input's [partners] whose id is registered (and is not the new
    id) to a node that has a [partners] array, after the call the new
    node's [partners] holds that registered node, and that node's
    [partners] holds an object with the new id. *)
Theorem addNode_partners_mutual (d : NodeData) (s : FamilyTree) (partner pn : ref)
    (n0 np : TreeNode) (l : list ref) :
  partner ∈ default [] (d_partners d) →
  objs s !! partner = Some n0 →
  id n0 ≠ d_id d →
  getNode (id n0) s = Some pn →
  objs s !! pn = Some np →
  partners np = Some l →
  lists_partner (objs (addNode d s).2) (addNode d s).1 pn
  ∧ lists_partner_id (objs (addNode d s).2) pn (d_id d).
Proof.
  intros Hin Hn0 Hnew Hpn Hnp Hl.
  assert (Hpnlt : pn < length (objs s)) by (by eapply lookup_lt_Some).
  unfold addNode. cbn [fst snd objs].
  set (r := length (objs s)).
  set (reg := JsMap.set (d_id d) r (nodes s)).
  set (newNode := {| id := d_id d; label := d_label d; parent := d_parent d;
                     partners := Some []; children := Some [];
                     coParentId := d_coParentId d; image := d_image d |}).
  set (h0 := objs s ++ [newNode]).
  match goal with
  | |- context [foldl _ (foldl ?f ?h ?ps) ?cs] => set (h1 := h); set (step := f)
  end.
  assert (H01 : partners_grow h0 h1).
  { apply partners_grow_keeps. unfold h1.
    destruct (d_parent d) as [p|]; [|apply keeps_refl].
    destruct (truthy_str _); [|apply keeps_refl].
    destruct (JsMap.get _ _) as [pn'|]; [|apply keeps_refl].
    eapply keeps_trans; by apply keeps_upd. }
  apply list_elem_of_split in Hin as (ps1 & ps2 & Hps). rewrite Hps.
  rewrite foldl_app. cbn [foldl].
  set (ha := foldl step h1 ps1).
  assert (H1a : partners_grow h1 ha).
  { apply partners_grow_foldl. intros h' b. apply addNode_partner_step_grow. }
  pose proof (partners_grow_trans _ _ _ H01 H1a) as H0a.
  assert (Hstepb : lists_partner (step ha partner) r pn
                   ∧ lists_partner_id (step ha partner) pn (d_id d)).
  { destruct H0a as [Hk Hg].
    destruct (Hg r newNode [] ) as (nr & lr & Hnr & Hlr);
      [unfold h0, r; by rewrite lookup_app_r, Nat.sub_diag|done|].
    destruct (Hg pn np l) as (np' & lp & Hnp' & Hlp);
      [unfold h0; by rewrite lookup_app_l, Hnp|done|].
    simpl in Hlr.
    assert (Hidp : id_of ha partner = id n0).
    { rewrite (keeps_id_of h0 ha _ Hk). unfold id_of, h0.
      rewrite lookup_app_l by (by eapply lookup_lt_Some). by rewrite Hn0. }
    assert (Hidr : id_of ha r = d_id d).
    { rewrite (keeps_id_of h0 ha _ Hk). unfold id_of, h0, r.
      by rewrite lookup_app_r, Nat.sub_diag. }
    unfold step. rewrite Hidp. unfold reg. unfold getNode in Hpn.
    rewrite get_set_ne by congruence. rewrite Hpn. cbn zeta.
    set (h' := upd (push_partner pn) r ha).
    assert (Hr' : lists_partner h' r pn).
    { exists (push_partner pn nr), (lr ++ [pn]). unfold h', upd.
      rewrite list_lookup_alter_eq, Hnr. simpl. rewrite Hlr.
      split; [done|]. split; [done|]. apply elem_of_app. right. left. }
    assert (Hpn' : h' !! pn = Some np').
    { unfold h', upd, r. rewrite list_lookup_alter_ne by lia. done. }
    assert (Hidr' : id_of h' r = d_id d).
    { rewrite (keeps_id_of ha); [done|]. by apply keeps_upd. }
    split.
    - destruct (js_not _); [|done].
      eapply lists_partner_grow; [apply partners_grow_push|done].
    - by apply (push_unless_listed h' pn r (d_id d) np' (l ++ lp)). }
  destruct Hstepb as [Hb1 Hb2].
  set (hb := step ha partner) in *.
  assert (Hbc : partners_grow hb (foldl step hb ps2)).
  { apply partners_grow_foldl. intros h' b. apply addNode_partner_step_grow. }
  match goal with
  | |- context [foldl ?f (foldl step hb ps2) ?cs] =>
      assert (Hcd : partners_grow (foldl step hb ps2) (foldl f (foldl step hb ps2) cs))
  end.
  { apply partners_grow_keeps. by apply addNode_children_keeps. }
  pose proof (partners_grow_trans _ _ _ Hbc Hcd) as Hbd.
  split.
  - by eapply lists_partner_grow.
  - by eapply lists_partner_id_grow.
Qed.

Lemma addNode_partners_mutual_witness :
  lists_partner
    (objs (addNode (mkNodeData "q" "Q" None None None (Some [1]) None) sample_store).2)
    (addNode (mkNodeData "q" "Q" None None None (Some [1]) None) sample_store).1 1
  ∧ lists_partner_id
      (objs (addNode (mkNodeData "q" "Q" None None None (Some [1]) None) sample_store).2)
      1 "q".
Proof.
  assert (Hin : 1 ∈ default [] (Some [1])) by (simpl; left).
  apply (addNode_partners_mutual (mkNodeData "q" "Q" None None None (Some [1]) None)
           sample_store 1 1
           (mkTreeNode "c" "C" (Some 0) (Some []) (Some []) None None)
           (mkTreeNode "c" "C" (Some 0) (Some []) (Some []) None None) [] Hin);
    try reflexivity. vm_compute. discriminate.
Defined.

(** *** [addParent], accepted *)

(** The store after the first step of [addParent]: the parent node is
    the registered one, or a fresh node registered last. *)
Lemma addParent_parent_node (s : FamilyTree) (pd : NodeInput) :
  ∃ pr s1,
    match JsMap.get (i_id pd) (nodes s) with
    | Some p => (p, s)
    | None => addNode (spread pd) s
    end = (pr, s1)
    ∧ getNode (i_id pd) s1 = Some pr
    ∧ (∀ j, j ≠ i_id pd → getNode j s1 = getNode j s)
    ∧ (∀ r n, objs s !! r = Some n → objs s1 !! r = Some n)
    ∧ ((getNode (i_id pd) s = Some pr ∧ s1 = s)
       ∨ (getNode (i_id pd) s = None ∧ pr = length (objs s)
          ∧ objs s1 !! pr = Some {| id := i_id pd; label := i_label pd; parent := None;
                                    partners := Some []; children := Some [];
                                    coParentId := i_coParentId pd;
                                    image := i_image pd |}
          ∧ length (objs s1) = S (length (objs s)))).
Proof.
  unfold getNode. destruct (JsMap.get (i_id pd) (nodes s)) as [p|] eqn:Hp.
  - exists p, s. split; [done|]. split; [done|]. split; [done|]. split; [done|].
    by left.
  - rewrite StoreFacts.addNode_spread. eexists _, _. split; [done|].
    cbn [objs nodes]. split; [apply get_set_eq|].
    split; [intros j Hj; apply get_set_ne; congruence|].
    split; [intros r n Hn; rewrite lookup_app_l; [done|by eapply lookup_lt_Some]|].
    right. split; [done|]. split; [done|].
    split; [by rewrite lookup_app_r, Nat.sub_diag|].
    rewrite length_app. simpl. lia.
Qed.

(** X20.  [addParent] on a registered child without a parent and
    without co-parent data returns [true] and links both ways: the
    child's [parent] becomes the node registered under the parent id
    after the call (the node that was registered, or else a fresh one
    built from the parent data and registered last), that node's
    [children] array gains the child at its end, a node that was
    registered keeps its id, label, co-parent id and image whatever the
    parent data say, and every object other than the child and the
    parent is as before. *)
Theorem addParent_links (s : FamilyTree) (childId : string) (pd : NodeInput)
    (child : ref) (cn : TreeNode) :
  getNode childId s = Some child →
  objs s !! child = Some cn →
  parent cn = None →
  (addParent childId pd None s).1 = true
  ∧ ∃ pr,
      getNode (i_id pd) (addParent childId pd None s).2 = Some pr
      ∧ (getNode (i_id pd) s = Some pr
         ∨ (getNode (i_id pd) s = None ∧ pr = length (objs s)))
      ∧ parent <$> objs (addParent childId pd None s).2 !! child = Some (Some pr)
      ∧ (∀ np, objs s !! pr = Some np →
           children <$> objs (addParent childId pd None s).2 !! pr
           = Some ((λ l, l ++ [child]) <$> children np)
           ∧ data <$> objs (addParent childId pd None s).2 !! pr = Some (data np))
      ∧ (getNode (i_id pd) s = None →
           objs (addParent childId pd None s).2 !! pr
           = Some {| id := i_id pd; label := i_label pd; parent := None;
                     partners := Some []; children := Some [child];
                     coParentId := i_coParentId pd; image := i_image pd |})
      ∧ (∀ r n, r ≠ child → r ≠ pr → objs s !! r = Some n →
           objs (addParent childId pd None s).2 !! r = Some n).
Proof.
  intros Hchild Hcn Hnone.
  destruct (addParent_parent_node s pd) as (pr & s1 & Hs1 & Hpr & Hreg & Hold & Hcase).
  unfold addParent. unfold getNode in Hchild. rewrite Hchild, Hs1.
  rewrite (Hold child cn Hcn). simpl. rewrite Hnone. cbn [fst snd objs nodes].
  split; [done|]. exists pr. split; [done|].
  assert (Hclt : child < length (objs s)) by (by eapply lookup_lt_Some).
  unfold upd.
  destruct Hcase as [[Hp ->]|(Hp & -> & Hnew & Hlen)].
  - split; [by left|]. split.
    + destruct (decide (pr = child)) as [->|Hne].
      * rewrite !list_lookup_alter_eq, Hcn. done.
      * rewrite list_lookup_alter_ne, list_lookup_alter_eq, Hcn by done. done.
    + split; [|split].
      * intros np Hnp. rewrite list_lookup_alter_eq.
        destruct (decide (pr = child)) as [->|Hne].
        -- rewrite list_lookup_alter_eq, Hcn. simpl.
           rewrite Hcn in Hnp. injection Hnp as <-. done.
        -- rewrite list_lookup_alter_ne, Hnp by done. done.
      * intros Hno. congruence.
      * intros r n Hr1 Hr2 Hn. by rewrite !list_lookup_alter_ne.
  - split; [by right|]. split.
    + rewrite list_lookup_alter_ne, list_lookup_alter_eq by lia.
      by rewrite (Hold child cn Hcn).
    + split; [|split].
      * intros np Hnp. apply lookup_lt_Some in Hnp. lia.
      * intros _. rewrite list_lookup_alter_eq, list_lookup_alter_ne by lia.
        by rewrite Hnew.
      * intros r n Hr1 Hr2 Hn. rewrite !list_lookup_alter_ne by done.
        by apply Hold.
Qed.

Lemma addParent_links_witness :
  (addParent "p" (mkNodeInput "g" "G" None None) None sample_store).1 = true.
Proof.
  exact (proj1 (addParent_links sample_store "p" (mkNodeInput "g" "G" None None) 0
                  (mkTreeNode "p" "P" None (Some []) (Some [1]) None None)
                  eq_refl eq_refl eq_refl)).
Defined.

Lemma link_partner_grow (a b : ref) (h : list TreeNode) :
  partners_grow h (link_partner a b h).
Proof.
  unfold link_partner. destruct (js_not _); [apply partners_grow_push|].
  apply partners_grow_refl.
Qed.

(** X21.  [addParent] with co-parent data, on a registered child
    without a parent in a store whose objects all have a [partners]
    array, returns [true], makes the parent and the co-parent partners
    of each other (each lists an object with the other's id), and
    records the co-parent's id on the child. *)
Theorem addParent_links_co_parent (s : FamilyTree) (childId : string)
    (pd cd : NodeInput) (child : ref) (cn : TreeNode) :
  getNode childId s = Some child →
  objs s !! child = Some cn →
  parent cn = None →
  (∀ r n, objs s !! r = Some n → is_Some (partners n)) →
  (∀ i r, getNode i s = Some r → is_Some (objs s !! r)) →
  (addParent childId pd (Some cd) s).1 = true
  ∧ ∃ pr cp,
      getNode (i_id pd) (addParent childId pd (Some cd) s).2 = Some pr
      ∧ getNode (i_id cd) (addParent childId pd (Some cd) s).2 = Some cp
      ∧ lists_partner_id (objs (addParent childId pd (Some cd) s).2) pr
          (id_of (objs (addParent childId pd (Some cd) s).2) cp)
      ∧ lists_partner_id (objs (addParent childId pd (Some cd) s).2) cp
          (id_of (objs (addParent childId pd (Some cd) s).2) pr)
      ∧ coParentId <$> objs (addParent childId pd (Some cd) s).2 !! child
        = Some (Some (id_of (objs (addParent childId pd (Some cd) s).2) cp)).
Proof.
  intros Hchild Hcn Hnone Hparts Hregd.
  destruct (addParent_parent_node s pd) as (pr & s1 & Hs1 & Hpr & Hreg & Hold & Hcase).
  unfold addParent. unfold getNode in Hchild. rewrite Hchild, Hs1.
  rewrite (Hold child cn Hcn). simpl. rewrite Hnone.
  set (s2 := {| objs := upd (push_child child) pr
                          (upd (set_parent (Some pr)) child (objs s1));
                nodes := nodes s1 |}).
  (* the objects of [s1] and of [s2] all have a [partners] array, and
     the registry names objects only *)
  assert (Hparts1 : ∀ r n, objs s1 !! r = Some n → is_Some (partners n)).
  { destruct Hcase as [[_ ->]|(Hp & -> & Hnew & Hlen)]; [done|].
    intros r n Hn. destruct (decide (r < length (objs s))) as [Hlt|Hge].
    - destruct (lookup_lt_is_Some_2 _ _ Hlt) as [n' Hn'].
      rewrite (Hold r n' Hn') in Hn. injection Hn as <-. by eapply Hparts.
    - assert (r = length (objs s)) as ->.
      { apply lookup_lt_Some in Hn. lia. }
      rewrite Hnew in Hn. injection Hn as <-. by eexists. }
  assert (Hregd1 : ∀ i r, getNode i s1 = Some r → is_Some (objs s1 !! r)).
  { destruct Hcase as [[_ ->]|(Hp & -> & Hnew & Hlen)]; [done|].
    intros i r Hi. destruct (decide (i = i_id pd)) as [->|Hne].
    - rewrite Hpr in Hi. injection Hi as <-. by eexists.
    - rewrite Hreg in Hi by done. destruct (Hregd i r Hi) as [n Hn].
      exists n. by apply Hold. }
  assert (H12 : keeps (λ n, (id n, partners n)) (objs s1) (objs s2)).
  { unfold s2. cbn [objs]. eapply keeps_trans; by apply keeps_upd. }
  assert (Hparts2 : ∀ r n, objs s2 !! r = Some n → is_Some (partners n)).
  { intros r n Hn. specialize (H12 r). rewrite Hn in H12.
    destruct (objs s1 !! r) as [n1|] eqn:Hn1; simpl in H12; [|done].
    injection H12 as _ ->. by eapply Hparts1. }
  assert (Hregd2 : ∀ i r, getNode i s2 = Some r → is_Some (objs s2 !! r)).
  { intros i r Hi. destruct (Hregd1 i r Hi) as [n Hn].
    destruct (keeps_lookup _ _ _ r n H12 Hn) as (n' & Hn' & _). by eexists. }
  destruct (addParent_parent_node s2 cd) as (cp & s3 & Hs3 & Hcp & Hreg3 & Hold3 & Hcase3).
  change (nodes s2) with (nodes s1) in Hs3. fold s2. rewrite Hs3.
  cbn [fst snd objs nodes].
  split; [done|]. exists pr, cp.
  (* both nodes are objects of [s3], with a [partners] array *)
  assert (Hpr3 : ∃ n, objs s3 !! pr = Some n ∧ is_Some (partners n)).
  { destruct (Hregd2 (i_id pd) pr Hpr) as [n Hn]. exists n.
    split; [by apply Hold3|]. by eapply Hparts2. }
  assert (Hcp3 : ∃ n, objs s3 !! cp = Some n ∧ is_Some (partners n)).
  { destruct Hcase3 as [[Hc ->]|(Hc & -> & Hnew & Hlen)].
    - destruct (Hregd2 (i_id cd) cp Hc) as [n Hn]. exists n.
      split; [done|]. by eapply Hparts2.
    - eexists. split; [done|]. by eexists. }
  destruct Hpr3 as (npr & Hnpr & [lpr Hlpr]).
  destruct Hcp3 as (ncp & Hncp & [lcp Hlcp]).
  set (h2 := link_partner pr cp (objs s3)).
  set (h3 := link_partner cp pr h2).
  set (h4 := upd (set_coParentId (Some (id_of h3 cp))) child h3).
  pose proof (link_partner_grow pr cp (objs s3)) as H32. fold h2 in H32.
  pose proof (link_partner_grow cp pr h2) as H23. fold h3 in H23.
  assert (H34 : partners_grow h3 h4).
  { apply partners_grow_keeps. by apply keeps_upd. }
  assert (Hid4 : ∀ r, id_of h4 r = id_of h3 r).
  { intros r. apply keeps_id_of. by apply H34. }
  assert (Hid3 : ∀ r, id_of h3 r = id_of h2 r).
  { intros r. apply keeps_id_of. by apply H23. }
  assert (Hid2 : ∀ r, id_of h2 r = id_of (objs s3) r).
  { intros r. apply keeps_id_of. by apply H32. }
  split.
  { unfold getNode in *. cbn [nodes] in *.
    destruct (decide (i_id pd = i_id cd)) as [Heq|Hne].
    - rewrite Heq in *.
      destruct Hcase3 as [[Hc ->]|(Hc & _)]; change (nodes s2) with (nodes s1) in *;
        congruence.
    - rewrite Hreg3 by done. done. }
  split; [done|].
  assert (Hl2 : lists_partner_id h2 pr (id_of (objs s3) cp)).
  { by apply (push_unless_listed (objs s3) pr cp _ npr lpr). }
  destruct (proj2 H32 cp ncp lcp Hncp Hlcp) as (ncp2 & lcp2 & Hncp2 & Hlcp2).
  assert (Hl3 : lists_partner_id h3 cp (id_of h2 pr)).
  { by apply (push_unless_listed h2 cp pr _ ncp2 (lcp ++ lcp2)). }
  split; [|split].
  - rewrite Hid4, Hid3, Hid2.
    eapply lists_partner_id_grow; [exact H34|].
    eapply lists_partner_id_grow; [exact H23|done].
  - rewrite Hid4, Hid3.
    eapply lists_partner_id_grow; [exact H34|done].
  - rewrite Hid4. unfold h4, upd.
    assert (Hc3 : is_Some (h3 !! child)).
    { pose proof (Hold child cn Hcn) as Hc1.
      destruct (keeps_lookup _ _ _ child cn H12 Hc1) as (c2 & Hc2 & _).
      pose proof (Hold3 child c2 Hc2) as Hc3.
      destruct (keeps_lookup _ _ _ child c2 (proj1 H32) Hc3) as (c4 & Hc4 & _).
      destruct (keeps_lookup _ _ _ child c4 (proj1 H23) Hc4) as (c5 & Hc5 & _).
      by eexists. }
    destruct Hc3 as [c3 Hc3]. by rewrite list_lookup_alter_eq, Hc3.
Qed.

Lemma addParent_links_co_parent_witness :
  (addParent "p" (mkNodeInput "g" "G" None None) (Some (mkNodeInput "h" "H" None None))
     sample_store).1 = true.
Proof.
  assert (Hparts : ∀ r n, objs sample_store !! r = Some n → is_Some (partners n)).
  { intros [|[|r]] n Hn; simpl in Hn; try done; injection Hn as <-; by eexists. }
  assert (Hregd : ∀ i r, getNode i sample_store = Some r →
                         is_Some (objs sample_store !! r)).
  { intros i r Hi. unfold getNode in Hi. simpl in Hi.
    repeat case_decide; try done; injection Hi as <-; by eexists. }
  exact (proj1 (addParent_links_co_parent sample_store "p"
                  (mkNodeInput "g" "G" None None) (mkNodeInput "h" "H" None None) 0
                  (mkTreeNode "p" "P" None (Some []) (Some [1]) None None)
                  eq_refl eq_refl eq_refl Hparts Hregd)).
Defined.


(** *** [removeNode] *)

Lemma delete_get_eq {V} (k : string) (m : list (string * V)) :
  NoDup m.*1 → JsMap.get k (JsMap.delete k m) = None.
Proof.
  induction m as [|[k0 v0] m IH]; simpl; [done|]. intros Hnd.
  apply NoDup_cons in Hnd as [Hk0 Hnd].
  destruct (decide (k0 = k)) as [->|Hne]; simpl.
  - destruct (JsMap.get k m) as [v|] eqn:Hget; [|done].
    apply get_Some_elem in Hget. destruct Hk0.
    apply list_elem_of_fmap. by exists (k, v).
  - rewrite decide_False by done. by apply IH.
Qed.

Lemma delete_get_ne {V} (k k' : string) (m : list (string * V)) :
  k ≠ k' → JsMap.get k' (JsMap.delete k m) = JsMap.get k' m.
Proof.
  intros Hne. induction m as [|[k0 v0] m IH]; simpl; [done|].
  destruct (decide (k0 = k)) as [->|Hne0]; simpl.
  - by rewrite decide_False.
  - destruct (decide (k0 = k')); [done|apply IH].
Qed.

Lemma delete_elem {V} (k k' : string) (v : V) (m : list (string * V)) :
  k ≠ k' → (k', v) ∈ m → (k', v) ∈ JsMap.delete k m.
Proof.
  intros Hne. induction m as [|[k0 v0] m IH]; simpl; [done|].
  intros Hin. apply elem_of_cons in Hin as [[= <- <-]|Hin].
  - rewrite decide_False by congruence. left.
  - destruct (decide (k0 = k)); [done|]. right. by apply IH.
Qed.

(** A loop that establishes a property at the turn of [b] and never
    breaks it. *)
Lemma foldl_establish {B} (step : list TreeNode → B → list TreeNode)
    (P Q : list TreeNode → Prop) (l : list B) (b : B) (h : list TreeNode) :
  b ∈ l → Q h →
  (∀ h' b', Q h' → Q (step h' b')) →
  (∀ h', Q h' → P (step h' b)) →
  (∀ h' b', Q h' → P h' → P (step h' b')) →
  P (foldl step h l).
Proof.
  intros Hb HQ HQstep Hest Hpres.
  apply list_elem_of_split in Hb as (l1 & l2 & ->).
  rewrite foldl_app. cbn [foldl].
  assert (HQ1 : Q (foldl step h l1)).
  { clear Hest Hpres. revert h HQ. induction l1 as [|a l1 IH]; intros h HQ; [done|].
    simpl. apply IH. by apply HQstep. }
  pose proof (Hest _ HQ1) as HP. pose proof (HQstep _ b HQ1) as HQ2.
  revert HP HQ2. generalize (step (foldl step h l1) b). intros h2 HP HQ2.
  revert h2 HP HQ2. induction l2 as [|a l2 IH]; intros h2 HP HQ2; [done|].
  simpl. apply IH; [by apply Hpres|by apply HQstep].
Qed.

Lemma unlink_from_parent_keeps {A} (proj : TreeNode → A) (reg : list (string * ref))
    (i : string) (node : ref) (h : list TreeNode) :
  (∀ h' n, proj (remove_child_id h' i n) = proj n) →
  keeps proj h (unlink_from_parent reg i node h).
Proof.
  intros Hproj. unfold unlink_from_parent.
  destruct (h !! node ≫= parent) as [p|]; [|apply keeps_refl].
  destruct (truthy_str _); [|apply keeps_refl].
  destruct (JsMap.get _ reg); [|apply keeps_refl].
  apply keeps_upd. apply Hproj.
Qed.

Lemma unlink_from_partners_keeps {A} (proj : TreeNode → A) (reg : list (string * ref))
    (i : string) (node : ref) (h : list TreeNode) :
  (∀ h' n, proj (remove_partner_id h' i n) = proj n) →
  keeps proj h (unlink_from_partners reg i node h).
Proof.
  intros Hproj. unfold unlink_from_partners. apply keeps_foldl. intros h' partner.
  destruct (JsMap.get _ reg); [|apply keeps_refl]. apply keeps_upd. apply Hproj.
Qed.

Lemma orphan_children_keeps {A} (proj : TreeNode → A) (reg : list (string * ref))
    (node : ref) (h : list TreeNode) :
  (∀ n, proj (set_parent None n) = proj n) →
  keeps proj h (orphan_children reg node h).
Proof.
  intros Hproj. unfold orphan_children. apply keeps_foldl. intros h' child.
  destruct (JsMap.get _ reg); [|apply keeps_refl]. by apply keeps_upd.
Qed.

(** Every child the removed node lists, if its id is registered, ends
    without a parent. *)
Lemma orphan_children_orphans (reg : list (string * ref)) (node : ref)
    (h : list TreeNode) (n : TreeNode) (child cnode : ref) :
  h !! node = Some n →
  child ∈ default [] (children n) →
  JsMap.get (id_of h child) reg = Some cnode →
  is_Some (h !! cnode) →
  parent <$> orphan_children reg node h !! cnode = Some None.
Proof.
  intros Hn Hchild Hget Hc. unfold orphan_children. rewrite Hn. simpl.
  apply (foldl_establish _ (λ h', parent <$> h' !! cnode = Some None)
           (λ h', keeps id h h' ∧ is_Some (h' !! cnode)) _ child).
  - done.
  - split; [apply keeps_refl|done].
  - intros h' b [Hk Hs]. destruct (JsMap.get (id_of h' b) reg) as [cn|]; [|done]. split.
    + eapply keeps_trans; [done|]. by apply keeps_upd.
    + destruct Hs as [m Hm].
      destruct (keeps_lookup id h' _ cnode m (keeps_upd id (set_parent None) cn h'
                                                 (λ _, eq_refl)) Hm) as (m' & Hm' & _).
      by eexists.
  - intros h' [Hk [m Hm]]. rewrite (keeps_id_of h h' _ Hk), Hget.
    unfold upd. by rewrite list_lookup_alter_eq, Hm.
  - intros h' b [Hk Hs] HP. destruct (JsMap.get (id_of h' b) reg) as [cn|]; [|done].
    unfold upd. destruct (decide (cn = cnode)) as [->|Hne].
    + rewrite list_lookup_alter_eq. by destruct (h' !! cnode).
    + by rewrite list_lookup_alter_ne.
Qed.

(** X22.  [removeNode] on a registered id returns [true] and takes the
    id out of a registry without repeated keys; every other id resolves
    as before; no object changes its id, label, co-parent id or image;
    and every child the node lists under another id that is registered
    to an object ends without a parent and is then among
    [getRootNodes()]. *)
Theorem removeNode_orphans_children (s : FamilyTree) (i : string) (node : ref)
    (n : TreeNode) :
  getNode i s = Some node →
  objs s !! node = Some n →
  NoDup (nodes s).*1 →
  (removeNode i s).1 = true
  ∧ getNode i (removeNode i s).2 = None
  ∧ (∀ j, j ≠ i → getNode j (removeNode i s).2 = getNode j s)
  ∧ keeps data (objs s) (objs (removeNode i s).2)
  ∧ ∀ child cnode,
      child ∈ default [] (children n) →
      id_of (objs s) child ≠ i →
      getNode (id_of (objs s) child) s = Some cnode →
      is_Some (objs s !! cnode) →
      parent <$> objs (removeNode i s).2 !! cnode = Some None
      ∧ cnode ∈ getRootNodes (removeNode i s).2.
Proof.
  intros Hnode Hn Hnd. unfold removeNode. unfold getNode in Hnode. rewrite Hnode.
  cbn [fst snd objs nodes]. unfold getNode. cbn [nodes].
  set (h1 := unlink_from_parent (nodes s) i node (objs s)).
  set (h2 := unlink_from_partners (nodes s) i node h1).
  set (h3 := orphan_children (nodes s) node h2).
  assert (H01 : ∀ A (proj : TreeNode → A),
            (∀ h' n, proj (remove_child_id h' i n) = proj n) → keeps proj (objs s) h1).
  { intros A proj Hp. by apply unlink_from_parent_keeps. }
  assert (H12 : ∀ A (proj : TreeNode → A),
            (∀ h' n, proj (remove_partner_id h' i n) = proj n) → keeps proj h1 h2).
  { intros A proj Hp. by apply unlink_from_partners_keeps. }
  assert (H23 : ∀ A (proj : TreeNode → A),
            (∀ n, proj (set_parent None n) = proj n) → keeps proj h2 h3).
  { intros A proj Hp. by apply orphan_children_keeps. }
  split; [done|]. split; [by apply delete_get_eq|].
  split; [intros j Hj; by apply delete_get_ne|].
  split.
  { eapply keeps_trans; [|by apply H23].
    eapply keeps_trans; [by apply H01|by apply H12]. }
  intros child cnode Hchild Hne Hget [m Hm].
  assert (Hid2 : ∀ r, id_of h2 r = id_of (objs s) r).
  { intros r. apply keeps_id_of.
    eapply keeps_trans; [by apply (H01 _ id)|by apply (H12 _ id)]. }
  (* the node still lists the child when the last pass starts *)
  assert (Hn2 : ∃ n2, h2 !! node = Some n2 ∧ child ∈ default [] (children n2)).
  { assert (Hn1 : ∃ n1, h1 !! node = Some n1 ∧ child ∈ default [] (children n1)).
    { unfold h1, unlink_from_parent.
      destruct (objs s !! node ≫= parent) as [p|]; [|by exists n].
      destruct (truthy_str _); [|by exists n].
      destruct (JsMap.get (id_of (objs s) p) (nodes s)) as [pnode|]; [|by exists n].
      unfold upd. destruct (decide (pnode = node)) as [->|Hpn].
      - exists (remove_child_id (objs s) i n).
        rewrite list_lookup_alter_eq, Hn. split; [done|]. simpl.
        destruct (children n) as [cs|]; simpl in *; [|done].
        apply elem_of_filter_bool. split; [|done].
        by apply negb_true_iff, String.eqb_neq.
      - exists n. by rewrite list_lookup_alter_ne. }
    destruct Hn1 as (n1 & Hn1 & Hc1).
    destruct (keeps_lookup children h1 h2 node n1 (H12 _ children (λ _ _, eq_refl)) Hn1)
      as (n2 & Hn2 & Hch). exists n2. split; [done|]. by rewrite Hch. }
  destruct Hn2 as (n2 & Hn2 & Hc2).
  assert (Hm2 : is_Some (h2 !! cnode)).
  { destruct (keeps_lookup id (objs s) h2 cnode m) as (m2 & Hm2 & _); [|done|by eexists].
    eapply keeps_trans; [by apply (H01 _ id)|by apply (H12 _ id)]. }
  assert (Hp3 : parent <$> h3 !! cnode = Some None).
  { apply (orphan_children_orphans (nodes s) node h2 n2 child cnode); try done.
    by rewrite Hid2. }
  split; [done|].
  unfold getRootNodes. cbn [objs nodes]. apply elem_of_filter_bool. split.
  - destruct (h3 !! cnode) as [m3|]; simpl in *; [|done].
    injection Hp3 as Hp3. unfold no_parent_id. by rewrite Hp3.
  - apply list_elem_of_fmap. exists (id_of (objs s) child, cnode). split; [done|].
    apply delete_elem; [congruence|]. by apply get_Some_elem.
Qed.

Lemma removeNode_orphans_children_witness :
  (removeNode "p" sample_store).1 = true
  ∧ getNode "p" (removeNode "p" sample_store).2 = None.
Proof.
  assert (Hnd : NoDup (nodes sample_store).*1)
    by (apply (bool_decide_unpack _); vm_compute; exact I).
  pose proof (removeNode_orphans_children sample_store "p" 0
                (mkTreeNode "p" "P" None (Some []) (Some [1]) None None)
                eq_refl eq_refl Hnd) as (H1 & H2 & _).
  exact (conj H1 H2).
Defined.

(** X23.  After [removeNode] the node is listed nowhere it was linked
    from: the registered node that carries the id of its [parent] has
    no child of the removed id left, and every registered node that
    carries the id of one of its [partners] has no partner of the
    removed id left. *)
Theorem removeNode_unlinks (s : FamilyTree) (i : string) (node : ref) (n : TreeNode) :
  getNode i s = Some node →
  objs s !! node = Some n →
  (∀ p pnode np' c,
     parent n = Some p →
     id_of (objs s) p ≠ "" →
     getNode (id_of (objs s) p) s = Some pnode →
     objs (removeNode i s).2 !! pnode = Some np' →
     c ∈ default [] (children np') →
     id_of (objs (removeNode i s).2) c ≠ i)
  ∧ (∀ partner pn np' q,
       partner ∈ default [] (partners n) →
       getNode (id_of (objs s) partner) s = Some pn →
       objs (removeNode i s).2 !! pn = Some np' →
       q ∈ default [] (partners np') →
       id_of (objs (removeNode i s).2) q ≠ i).
Proof.
  intros Hnode Hn. unfold removeNode. unfold getNode in Hnode. rewrite Hnode.
  cbn [fst snd objs nodes]. unfold getNode.
  set (h1 := unlink_from_parent (nodes s) i node (objs s)).
  set (h2 := unlink_from_partners (nodes s) i node h1).
  set (h3 := orphan_children (nodes s) node h2).
  assert (H01 : ∀ A (proj : TreeNode → A),
            (∀ h' n, proj (remove_child_id h' i n) = proj n) → keeps proj (objs s) h1).
  { intros A proj Hp. by apply unlink_from_parent_keeps. }
  assert (H12 : ∀ A (proj : TreeNode → A),
            (∀ h' n, proj (remove_partner_id h' i n) = proj n) → keeps proj h1 h2).
  { intros A proj Hp. by apply unlink_from_partners_keeps. }
  assert (H23 : ∀ A (proj : TreeNode → A),
            (∀ n, proj (set_parent None n) = proj n) → keeps proj h2 h3).
  { intros A proj Hp. by apply orphan_children_keeps. }
  assert (Hid1 : ∀ r, id_of h1 r = id_of (objs s) r).
  { intros r. apply keeps_id_of. by apply (H01 _ id). }
  assert (Hid3 : ∀ r, id_of h3 r = id_of (objs s) r).
  { intros r. apply keeps_id_of.
    eapply keeps_trans; [|by apply (H23 _ id)].
    eapply keeps_trans; [by apply (H01 _ id)|by apply (H12 _ id)]. }
  split.
  - intros p pnode np' c Hp Hpid Hpn Hnp' Hc. rewrite Hid3.
    assert (H13 : keeps children h1 h3).
    { eapply keeps_trans; [by apply (H12 _ children)|by apply (H23 _ children)]. }
    specialize (H13 pnode). rewrite Hnp' in H13. simpl in H13.
    unfold h1, unlink_from_parent in H13. rewrite Hn in H13. simpl in H13.
    rewrite Hp in H13. unfold truthy_str in H13.
    apply String.eqb_neq in Hpid. rewrite Hpid in H13. simpl in H13.
    rewrite Hpn in H13. unfold upd in H13. rewrite list_lookup_alter_eq in H13.
    destruct (objs s !! pnode) as [np|]; simpl in H13; [|done].
    injection H13 as H13. rewrite H13 in Hc.
    destruct (children np) as [cs|]; simpl in Hc; [|by apply elem_of_nil in Hc].
    apply elem_of_filter_bool in Hc as [Hc _].
    by apply negb_true_iff, String.eqb_neq in Hc.
  - intros partner pn np' q Hpartner Hpn Hnp' Hq. rewrite Hid3.
    assert (Hn1 : default [] (h1 !! node ≫= partners) = default [] (partners n)).
    { destruct (keeps_lookup partners (objs s) h1 node n (H01 _ partners (λ _ _, eq_refl)) Hn)
        as (n1 & Hn1 & Hpartners). rewrite Hn1. simpl. by rewrite Hpartners. }
    assert (HP2 : ∀ np2 q2, h2 !! pn = Some np2 → q2 ∈ default [] (partners np2) →
                            id_of (objs s) q2 ≠ i).
    { unfold h2, unlink_from_partners. rewrite Hn1.
      apply (foldl_establish _
               (λ h', ∀ np2 q2, h' !! pn = Some np2 → q2 ∈ default [] (partners np2) →
                                id_of (objs s) q2 ≠ i)
               (λ h', keeps id (objs s) h') _ partner).
      - done.
      - by apply (H01 _ id).
      - intros h' b Hk. destruct (JsMap.get (id_of h' b) (nodes s)) as [x|]; [|done].
        eapply keeps_trans; [done|]. by apply keeps_upd.
      - intros h' Hk np2 q2. rewrite (keeps_id_of _ _ _ Hk), Hpn.
        unfold upd. rewrite list_lookup_alter_eq.
        destruct (h' !! pn) as [m|]; simpl; [|done]. intros [= <-]. simpl.
        destruct (partners m) as [ps|]; simpl; [|by intros ?%elem_of_nil].
        intros [Hf _]%elem_of_filter_bool.
        apply negb_true_iff, String.eqb_neq in Hf. by rewrite <- (keeps_id_of _ _ _ Hk).
      - intros h' b Hk HP np2 q2.
        destruct (JsMap.get (id_of h' b) (nodes s)) as [x|]; [|apply HP].
        unfold upd. destruct (decide (x = pn)) as [->|Hne].
        + rewrite list_lookup_alter_eq.
          destruct (h' !! pn) as [m|]; simpl; [|done]. intros [= <-]. simpl.
          destruct (partners m) as [ps|]; simpl; [|by intros ?%elem_of_nil].
          intros [Hf _]%elem_of_filter_bool.
          apply negb_true_iff, String.eqb_neq in Hf.
          by rewrite <- (keeps_id_of _ _ _ Hk).
        + rewrite list_lookup_alter_ne by done. apply HP. }
    pose proof (H23 _ partners (λ _, eq_refl) pn) as Hk3. rewrite Hnp' in Hk3.
    destruct (h2 !! pn) as [np2|] eqn:Hnp2; simpl in Hk3; [|done].
    injection Hk3 as Hk3. apply (HP2 np2 q eq_refl). by rewrite <- Hk3.
Qed.

Lemma removeNode_unlinks_witness :
  id_of (objs (removeNode "c" sample_store_two_children).2) 2 ≠ "c".
Proof.
  assert (Hin : 2 ∈ default [] (Some [2])) by (simpl; left).
  apply (proj1 (removeNode_unlinks sample_store_two_children "c" 1
                  (mkTreeNode "c" "C" (Some 0) (Some []) (Some []) None None)
                  eq_refl eq_refl) 0 0
               (mkTreeNode "p" "P" None (Some []) (Some [2]) None None) 2 eq_refl);
    [|reflexivity|reflexivity|exact Hin].
  vm_compute. discriminate.
Defined.

(** *** [updateNode] *)

Lemma change_parent_keeps {A} (proj : TreeNode → A) (reg : list (string * ref))
    (i : string) (node up : ref) (h : list TreeNode) :
  (∀ h' n, proj (remove_child_id h' i n) = proj n) →
  (∀ c n, proj (push_child c n) = proj n) →
  (∀ c n, proj (set_parent c n) = proj n) →
  keeps proj h (change_parent reg i node up h).
Proof.
  intros H1 H2 H3. unfold change_parent.
  destruct (bool_decide _); [|apply keeps_refl].
  eapply keeps_trans; [|by apply keeps_upd].
  eapply keeps_trans; [by apply unlink_from_parent_keeps|].
  destruct (truthy_str _); [|apply keeps_refl].
  destruct (JsMap.get _ reg); [|apply keeps_refl]. by apply keeps_upd.
Qed.

(** X29.  [updateNode] with a new parent moves the node: when the
    update names as [parent] an object whose non-empty id differs from
    the id of the node's parent and is registered to a node with a
    [children] array, and no [partners] are given, the call returns
    [true], the node's [parent] becomes the object it was given, the
    registered node of the new id gains the node at the end of its
    [children], the registered node of the old parent's id, if another
    one, has no child of the node's id left, the registry is as before,
    and no object changes its id. *)
Theorem updateNode_reparents (s : FamilyTree) (i : string) (u : NodeUpdates)
    (node up newParent : ref) (n nu nnp : TreeNode) (cs : list ref) :
  getNode i s = Some node →
  objs s !! node = Some n →
  u_parent u = Some up →
  u_partners u = None →
  objs s !! up = Some nu →
  id nu ≠ "" →
  (∀ op, parent n = Some op → id_of (objs s) op ≠ id nu) →
  getNode (id nu) s = Some newParent →
  objs s !! newParent = Some nnp →
  children nnp = Some cs →
  (updateNode i u s).1 = true
  ∧ nodes (updateNode i u s).2 = nodes s
  ∧ keeps id (objs s) (objs (updateNode i u s).2)
  ∧ parent <$> objs (updateNode i u s).2 !! node = Some (Some up)
  ∧ (∃ cs', children <$> objs (updateNode i u s).2 !! newParent
            = Some (Some (cs' ++ [node])))
  ∧ (∀ op oldParent np' c,
       parent n = Some op →
       id_of (objs s) op ≠ "" →
       getNode (id_of (objs s) op) s = Some oldParent →
       oldParent ≠ newParent →
       objs (updateNode i u s).2 !! oldParent = Some np' →
       c ∈ default [] (children np') →
       id_of (objs (updateNode i u s).2) c ≠ i).
Proof.
  intros Hnode Hn Hup Hps Hnu Hidnu Hdiff Hnew Hnnp Hcs.
  unfold updateNode. unfold getNode in Hnode, Hnew. rewrite Hnode, Hup, Hps.
  cbn [fst snd objs nodes].
  assert (Hidup : id_of (objs s) up = id nu) by (unfold id_of; by rewrite Hnu).
  set (ha := unlink_from_parent (nodes s) i node (objs s)).
  assert (H0a : ∀ A (proj : TreeNode → A),
            (∀ h' n, proj (remove_child_id h' i n) = proj n) → keeps proj (objs s) ha).
  { intros A proj Hp. by apply unlink_from_parent_keeps. }
  assert (Hida : ∀ r, id_of ha r = id_of (objs s) r).
  { intros r. apply keeps_id_of. by apply (H0a _ id). }
  assert (Hchange : change_parent (nodes s) i node up (objs s)
                    = upd (set_parent (Some up)) node
                        (upd (push_child node) newParent ha)).
  { unfold change_parent. rewrite Hn. simpl. rewrite Hidup.
    rewrite bool_decide_eq_true_2.
    2:{ destruct (parent n) as [op|] eqn:Hop; simpl; [|done].
        intros [= Heq]. by apply (Hdiff op). }
    fold ha. rewrite Hida, Hidup. unfold truthy_str.
    apply String.eqb_neq in Hidnu. rewrite Hidnu. simpl. by rewrite Hnew. }
  rewrite Hchange.
  set (h3 := upd (assign_other u) node
               (upd (set_parent (Some up)) node (upd (push_child node) newParent ha))).
  assert (Ha3 : ∀ A (proj : TreeNode → A),
            (∀ c n, proj (push_child c n) = proj n) →
            (∀ c n, proj (set_parent c n) = proj n) →
            (∀ n, proj (assign_other u n) = proj n) → keeps proj ha h3).
  { intros A proj H1 H2 H3. eapply keeps_trans; [|by apply keeps_upd].
    eapply keeps_trans; by apply keeps_upd. }
  assert (Hid3 : ∀ r, id_of h3 r = id_of (objs s) r).
  { intros r. rewrite <- Hida. apply keeps_id_of. by apply (Ha3 _ id). }
  split; [done|]. split; [done|]. split.
  { eapply keeps_trans; [by apply (H0a _ id)|by apply (Ha3 _ id)]. }
  assert (Hna : ∃ na, ha !! node = Some na).
  { destruct (keeps_lookup id _ _ node n (H0a _ id (λ _ _, eq_refl)) Hn) as (na & ? & _).
    by exists na. }
  destruct Hna as [na Hna].
  split.
  { unfold h3, upd. rewrite !list_lookup_alter_eq.
    destruct (decide (newParent = node)) as [->|Hne].
    - rewrite list_lookup_alter_eq, Hna. done.
    - rewrite list_lookup_alter_ne, Hna by done. done. }
  assert (Hnpa : ∃ npa cs', ha !! newParent = Some npa ∧ children npa = Some cs').
  { unfold ha, unlink_from_parent.
    destruct (objs s !! node ≫= parent) as [op|]; [|by exists nnp, cs].
    destruct (truthy_str _); [|by exists nnp, cs].
    destruct (JsMap.get (id_of (objs s) op) (nodes s)) as [oldParent|];
      [|by exists nnp, cs].
    unfold upd. destruct (decide (oldParent = newParent)) as [->|Hne].
    - eexists _, _. rewrite list_lookup_alter_eq, Hnnp. simpl. split; [done|].
      simpl. by rewrite Hcs.
    - exists nnp, cs. by rewrite list_lookup_alter_ne. }
  destruct Hnpa as (npa & cs' & Hnpa & Hcs').
  split.
  { exists cs'.
    assert (Hb : children <$> upd (push_child node) newParent ha !! newParent
                 = Some (Some (cs' ++ [node]))).
    { unfold upd. rewrite list_lookup_alter_eq, Hnpa. simpl. by rewrite Hcs'. }
    rewrite <- Hb. unfold h3.
    etrans; [apply (keeps_upd children (assign_other u)); done|].
    apply (keeps_upd children (set_parent (Some up))). done. }
  intros op oldParent np' c Hop Hopid Hold Hne Hnp' Hc. rewrite Hid3.
  assert (Hk : children <$> h3 !! oldParent = children <$> ha !! oldParent).
  { unfold h3. etrans; [apply (keeps_upd children (assign_other u)); done|].
    etrans; [apply (keeps_upd children (set_parent (Some up))); done|].
    unfold upd. by rewrite list_lookup_alter_ne. }
  rewrite Hnp' in Hk. simpl in Hk.
  unfold ha, unlink_from_parent in Hk. rewrite Hn in Hk. simpl in Hk.
  rewrite Hop in Hk. unfold truthy_str in Hk.
  apply String.eqb_neq in Hopid. rewrite Hopid in Hk. simpl in Hk.
  unfold getNode in Hold. rewrite Hold in Hk. unfold upd in Hk.
  rewrite list_lookup_alter_eq in Hk.
  destruct (objs s !! oldParent) as [npo|]; simpl in Hk; [|done].
  injection Hk as Hk. rewrite Hk in Hc.
  destruct (children npo) as [cso|]; simpl in Hc; [|by apply elem_of_nil in Hc].
  apply elem_of_filter_bool in Hc as [Hc _].
  by apply negb_true_iff, String.eqb_neq in Hc.
Qed.

Lemma updateNode_reparents_witness :
  parent <$> objs (updateNode "c" (mkNodeUpdates (Some 2) None None None None)
                     sample_store_two_roots).2 !! 1 = Some (Some 2)
  ∧ ∃ cs', children <$> objs (updateNode "c" (mkNodeUpdates (Some 2) None None None None)
                                sample_store_two_roots).2 !! 2
           = Some (Some (cs' ++ [1])).
Proof.
  pose proof (updateNode_reparents sample_store_two_roots "c"
                (mkNodeUpdates (Some 2) None None None None) 1 2 2
                (mkTreeNode "c" "C" (Some 0) (Some []) (Some []) None None)
                (mkTreeNode "q" "Q" None (Some []) (Some []) None None)
                (mkTreeNode "q" "Q" None (Some []) (Some []) None None) []
                eq_refl eq_refl eq_refl eq_refl eq_refl) as H.
  destruct H as (_ & _ & _ & H1 & H2 & _); try reflexivity.
  - vm_compute. discriminate.
  - intros op [= <-]. vm_compute. discriminate.
  - exact (conj H1 H2).
Defined.

Lemma lists_partner_id_other (h h' : list TreeNode) (a : ref) (i : string) :
  keeps id h h' → h' !! a = h !! a →
  lists_partner_id h a i → lists_partner_id h' a i.
Proof.
  intros Hk Ha (n & l & q & Hn & Hl & Hq & Hid).
  exists n, l, q. rewrite Ha. split; [done|]. split; [done|]. split; [done|].
  by rewrite (keeps_id_of h h').
Qed.

(** X30.  [updateNode] with new partners makes the links mutual: for a
    node registered under its own id, when the update gives a
    [partners] array, after the call the node's [partners] is that
    array, and every registered node, other than the node itself, that
    carries the id of one of the new partners and has a [partners] array
    lists an object with the node's id. *)
Theorem updateNode_partners_mutual (s : FamilyTree) (i : string) (u : NodeUpdates)
    (node partner pn : ref) (n np : TreeNode) (ps l : list ref) :
  getNode i s = Some node →
  objs s !! node = Some n →
  id n = i →
  u_partners u = Some ps →
  partner ∈ ps →
  getNode (id_of (objs s) partner) s = Some pn →
  pn ≠ node →
  objs s !! pn = Some np →
  partners np = Some l →
  (updateNode i u s).1 = true
  ∧ partners <$> objs (updateNode i u s).2 !! node = Some (Some ps)
  ∧ lists_partner_id (objs (updateNode i u s).2) pn i.
Proof.
  intros Hnode Hn Hid Hps Hpartner Hpn Hne Hnp Hl.
  unfold updateNode. unfold getNode in Hnode, Hpn. rewrite Hnode, Hps.
  cbn [fst snd objs nodes].
  set (h1 := match u_parent u with
             | Some up => change_parent (nodes s) i node up (objs s)
             | None => objs s
             end).
  assert (H01 : keeps (λ m, (id m, partners m)) (objs s) h1).
  { unfold h1. destruct (u_parent u); [|apply keeps_refl].
    by apply change_parent_keeps. }
  unfold change_partners.
  set (hc := unlink_from_partners (nodes s) i node h1).
  assert (H1c : keeps id h1 hc) by (by apply unlink_from_partners_keeps).
  assert (H0c : keeps id (objs s) hc).
  { eapply keeps_trans; [|done]. intros r. specialize (H01 r).
    destruct (h1 !! r), (objs s !! r); simpl in *; congruence. }
  (* the partner's node still has a [partners] array *)
  assert (Hpc : ∃ npc lc, hc !! pn = Some npc ∧ partners npc = Some lc).
  { destruct (keeps_lookup _ _ _ pn np H01 Hnp) as (np1 & Hnp1 & Heq).
    injection Heq as _ Hp1. rewrite Hl in Hp1.
    assert (Hgen : ∀ (parts : list ref) h,
              (∃ m lm, h !! pn = Some m ∧ partners m = Some lm) →
              ∃ m lm, foldl (λ h' partner,
                               match JsMap.get (id_of h' partner) (nodes s) with
                               | Some partnerNode =>
                                   upd (remove_partner_id h' i) partnerNode h'
                               | None => h'
                               end) h parts !! pn = Some m ∧ partners m = Some lm).
    { induction parts as [|b parts IH]; intros h Hh; [done|].
      cbn [foldl]. apply IH. destruct Hh as (m & lm & Hm & Hlm).
      destruct (JsMap.get (id_of h b) (nodes s)) as [x|]; [|by exists m, lm].
      unfold upd. destruct (decide (x = pn)) as [->|Hx].
      - eexists _, _. rewrite list_lookup_alter_eq, Hm. simpl. split; [done|].
        simpl. by rewrite Hlm.
      - exists m, lm. by rewrite list_lookup_alter_ne. }
    apply Hgen. by exists np1, l. }
  destruct Hpc as (npc & lc & Hnpc & Hlc).
  match goal with
  | |- context [foldl ?f hc ps] => set (step := f)
  end.
  assert (Hstep_grow : ∀ h' b, partners_grow h' (step h' b)).
  { intros h' b. unfold step.
    destruct (JsMap.get (id_of h' b) (nodes s)) as [x|]; [|apply partners_grow_refl].
    destruct (js_not _); [apply partners_grow_push|apply partners_grow_refl]. }
  apply list_elem_of_split in Hpartner as (ps1 & ps2 & Hsplit).
  assert (Hd : lists_partner_id (foldl step hc ps) pn i).
  { rewrite Hsplit, foldl_app. cbn [foldl].
    set (ha := foldl step hc ps1).
    assert (Hca : partners_grow hc ha) by (by apply partners_grow_foldl).
    destruct (proj2 Hca pn npc lc Hnpc Hlc) as (npa & la & Hnpa & Hla).
    assert (Hida : ∀ r, id_of ha r = id_of (objs s) r).
    { intros r. apply keeps_id_of. eapply keeps_trans; [done|apply Hca]. }
    assert (Hb : lists_partner_id (step ha partner) pn i).
    { unfold step. rewrite Hida, Hpn.
      apply (push_unless_listed ha pn node i npa (lc ++ la)); [done|done|].
      rewrite Hida. unfold id_of. by rewrite Hn. }
    eapply lists_partner_id_grow; [|done]. by apply partners_grow_foldl. }
  assert (Hkd : keeps id hc (foldl step hc ps)).
  { apply (partners_grow_foldl step ps hc Hstep_grow). }
  split; [done|]. split.
  - unfold upd. rewrite !list_lookup_alter_eq.
    destruct (keeps_lookup id _ _ node n H0c Hn) as (nc & Hnc & _).
    destruct (keeps_lookup id _ _ node nc Hkd Hnc) as (nd & Hnd & _).
    by rewrite Hnd.
  - eapply lists_partner_id_other; [| |eapply lists_partner_id_other; [| |exact Hd]].
    + by apply keeps_upd.
    + unfold upd. by rewrite list_lookup_alter_ne.
    + by apply keeps_upd.
    + unfold upd. by rewrite list_lookup_alter_ne.
Qed.

Lemma updateNode_partners_mutual_witness :
  partners <$> objs (updateNode "c" (mkNodeUpdates None (Some [2]) None None None)
                       sample_store_two_roots).2 !! 1 = Some (Some [2])
  ∧ lists_partner_id
      (objs (updateNode "c" (mkNodeUpdates None (Some [2]) None None None)
               sample_store_two_roots).2) 2 "c".
Proof.
  assert (Hin : 2 ∈ [2]) by left.
  pose proof (updateNode_partners_mutual sample_store_two_roots "c"
                (mkNodeUpdates None (Some [2]) None None None) 1 2 2
                (mkTreeNode "c" "C" (Some 0) (Some []) (Some []) None None)
                (mkTreeNode "q" "Q" None (Some []) (Some []) None None) [2] []
                eq_refl eq_refl eq_refl eq_refl Hin eq_refl) as H.
  destruct H as (_ & H1 & H2); try reflexivity; [lia|].
  exact (conj H1 H2).
Defined.

End UpdateFacts.

(** ** Zoom and pan *)
Module ZoomFacts.
Import Zoom.

Lemma clamp_bounds (v : Q) : (MIN_SCALE <= clamp v)%Q ∧ (clamp v <= MAX_SCALE)%Q.
Proof.
  unfold clamp. split; [apply Q.le_max_l|].
  apply Q.max_lub; [by vm_compute|apply Q.le_min_l].
Qed.

Lemma clamp_inside (v : Q) : (MIN_SCALE <= v)%Q → (v <= MAX_SCALE)%Q → (clamp v == v)%Q.
Proof.
  intros Hlo Hhi. unfold clamp. rewrite (Q.min_r _ _ Hhi). by apply Q.max_r.
Qed.

Lemma MIN_SCALE_pos : (0 < MIN_SCALE)%Q.
Proof. by vm_compute. Qed.

Lemma clamp_above (s v : Q) :
  (s <= MAX_SCALE)%Q → (s <= v)%Q → (s <= clamp v)%Q.
Proof.
  intros Hs Hv. unfold clamp.
  eapply Qle_trans; [|apply Q.le_max_r]. by apply Q.min_glb.
Qed.

Lemma clamp_below (s v : Q) :
  (MIN_SCALE <= s)%Q → (v <= s)%Q → (clamp v <= s)%Q.
Proof.
  intros Hs Hv. unfold clamp. apply Q.max_lub; [done|].
  eapply Qle_trans; [apply Q.le_min_r|done].
Qed.

Lemma toFixed2_near (v : Q) :
  (v - (1 # 200) <= toFixed2 v)%Q ∧ (toFixed2 v <= v + (1 # 200))%Q.
Proof.
  assert (Hnear : ∀ x : Q,
            (x - (1 # 200) <= inject_Z (Qfloor (x * 100 + (1 # 2))) / 100)%Q
            ∧ (inject_Z (Qfloor (x * 100 + (1 # 2))) / 100 <= x + (1 # 200))%Q).
  { intros x.
    pose proof (Qfloor_le (x * 100 + (1 # 2))) as Hle.
    pose proof (Qlt_floor (x * 100 + (1 # 2))) as Hlt.
    rewrite inject_Z_plus in Hlt.
    set (z := inject_Z (Qfloor (x * 100 + (1 # 2)))) in *.
    assert (Hz : (z / 100 * 100 == z)%Q) by (field; discriminate).
    change (inject_Z 1) with 1%Q in Hlt.
    split; lra. }
  unfold toFixed2.
  destruct (Qlt_le_dec v 0).
  - destruct (Qlt_le_dec (- v) _); [|split; lra].
    destruct (Hnear (- v)%Q). split; lra.
  - destruct (Qlt_le_dec v _); [|split; lra].
    apply Hnear.
Qed.

Lemma handle_scale_in_range (e : Event) (st : ZoomState) :
  (MIN_SCALE <= scale st)%Q ∧ (scale st <= MAX_SCALE)%Q →
  (MIN_SCALE <= scale (handle e st))%Q ∧ (scale (handle e st) <= MAX_SCALE)%Q.
Proof.
  intros [Hlo Hhi].
  destruct e as [event| | |dom|dom|cx cy|cx cy|]; simpl.
  - apply clamp_bounds.
  - destruct (toFixed2_near (scale st + zoomStep)) as [Hnear _].
    unfold MIN_SCALE, MAX_SCALE, zoomStep in *.
    split; [|apply Q.le_min_l].
    apply Q.min_glb; [by vm_compute|]. lra.
  - destruct (toFixed2_near (scale st - zoomStep)) as [_ Hnear].
    unfold MIN_SCALE, MAX_SCALE, zoomStep in *.
    split; [apply Q.le_max_l|].
    apply Q.max_lub; [by vm_compute|]. lra.
  - unfold zoomToFit. destruct dom as [d|]; [|done].
    destruct (Qeq_dec _ _); [done|]. destruct (Qeq_dec _ _); [done|].
    apply clamp_bounds.
  - unfold resetZoom. destruct dom as [d|]; [|done].
    destruct (Qeq_dec _ _); [done|]. destruct (Qeq_dec _ _); [done|].
    simpl. split; by vm_compute.
  - done.
  - unfold handleMouseMove. by destruct (isPanning st).
  - done.
Qed.

(** X24.  The scale never leaves [[MIN_SCALE, MAX_SCALE]].  Whatever
    the state and the event, the scale [handleWheel] sets is within the
    bounds; from a scale within the bounds, a wheel turn with a negative
    [deltaY] never lowers the scale and any other turn never raises it;
    the panning fields are not touched; and after any sequence of wheel
    turns, zoom buttons, fits, resets and mouse events from the initial
    state the scale is within the bounds, so that [handleWheel] always
    divides by a positive scale. *)
Theorem scale_stays_in_range (events : list Event) (event : Wheel) (st : ZoomState) :
  ((MIN_SCALE <= scale (handleWheel event st))%Q
   ∧ (scale (handleWheel event st) <= MAX_SCALE)%Q)
  ∧ ((MIN_SCALE <= scale st)%Q → (scale st <= MAX_SCALE)%Q →
     ((deltaY event < 0)%Q → (scale st <= scale (handleWheel event st))%Q)
     ∧ ((0 <= deltaY event)%Q → (scale (handleWheel event st) <= scale st)%Q))
  ∧ (isPanning (handleWheel event st), lastX (handleWheel event st),
     lastY (handleWheel event st)) = (isPanning st, lastX st, lastY st)
  ∧ ((MIN_SCALE <= scale (foldl (λ st' e, handle e st') initial events))%Q
     ∧ (scale (foldl (λ st' e, handle e st') initial events) <= MAX_SCALE)%Q
     ∧ (0 < scale (foldl (λ st' e, handle e st') initial events))%Q).
Proof.
  split; [apply clamp_bounds|]. split; [|split; [done|]].
  - intros Hlo Hhi. unfold handleWheel. cbn [scale].
    destruct (Qlt_le_dec (deltaY event) 0) as [Hneg|Hpos]; split.
    + intros _. apply clamp_above; [done|]. lra.
    + intros H0. lra.
    + intros Hlt. lra.
    + intros _. apply clamp_below; [done|]. lra.
  - assert (Hgen : ∀ st0,
              (MIN_SCALE <= scale st0)%Q ∧ (scale st0 <= MAX_SCALE)%Q →
              (MIN_SCALE <= scale (foldl (λ st' e, handle e st') st0 events))%Q
              ∧ (scale (foldl (λ st' e, handle e st') st0 events) <= MAX_SCALE)%Q).
    { induction events as [|e events IH]; intros st0 Hst0; [done|].
      cbn [foldl]. apply IH. by apply handle_scale_in_range. }
    destruct (Hgen initial) as [Hlo Hhi]; [split; by vm_compute|].
    split; [done|]. split; [done|].
    pose proof MIN_SCALE_pos. lra.
Qed.





End ZoomFacts.
